(** * heap_prio_queue: the intrusive priority queue and the tick-driven timer module

    A shallow embedding of [priority_queue.c] and [timer.c].

    Memory model.  Timer records are caller-owned C objects; the model keeps
    them in a finite map from addresses to record contents.  [struct timer]
    embeds its [struct heap_node] as first member, so the address of a node
    and the address of its timer coincide and [CONTAINER_OF] is the identity
    on addresses.  A C pointer is an [option] of an address, [None] being
    [NULL].  Dereferencing [NULL] or an address that holds no record, and
    calling a null function pointer, is undefined behaviour: the model stops
    with [Fault].  The two [while] loops of the source take a fuel argument
    and stop with [OutOfFuel] when it is used up.

    Callbacks are user code.  They are modelled as observers: calling one
    appends the pair (timer address, tick counter) to the trace [fired] and
    leaves the scheduler state alone.

    [timer_stop] calls [pq_remove], which [priority_queue.c] does not
    define; it is not part of the model. *)

From Stdlib Require Import ZArith Lia.
From stdpp Require Import base option list gmap fin_maps.

Local Open Scope Z_scope.

(** ** Results of running C code *)

Inductive outcome (A : Type) : Type :=
| Done (a : A)
| Fault
| OutOfFuel.
Arguments Done {A} a.
Arguments Fault {A}.
Arguments OutOfFuel {A}.

Global Instance outcome_ret : MRet outcome := @Done.
Global Instance outcome_bind : MBind outcome :=
  λ A B f x, match x with
             | Done a => f a
             | Fault => Fault
             | OutOfFuel => OutOfFuel
             end.

(** ** Data model: priority_queue.h and the timer record *)

Abbreviation addr := nat (only parsing).
Abbreviation ptr := (option nat) (only parsing).

Record heap_node : Type := HeapNode {
  next : ptr;
  prev : ptr;
  parent : ptr
}.

Record timer : Type := Timer {
  node : heap_node;
  expiry : Z;
  period : Z;
  callback : option nat;
  data : nat
}.

Abbreviation mem := (gmap nat timer) (only parsing).

(** A comparison function pointer: it reads the two records it is given. *)
Definition compare_fn : Type := gmap nat timer → nat → nat → outcome Z.

Record priority_queue : Type := PriorityQueue {
  head : ptr;
  tail : ptr;
  root : ptr;
  compare : option compare_fn
}.

Definition EINVAL : Z := 22.
Definition UINT64_MOD : Z := 2 ^ 64.
Definition wrap64 (z : Z) : Z := z mod UINT64_MOD.

(** ** Memory access *)

Definition load (m : mem) (a : addr) : outcome timer :=
  match m !! a with
  | Some t => Done t
  | None => Fault
  end.

Definition with_node (nd : heap_node) (t : timer) : timer :=
  {| node := nd; expiry := expiry t; period := period t;
     callback := callback t; data := data t |}.

Definition with_expiry (e : Z) (t : timer) : timer :=
  {| node := node t; expiry := e; period := period t;
     callback := callback t; data := data t |}.

Definition with_period (p : Z) (t : timer) : timer :=
  {| node := node t; expiry := expiry t; period := p;
     callback := callback t; data := data t |}.

Definition set_next (x : ptr) (nd : heap_node) : heap_node :=
  {| next := x; prev := prev nd; parent := parent nd |}.
Definition set_prev (x : ptr) (nd : heap_node) : heap_node :=
  {| next := next nd; prev := x; parent := parent nd |}.
Definition set_parent (x : ptr) (nd : heap_node) : heap_node :=
  {| next := next nd; prev := prev nd; parent := x |}.

(** [a->field = ...] *)
Definition update (m : mem) (a : addr) (f : timer → timer) : outcome mem :=
  t ← load m a; Done (<[a := f t]> m).

Definition update_node (m : mem) (a : addr) (f : heap_node → heap_node)
  : outcome mem :=
  update m a (λ t, with_node (f (node t)) t).

Definition load_node (m : mem) (a : addr) : outcome heap_node :=
  t ← load m a; Done (node t).

(** ** priority_queue.c *)

Definition swap_nodes (m : mem) (a b : addr) : outcome mem :=
  temp ← load_node m a;
  nb ← load_node m b;
  m ← update_node m a (λ _, nb);
  m ← update_node m b (λ _, temp);
  na ← load_node m a;
  nb ← load_node m b;
  if decide (parent na = Some b) then
    m ← update_node m a (set_parent (parent nb));
    update_node m b (set_parent (Some a))
  else if decide (parent nb = Some a) then
    m ← update_node m b (set_parent (parent na));
    update_node m a (set_parent (Some b))
  else
    let temp_parent := parent na in
    m ← update_node m a (set_parent (parent nb));
    update_node m b (set_parent temp_parent).

Definition pq_init (pq : option priority_queue) (cmp : option compare_fn)
  : Z * option priority_queue :=
  match pq, cmp with
  | Some _, Some c =>
      (0, Some {| head := None; tail := None; root := None;
                  compare := Some c |})
  | _, _ => (- EINVAL, pq)
  end.

Definition pq_insert (pq : option priority_queue) (nd : ptr) (m : mem)
  : outcome (Z * option priority_queue * mem) :=
  match pq, nd with
  | Some q, Some n =>
      match head q with
      | None =>
          m ← update_node m n
                (λ _, {| next := None; prev := None; parent := None |});
          Done (0, Some {| head := Some n; tail := Some n; root := Some n;
                           compare := compare q |}, m)
      | Some _ =>
          match tail q with
          | None => Fault
          | Some tl =>
              m ← update_node m tl (set_next (Some n));
              m ← update_node m n (set_prev (Some tl));
              m ← update_node m n (set_next None);
              Done (0, Some {| head := head q; tail := Some n;
                               root := root q; compare := compare q |}, m)
          end
      end
  | _, _ => Done (- EINVAL, pq, m)
  end.

Definition pq_pop (pq : option priority_queue) (m : mem)
  : outcome (ptr * option priority_queue * mem) :=
  match pq with
  | None => Done (None, pq, m)
  | Some q =>
      match head q with
      | None => Done (None, pq, m)
      | Some _ =>
          let r := root q in
          if decide (head q = tail q) then
            Done (r, Some {| head := None; tail := None; root := None;
                             compare := compare q |}, m)
          else
            match tail q with
            | None => Fault
            | Some tl =>
                tn ← load_node m tl;
                m ← match prev tn with
                    | Some p => update_node m p (set_next None)
                    | None => Done m
                    end;
                tn ← load_node m tl;
                let new_tail := prev tn in
                m ← update_node m tl (set_prev None);
                m ← update_node m tl (set_next None);
                Done (r, Some {| head := head q; tail := new_tail;
                                 root := Some tl; compare := compare q |}, m)
            end
      end
  end.

Definition pq_peek (pq : option priority_queue) : ptr :=
  match pq with
  | Some q => root q
  | None => None
  end.

(** [pq->compare(x, y)] *)
Definition call_compare (cmp : option compare_fn) (m : mem) (x y : addr)
  : outcome Z :=
  match cmp with
  | Some c => c m x y
  | None => Fault
  end.

(** The choice of [largest] in one iteration of the loop of [pq_reorder]. *)
Definition pick_largest (cmp : option compare_fn) (m : mem) (current : addr)
  : outcome addr :=
  cur ← load_node m current;
  largest ← match next cur with
            | Some n =>
                c ← call_compare cmp m n current;
                Done (if decide (0 < c) then n else current)
            | None => Done current
            end;
  match prev cur with
  | Some p =>
      c ← call_compare cmp m p largest;
      Done (if decide (0 < c) then p else largest)
  | None => Done largest
  end.

Fixpoint reorder_loop (fuel : nat) (cmp : option compare_fn) (current : addr)
  (m : mem) : outcome mem :=
  match fuel with
  | O => OutOfFuel
  | S fuel' =>
      largest ← pick_largest cmp m current;
      if decide (largest = current) then Done m
      else m ← swap_nodes m current largest;
           reorder_loop fuel' cmp current m
  end.

Definition pq_reorder (fuel : nat) (pq : option priority_queue) (m : mem)
  : outcome mem :=
  match pq with
  | None => Done m
  | Some q =>
      match head q with
      | None => Done m
      | Some _ =>
          match root q with
          | None => Fault
          | Some current => reorder_loop fuel (compare q) current m
          end
      end
  end.

(** ** timer.c *)

Definition timer_compare : compare_fn :=
  λ m a b,
    timer_a ← load m a;
    timer_b ← load m b;
    Done ((if decide (expiry timer_a > expiry timer_b) then 1 else 0)
          - (if decide (expiry timer_a < expiry timer_b) then 1 else 0)).

(** The statics of timer.c, the caller-owned timer records and the trace of
    callback invocations (most recent first). *)
Record timer_module : Type := TimerModule {
  timer_queue : priority_queue;
  global_ticks : Z;
  heap : gmap nat timer;
  fired : list (nat * Z)
}.

(** [&timer_queue] is never null; the queue functions hand back the pointee. *)
Definition pointee (pq : option priority_queue) : outcome priority_queue :=
  match pq with
  | Some q => Done q
  | None => Fault
  end.

Definition timer_module_init (s : timer_module) : outcome timer_module :=
  q ← pointee (pq_init (Some (timer_queue s)) (Some timer_compare)).2;
  Done {| timer_queue := q; global_ticks := 0;
          heap := heap s; fired := fired s |}.

Definition timer_init (t : addr) (cb : option nat) (d : nat) (s : timer_module)
  : outcome timer_module :=
  m ← update (heap s) t
        (λ tm, {| node := node tm; expiry := 0; period := 0;
                  callback := cb; data := d |});
  Done {| timer_queue := timer_queue s; global_ticks := global_ticks s;
          heap := m; fired := fired s |}.

Definition timer_start (fuel : nat) (t : addr) (ticks : Z) (periodic : bool)
  (s : timer_module) : outcome timer_module :=
  m ← update (heap s) t (with_expiry (wrap64 (global_ticks s + ticks)));
  m ← update m t (with_period (if periodic then ticks else 0));
  '(_, pq, m) ← pq_insert (Some (timer_queue s)) (Some t) m;
  m ← pq_reorder fuel pq m;
  q ← pointee pq;
  Done {| timer_queue := q; global_ticks := global_ticks s;
          heap := m; fired := fired s |}.

Definition timer_set_period (t : addr) (ticks : Z) (s : timer_module)
  : outcome timer_module :=
  m ← update (heap s) t (with_period ticks);
  Done {| timer_queue := timer_queue s; global_ticks := global_ticks s;
          heap := m; fired := fired s |}.

(** [next_timer->callback(next_timer, next_timer->data)] *)
Definition invoke_callback (n : addr) (s : timer_module)
  : outcome timer_module :=
  tm ← load (heap s) n;
  match callback tm with
  | None => Fault
  | Some _ =>
      Done {| timer_queue := timer_queue s; global_ticks := global_ticks s;
              heap := heap s; fired := (n, global_ticks s) :: fired s |}
  end.

(** The body of the [while] loop of [timer_increment_tick], for the due
    timer [n] that [pq_peek] returned. *)
Definition expire (n : addr) (s : timer_module) : outcome timer_module :=
  '(_, pq, m) ← pq_pop (Some (timer_queue s)) (heap s);
  q ← pointee pq;
  s ← invoke_callback n
        {| timer_queue := q; global_ticks := global_ticks s;
           heap := m; fired := fired s |};
  next_timer ← load (heap s) n;
  if decide (period next_timer = 0) then Done s
  else
    m ← update (heap s) n
          (with_expiry (wrap64 (expiry next_timer + period next_timer)));
    '(_, pq, m) ← pq_insert (Some (timer_queue s)) (Some n) m;
    q ← pointee pq;
    Done {| timer_queue := q; global_ticks := global_ticks s;
            heap := m; fired := fired s |}.

Fixpoint drain (fuel : nat) (s : timer_module) : outcome timer_module :=
  match fuel with
  | O => OutOfFuel
  | S fuel' =>
      match pq_peek (Some (timer_queue s)) with
      | None => Done s
      | Some n =>
          next_timer ← load (heap s) n;
          if decide (expiry next_timer <= global_ticks s) then
            s ← expire n s; drain fuel' s
          else Done s
      end
  end.

Definition timer_increment_tick (fuel : nat) (s : timer_module)
  : outcome timer_module :=
  let s := {| timer_queue := timer_queue s;
              global_ticks := wrap64 (global_ticks s + 1);
              heap := heap s; fired := fired s |} in
  s ← drain fuel s;
  m ← pq_reorder fuel (Some (timer_queue s)) (heap s);
  Done {| timer_queue := timer_queue s; global_ticks := global_ticks s;
          heap := m; fired := fired s |}.

(** [n] consecutive calls of [timer_increment_tick]. *)
Fixpoint run_ticks (fuel : nat) (n : nat) (s : timer_module)
  : outcome timer_module :=
  match n with
  | O => Done s
  | S n' => s ← timer_increment_tick fuel s; run_ticks fuel n' s
  end.

(** How often timer [t] occurs in a trace. *)
Definition fire_count (t : addr) (tr : list (nat * Z)) : nat :=
  length (filter (λ ev, ev.1 = t) tr).

(** [global_ticks++], the first statement of [timer_increment_tick]. *)
Definition ticked (s : timer_module) : timer_module :=
  {| timer_queue := timer_queue s;
     global_ticks := wrap64 (global_ticks s + 1);
     heap := heap s; fired := fired s |}.

(** The states in which the [while] loop of [timer_increment_tick] is at its
    test: [drain_reaches s s'] when the loop, entered in state [s], has run
    its body some number of times, each time on a due timer, and is in
    state [s'].  This also describes calls whose loop never ends. *)
Inductive drain_reaches : timer_module → timer_module → Prop :=
  | drain_reaches_here s : drain_reaches s s
  | drain_reaches_step s n tm s1 s2 :
      pq_peek (Some (timer_queue s)) = Some n →
      load (heap s) n = Done tm →
      expiry tm ≤ global_ticks s →
      expire n s = Done s1 →
      drain_reaches s1 s2 →
      drain_reaches s s2.

(** ** Concrete states: the README example and small queues *)

Definition blank : timer :=
  {| node := {| next := None; prev := None; parent := None |};
     expiry := 0; period := 0; callback := None; data := 0%nat |}.

Definition boot : timer_module :=
  {| timer_queue := {| head := None; tail := None; root := None;
                       compare := None |};
     global_ticks := 0;
     heap := <[1%nat := blank]> (<[2%nat := blank]> (<[3%nat := blank]> ∅));
     fired := [] |}.

Definition readme_setup : outcome timer_module :=
  s ← timer_module_init boot;
  s ← timer_init 1 (Some 7%nat) 0 s;
  s ← timer_start 10 1 100 false s;
  s ← timer_init 2 (Some 7%nat) 1 s;
  timer_start 10 2 50 true s.

(** A registered, unarmed timer record with deadline [e] and period [p]. *)
Definition record (e p : Z) : timer :=
  {| node := {| next := None; prev := None; parent := None |};
     expiry := e; period := p; callback := Some 7%nat; data := 0%nat |}.

(** The queue right after [pq_init(&pq, timer_compare)]. *)
Definition fresh_queue : priority_queue :=
  {| head := None; tail := None; root := None;
     compare := Some timer_compare |}.

(** [pq_init] followed by [pq_insert] of the nodes 1, 2 (and 3). *)
Definition two_inserted (m : mem) : outcome (option priority_queue * mem) :=
  '(_, pq, m) ← pq_insert (Some fresh_queue) (Some 1%nat) m;
  '(_, pq, m) ← pq_insert pq (Some 2%nat) m;
  Done (pq, m).

Definition three_inserted (m : mem) : outcome (option priority_queue * mem) :=
  '(pq, m) ← two_inserted m;
  '(_, pq, m) ← pq_insert pq (Some 3%nat) m;
  Done (pq, m).

Definition records2 (e1 e2 : Z) : gmap nat timer :=
  <[1%nat := record e1 0]> (<[2%nat := record e2 0]> ∅).

Definition records3 (e1 e2 e3 : Z) : gmap nat timer :=
  <[1%nat := record e1 0]>
    (<[2%nat := record e2 0]> (<[3%nat := record e3 0]> ∅)).

(** The queue and the memory that [two_inserted] builds. *)
Definition queue12 : priority_queue :=
  {| head := Some 1%nat; tail := Some 2%nat; root := Some 1%nat;
     compare := Some timer_compare |}.

Definition linked2 (e1 e2 : Z) : gmap nat timer :=
  <[1%nat := with_node {| next := Some 2%nat; prev := None; parent := None |}
               (record e1 0)]>
    (<[2%nat := with_node {| next := None; prev := Some 1%nat;
                             parent := None |} (record e2 0)]> ∅).

(** A node's links, with no parent. *)
Definition links (nx pv : ptr) : heap_node :=
  {| next := nx; prev := pv; parent := None |}.

(** Memories over the records 1, 2 (deadlines 1 and 10) and 1, 2, 3
    (deadlines 1, 10 and 5), by the links of each node. *)
Definition linked2_as (n1 n2 : heap_node) : gmap nat timer :=
  <[1%nat := with_node n1 (record 1 0)]>
    (<[2%nat := with_node n2 (record 10 0)]> ∅).

Definition linked3_as (n1 n2 n3 : heap_node) : gmap nat timer :=
  <[1%nat := with_node n1 (record 1 0)]>
    (<[2%nat := with_node n2 (record 10 0)]>
       (<[3%nat := with_node n3 (record 5 0)]> ∅)).

(** [linked2 1 10] after [pq_reorder]. *)
Definition swapped2 : gmap nat timer :=
  linked2_as (links None (Some 1%nat)) (links (Some 2%nat) None).

(** The list 1 → 2 → 3 as [three_inserted] builds it, and the memories the
    loop of [pq_reorder] goes through from there. *)
Definition linked3 : gmap nat timer :=
  linked3_as (links (Some 2%nat) None) (links (Some 3%nat) (Some 1%nat))
             (links None (Some 2%nat)).
Definition spin_start : gmap nat timer :=
  linked3_as (links (Some 3%nat) (Some 1%nat)) (links (Some 2%nat) None)
             (links None (Some 2%nat)).
Definition spin_a : gmap nat timer :=
  linked3_as (links None (Some 2%nat)) (links (Some 2%nat) None)
             (links (Some 3%nat) (Some 1%nat)).
Definition spin_b : gmap nat timer :=
  linked3_as (links (Some 2%nat) None) (links None (Some 2%nat))
             (links (Some 3%nat) (Some 1%nat)).

(** ** Predicates and measures used in the statements *)

(** What a timer record carries besides its queue links. *)
Definition payload (t : timer) : Z * Z * option nat * nat :=
  (expiry t, period t, callback t, data t).

Definition same_payload (m m' : mem) : Prop :=
  ∀ x : nat, payload <$> (m' !! x) = payload <$> (m !! x).

(** Timer [t], with deadline [e] and period [p], is registered and is the
    only member of the queue. *)
Definition sole (t : nat) (e p : Z) (s : timer_module) : Prop :=
  head (timer_queue s) = Some t ∧ tail (timer_queue s) = Some t ∧
  root (timer_queue s) = Some t ∧
  ∃ tm, heap s !! t = Some tm ∧ node tm = links None None ∧
        expiry tm = e ∧ period tm = p ∧ callback tm ≠ None.

(** The callbacks of a timer armed at tick [c] with period [p], over its
    first [n] periods, most recent first. *)
Fixpoint periodic_trace (t : nat) (c p : Z) (n : nat) : list (nat * Z) :=
  match n with
  | O => []
  | S n' => (t, c + Z.of_nat n * p) :: periodic_trace t c p n'
  end.

(** The module after [timer_module_init], with three registered timers. *)
Definition registered : timer_module :=
  {| timer_queue := fresh_queue; global_ticks := 0;
     heap := <[1%nat := record 0 0]>
               (<[2%nat := record 0 0]> (<[3%nat := record 0 0]> ∅));
     fired := [] |}.

(** The same module with the tick counter at its last value, 2^64 - 1. *)
Definition last_tick : timer_module :=
  {| timer_queue := fresh_queue; global_ticks := 2 ^ 64 - 1;
     heap := heap registered; fired := [] |}.

(** The module after the calls of the README example: [timer_module_init],
    timer 1 armed one-shot for 100 ticks, timer 2 armed periodic for 50. *)
Definition readme_armed : timer_module :=
  {| timer_queue := queue12; global_ticks := 0;
     heap := <[1%nat := {| node := links (Some 2%nat) None; expiry := 100;
                           period := 0; callback := Some 7%nat;
                           data := 0%nat |}]>
               (<[2%nat := {| node := links None (Some 1%nat); expiry := 50;
                              period := 50; callback := Some 7%nat;
                              data := 1%nat |}]>
                  (<[3%nat := blank]> ∅));
     fired := [] |}.

(** The module after [timer_module_init], [timer_init] of timer 1 and
    [timer_start(&t1, 2^63, true)], and the same after the 2^63 - 1 calls of
    [timer_increment_tick] that come before the timer's deadline. *)
Definition half_armed : timer_module :=
  {| timer_queue := {| head := Some 1%nat; tail := Some 1%nat;
                       root := Some 1%nat; compare := Some timer_compare |};
     global_ticks := 0;
     heap := <[1%nat := record (2 ^ 63) (2 ^ 63)]>
               (<[2%nat := blank]> (<[3%nat := blank]> ∅));
     fired := [] |}.

Definition half_idle : timer_module :=
  {| timer_queue := timer_queue half_armed; global_ticks := 2 ^ 63 - 1;
     heap := heap half_armed; fired := [] |}.

(** *** A bound on the iterations of the loop of [timer_increment_tick]

    [due_weight] counts how often a periodic record can still be due at tick
    [gt]; [link_weight] is 1 for a node with a predecessor link. *)
Definition due_weight (gt : Z) (tm : timer) : nat :=
  if decide (period tm = 0) then 0%nat
  else if decide (expiry tm ≤ gt)
       then Z.to_nat ((gt - expiry tm) / period tm + 1)
       else 0%nat.

Definition link_weight (tm : timer) : nat :=
  match prev (node tm) with
  | Some _ => 1%nat
  | None => 0%nat
  end.

Definition weight (gt : Z) (tm : timer) : nat :=
  (4 * due_weight gt tm + link_weight tm)%nat.

Definition heap_weight (gt : Z) (m : mem) : nat :=
  map_fold (λ _ tm acc, (weight gt tm + acc)%nat) 0%nat m.

Definition queue_weight (q : priority_queue) : nat :=
  ((match tail q with Some _ => 1 | None => 0 end)
   + (match root q with Some _ => 1 | None => 0 end))%nat.

Definition drain_bound (s : timer_module) : nat :=
  (heap_weight (global_ticks s) (heap s) + queue_weight (timer_queue s))%nat.

(** No record's deadline can pass 2^64 when its period is added at tick
    [gt]. *)
Definition no_wrap (gt : Z) (m : mem) : Prop :=
  ∀ a tm, m !! a = Some tm →
          0 ≤ expiry tm ∧ 0 ≤ period tm ∧ gt + period tm < UINT64_MOD.

(** A queue has a root only when it has a head. *)
Definition rooted (q : priority_queue) : Prop :=
  head q = None → root q = None.

(** The sole periodic timer 1, with deadline [e] and period [p], at tick
    [gt]. *)
Definition sole_periodic (gt e p : Z) : timer_module :=
  {| timer_queue := {| head := Some 1%nat; tail := Some 1%nat;
                       root := Some 1%nat; compare := Some timer_compare |};
     global_ticks := gt;
     heap := <[1%nat := record e p]> ∅;
     fired := [] |}.

(** ** A caller's loops over the queue

    [pq_insert] of each node of a list in order, and [pq_pop] called [k]
    times with the returned pointers collected: the two loops of the README
    example of the queue, without its writes to [parent]. *)
Fixpoint pq_insert_all (pq : option priority_queue) (ns : list nat) (m : mem)
  : outcome (option priority_queue * mem) :=
  match ns with
  | [] => Done (pq, m)
  | n :: ns' =>
      '(_, pq, m) ← pq_insert pq (Some n) m;
      pq_insert_all pq ns' m
  end.

Fixpoint pq_pop_n (k : nat) (pq : option priority_queue) (m : mem)
  : outcome (list (option nat) * option priority_queue * mem) :=
  match k with
  | O => Done ([], pq, m)
  | S k' =>
      '(r, pq, m) ← pq_pop pq m;
      '(rs, pq, m) ← pq_pop_n k' pq m;
      Done (r :: rs, pq, m)
  end.

(** The [prev] field stored at an address, if the address is allocated. *)
Definition prev_at (m : mem) (a : nat) : option (option nat) :=
  (λ t, prev (node t)) <$> (m !! a).

(** Following [prev] from [t] visits exactly [ps], all allocated. *)
Fixpoint back_chain (m : mem) (t : nat) (ps : list nat) : Prop :=
  match ps with
  | [] => is_Some (m !! t)
  | p :: ps' => prev_at m t = Some (Some p) ∧ back_chain m p ps'
  end.

(** Timer [t] is the only member of the queue after it was armed a second
    time while armed: its [prev] field points to itself. *)
Definition rearmed (t : nat) (e p : Z) (s : timer_module) : Prop :=
  head (timer_queue s) = Some t ∧ tail (timer_queue s) = Some t ∧
  root (timer_queue s) = Some t ∧
  compare (timer_queue s) = Some timer_compare ∧
  ∃ tm, heap s !! t = Some tm ∧ next (node tm) = None ∧
        prev (node tm) = Some t ∧
        expiry tm = e ∧ period tm = p ∧ callback tm ≠ None.

(** One-shot timers [t1] (root, deadline [e1]) and [t2] (deadline [e2]) in
    the queue, linked as [pq_insert] left them. *)
Definition late_pair (t1 t2 : nat) (e1 e2 : Z) (s : timer_module) : Prop :=
  head (timer_queue s) = Some t1 ∧ tail (timer_queue s) = Some t2 ∧
  root (timer_queue s) = Some t1 ∧
  compare (timer_queue s) = Some timer_compare ∧
  ∃ tm1 tm2, heap s !! t1 = Some tm1 ∧ heap s !! t2 = Some tm2 ∧
    next (node tm1) = Some t2 ∧ prev (node tm1) = None ∧
    prev (node tm2) = Some t1 ∧
    expiry tm1 = e1 ∧ expiry tm2 = e2 ∧ period tm1 = 0 ∧ period tm2 = 0 ∧
    callback tm1 ≠ None ∧ callback tm2 ≠ None.

(** The same two timers after [pq_reorder] ran [swap_nodes] on them. *)
Definition swapped_pair (t1 t2 : nat) (e1 e2 : Z) (s : timer_module) : Prop :=
  head (timer_queue s) = Some t1 ∧ tail (timer_queue s) = Some t2 ∧
  root (timer_queue s) = Some t1 ∧
  compare (timer_queue s) = Some timer_compare ∧
  ∃ tm1 tm2, heap s !! t1 = Some tm1 ∧ heap s !! t2 = Some tm2 ∧
    next (node tm1) = None ∧ prev (node tm1) = Some t1 ∧
    prev (node tm2) = None ∧
    expiry tm1 = e1 ∧ expiry tm2 = e2 ∧ period tm1 = 0 ∧ period tm2 = 0 ∧
    callback tm1 ≠ None ∧ callback tm2 ≠ None.

(** Timer [t2] is the root with no links while head still points to [t1]
    and tail is null. *)
Definition orphan_root (t1 t2 : nat) (e2 : Z) (s : timer_module) : Prop :=
  head (timer_queue s) = Some t1 ∧ tail (timer_queue s) = None ∧
  root (timer_queue s) = Some t2 ∧
  ∃ tm2, heap s !! t2 = Some tm2 ∧
    next (node tm2) = None ∧ prev (node tm2) = None ∧
    expiry tm2 = e2 ∧ period tm2 = 0 ∧ callback tm2 ≠ None.

(** ** ping_pong_buffer.h

    The two buffers are caller memory; each is modelled by the list of its
    bytes, and an access past its end faults.  [EINVAL] and [EAGAIN] are the
    values of [errno.h]. *)
Module PingPong.

Definition EAGAIN : Z := 11.

Record ping_pong_buffer : Type := PingPongBuffer {
  buffers : list Z * list Z;
  size : Z;
  write_index : Z;
  read_index : Z
}.

(** [ppb->buffers[i]], an array of two pointers. *)
Definition buffer_at (ppb : ping_pong_buffer) (i : Z) : outcome (list Z) :=
  if decide (i = 0) then Done (buffers ppb).1
  else if decide (i = 1) then Done (buffers ppb).2
  else Fault.

Definition set_buffer_at (ppb : ping_pong_buffer) (i : Z) (b : list Z)
  : ping_pong_buffer :=
  {| buffers := if decide (i = 0) then (b, (buffers ppb).2)
                else ((buffers ppb).1, b);
     size := size ppb; write_index := write_index ppb;
     read_index := read_index ppb |}.

(** [for (i = from; i < from + n; i++) dst[i] = src[i];] *)
Fixpoint copy_bytes (n : nat) (from : nat) (src dst : list Z)
  : outcome (list Z) :=
  match n with
  | O => Done dst
  | S n' =>
      match src !! from with
      | None => Fault
      | Some b =>
          if decide (from < length dst)%nat
          then copy_bytes n' (S from) src (<[from := b]> dst)
          else Fault
      end
  end.

Definition ping_pong_buffer_init (buffer1 buffer2 : list Z) (sz : Z)
  : ping_pong_buffer :=
  {| buffers := (buffer1, buffer2); size := sz;
     write_index := 0; read_index := 1 |}.

Definition ping_pong_buffer_write (ppb : ping_pong_buffer) (data : list Z)
  (len : Z) : outcome (Z * ping_pong_buffer) :=
  if decide (len > size ppb) then Done (- EINVAL, ppb)
  else if decide (write_index ppb = read_index ppb) then Done (- EAGAIN, ppb)
  else
    write_buffer ← buffer_at ppb (write_index ppb);
    write_buffer ← copy_bytes (Z.to_nat len) 0 data write_buffer;
    let ppb := set_buffer_at ppb (write_index ppb) write_buffer in
    Done (0, {| buffers := buffers ppb; size := size ppb;
                write_index := Z.lxor (write_index ppb) 1;
                read_index := read_index ppb |}).

Definition ping_pong_buffer_read (ppb : ping_pong_buffer) (data : list Z)
  (len : Z) : outcome (Z * ping_pong_buffer * list Z) :=
  if decide (len > size ppb) then Done (- EINVAL, ppb, data)
  else if decide (write_index ppb ≠ read_index ppb)
       then Done (- EAGAIN, ppb, data)
  else
    read_buffer ← buffer_at ppb (read_index ppb);
    data ← copy_bytes (Z.to_nat len) 0 read_buffer data;
    Done (0, {| buffers := buffers ppb; size := size ppb;
                write_index := write_index ppb;
                read_index := Z.lxor (read_index ppb) 1 |}, data).

(** The indices are those of a buffer that can be written: 0/1 or 1/0, as
    after [ping_pong_buffer_init] or after a successful read. *)
Definition writable (ppb : ping_pong_buffer) : Prop :=
  (write_index ppb = 0 ∧ read_index ppb = 1) ∨
  (write_index ppb = 1 ∧ read_index ppb = 0).

End PingPong.

(** ** intrusive_list.h

    List nodes are caller memory, kept in a finite map from addresses to
    their two link fields.  The list head is passed by value and handed
    back; the source passes a pointer it never tests for [NULL]. *)
Module IntrusiveList.

Record list_node : Type := ListNode {
  prev : option nat;
  next : option nat
}.

Record list_head : Type := ListHead {
  head : option nat;
  tail : option nat
}.

Definition get (m : gmap nat list_node) (a : nat) : outcome list_node :=
  match m !! a with
  | Some nd => Done nd
  | None => Fault
  end.

(** [a->prev = x] and [a->next = x] *)
Definition store_prev (m : gmap nat list_node) (a : nat) (x : option nat)
  : outcome (gmap nat list_node) :=
  nd ← get m a; Done (<[a := {| prev := x; next := next nd |}]> m).

Definition store_next (m : gmap nat list_node) (a : nat) (x : option nat)
  : outcome (gmap nat list_node) :=
  nd ← get m a; Done (<[a := {| prev := prev nd; next := x |}]> m).

Definition list_init : list_head := {| head := None; tail := None |}.

Definition list_append (lst : list_head) (node : nat)
  (m : gmap nat list_node) : outcome (list_head * gmap nat list_node) :=
  m ← store_next m node None;
  m ← store_prev m node (tail lst);
  match tail lst with
  | Some t =>
      m ← store_next m t (Some node);
      Done ({| head := head lst; tail := Some node |}, m)
  | None => Done ({| head := Some node; tail := Some node |}, m)
  end.

Definition list_peek_head (lst : list_head) : option nat := head lst.

Definition list_prepend (lst : list_head) (node : nat)
  (m : gmap nat list_node) : outcome (list_head * gmap nat list_node) :=
  m ← store_prev m node None;
  m ← store_next m node (head lst);
  match head lst with
  | Some h =>
      m ← store_prev m h (Some node);
      Done ({| head := Some node; tail := tail lst |}, m)
  | None => Done ({| head := Some node; tail := Some node |}, m)
  end.

Definition list_is_empty (lst : list_head) : bool :=
  bool_decide (head lst = None).

Definition list_insert_after (node new_node : nat) (m : gmap nat list_node)
  : outcome (gmap nat list_node) :=
  m ← store_prev m new_node (Some node);
  nd ← get m node;
  m ← store_next m new_node (next nd);
  nd ← get m node;
  m ← match next nd with
      | Some nx => store_prev m nx (Some new_node)
      | None => Done m
      end;
  store_next m node (Some new_node).

Definition list_insert_before (node new_node : nat) (m : gmap nat list_node)
  : outcome (gmap nat list_node) :=
  m ← store_next m new_node (Some node);
  nd ← get m node;
  m ← store_prev m new_node (prev nd);
  nd ← get m node;
  m ← match prev nd with
      | Some pv => store_next m pv (Some new_node)
      | None => Done m
      end;
  store_prev m node (Some new_node).

Definition list_remove (node : nat) (m : gmap nat list_node)
  : outcome (gmap nat list_node) :=
  nd ← get m node;
  m ← match prev nd with
      | Some pv => nd ← get m node; store_next m pv (next nd)
      | None => Done m
      end;
  nd ← get m node;
  m ← match next nd with
      | Some nx => nd ← get m node; store_prev m nx (prev nd)
      | None => Done m
      end;
  m ← store_prev m node None;
  store_next m node None.

(** [(node) ? (node)->next : NULL] *)
Definition next_or_null (m : gmap nat list_node) (node : option nat)
  : outcome (option nat) :=
  match node with
  | Some n => nd ← get m n; Done (next nd)
  | None => Done None
  end.

(** The loop of [list_for_each_safe], from the values of [node] and [tmp];
    [body] is the statement the macro is applied to, run on a state [st] of
    its own and the node memory. *)
Fixpoint for_each_safe_loop {St : Type} (fuel : nat)
  (body : nat → St → gmap nat list_node → outcome (St * gmap nat list_node))
  (node tmp : option nat) (st : St) (m : gmap nat list_node)
  : outcome (St * gmap nat list_node) :=
  match fuel with
  | O => OutOfFuel
  | S fuel' =>
      match node with
      | None => Done (st, m)
      | Some n =>
          '(st, m) ← body n st m;
          tmp' ← next_or_null m tmp;
          for_each_safe_loop fuel' body tmp tmp' st m
      end
  end.

Definition list_for_each_safe {St : Type} (fuel : nat)
  (body : nat → St → gmap nat list_node → outcome (St * gmap nat list_node))
  (lst : list_head) (st : St) (m : gmap nat list_node)
  : outcome (St * gmap nat list_node) :=
  tmp ← next_or_null m (head lst);
  for_each_safe_loop fuel body (head lst) tmp st m.

(** A loop body that only records the node it is given. *)
Definition visit (n : nat) (seen : list nat) (m : gmap nat list_node)
  : outcome (list nat * gmap nat list_node) :=
  Done (seen ++ [n], m).

(** A loop body that records the node and unlinks it. *)
Definition visit_and_remove (n : nat) (seen : list nat)
  (m : gmap nat list_node) : outcome (list nat * gmap nat list_node) :=
  m ← list_remove n m; Done (seen ++ [n], m).

(** [list_append] of each node of [ns] in order. *)
Fixpoint list_append_all (lst : list_head) (ns : list nat)
  (m : gmap nat list_node) : outcome (list_head * gmap nat list_node) :=
  match ns with
  | [] => Done (lst, m)
  | n :: ns' =>
      '(lst, m) ← list_append lst n m;
      list_append_all lst ns' m
  end.

(** The nodes [xs] are linked in this order: the node at position [i] has
    the node before it as [prev] and the node after it as [next]. *)
Definition linked (m : gmap nat list_node) (xs : list nat) : Prop :=
  ∀ i x, xs !! i = Some x →
    m !! x = Some {| prev := match i with
                             | O => None
                             | S j => xs !! j
                             end;
                     next := xs !! S i |}.

(** [lst] and [m] hold exactly the nodes [xs], in this order. *)
Definition holds (lst : list_head) (m : gmap nat list_node)
  (xs : list nat) : Prop :=
  head lst = xs !! 0%nat ∧ tail lst = last xs ∧ NoDup xs ∧ linked m xs.

(** [xs] with [new] put at position [i]. *)
Definition insert_at (i : nat) (new : nat) (xs : list nat) : list nat :=
  take i xs ++ new :: drop i xs.

(** Four nodes of caller memory: 1, 2, 3 chained in this order, 4 loose. *)
Definition chain3 : gmap nat list_node :=
  <[1%nat := {| prev := None; next := Some 2%nat |}]>
  (<[2%nat := {| prev := Some 1%nat; next := Some 3%nat |}]>
  (<[3%nat := {| prev := Some 2%nat; next := None |}]>
  (<[4%nat := {| prev := None; next := None |}]> ∅))).

Definition list3 : list_head :=
  {| head := Some 1%nat; tail := Some 3%nat |}.

End IntrusiveList.

(** ** ring_buffer.h

    [uint32_t] values are integers below [2^32] with the wrap-around
    written out; the data buffer is the caller's array, a list of bytes,
    and an access past its end faults. *)
Definition UINT32_MOD : Z := 2 ^ 32.
Definition wrap32 (z : Z) : Z := z mod UINT32_MOD.

Module RingBuffer.

Definition ENOBUFS : Z := 105.
Definition EAGAIN : Z := 11.

Record ring_buffer : Type := RingBuffer {
  buffer : list Z;
  size : Z;
  head : Z;
  tail : Z
}.

(** The [while] loop of [round_down_to_power_of_two]. *)
Fixpoint round_down_loop (fuel : nat) (value : Z) : outcome Z :=
  match fuel with
  | O => OutOfFuel
  | S fuel' =>
      if decide (Z.land value (wrap32 (value - 1)) = 0) then Done value
      else round_down_loop fuel' (Z.land value (wrap32 (value - 1)))
  end.

Definition round_down_to_power_of_two (fuel : nat) (value : Z) : outcome Z :=
  if decide (value = 0) then Done 0 else round_down_loop fuel value.

Definition ring_buffer_init (fuel : nat) (buf : list Z) (sz : Z)
  : outcome ring_buffer :=
  s ← round_down_to_power_of_two fuel sz;
  Done {| buffer := buf; size := s; head := 0; tail := 0 |}.

(** A [uint32_t] returned as [int]. *)
Definition as_int (z : Z) : Z := if decide (z < 2 ^ 31) then z else z - 2 ^ 32.

(** [(i + 1) & (rb->size - 1)] *)
Definition advance (rb : ring_buffer) (i : Z) : Z :=
  Z.land (wrap32 (i + 1)) (wrap32 (size rb - 1)).

Definition ring_buffer_is_full (rb : ring_buffer) : bool :=
  bool_decide (advance rb (head rb) = tail rb).

Definition ring_buffer_is_empty (rb : ring_buffer) : bool :=
  bool_decide (head rb = tail rb).

(** [rb->buffer[rb->head] = byte; rb->head = (rb->head + 1) & ...] *)
Definition store_at_head (rb : ring_buffer) (byte : Z)
  : outcome ring_buffer :=
  if decide (Z.to_nat (head rb) < length (buffer rb))%nat
  then Done {| buffer := <[Z.to_nat (head rb) := byte]> (buffer rb);
               size := size rb;
               head := advance rb (head rb);
               tail := tail rb |}
  else Fault.

Definition ring_buffer_push (rb : ring_buffer) (byte : Z)
  : outcome (Z * ring_buffer) :=
  if ring_buffer_is_full rb then Done (- ENOBUFS, rb)
  else rb ← store_at_head rb byte; Done (0, rb).

(** The third component is the caller's [*byte] after the call. *)
Definition ring_buffer_pop (rb : ring_buffer) (byte : Z)
  : outcome (Z * ring_buffer * Z) :=
  if ring_buffer_is_empty rb then Done (- EAGAIN, rb, byte)
  else
    match buffer rb !! Z.to_nat (tail rb) with
    | Some b =>
        Done (0, {| buffer := buffer rb; size := size rb; head := head rb;
                    tail := advance rb (tail rb) |}, b)
    | None => Fault
    end.

(** The [for] loop of [ring_buffer_copy_from_stream], [n] rounds from
    index [i] on. *)
Fixpoint copy_loop (n : nat) (i : nat) (stream : list Z) (rb : ring_buffer)
  : outcome ring_buffer :=
  match n with
  | O => Done rb
  | S n' =>
      match stream !! i with
      | Some b => rb ← store_at_head rb b; copy_loop n' (S i) stream rb
      | None => Fault
      end
  end.

Definition ring_buffer_copy_from_stream (rb : ring_buffer) (stream : list Z)
  (len : Z) : outcome (Z * ring_buffer) :=
  let free_space :=
    wrap32 (wrap32 (size rb
                    - Z.land (wrap32 (head rb - tail rb))
                             (wrap32 (size rb - 1))) - 1) in
  if decide (len > free_space) then Done (- ENOBUFS, rb)
  else rb ← copy_loop (Z.to_nat len) 0 stream rb; Done (as_int len, rb).

(** [ring_buffer_push] of each byte of [bs], stopping at the first call
    that does not return 0. *)
Fixpoint push_all (rb : ring_buffer) (bs : list Z)
  : outcome (Z * ring_buffer) :=
  match bs with
  | [] => Done (0, rb)
  | b :: bs' =>
      '(ret, rb) ← ring_buffer_push rb b;
      if decide (ret = 0) then push_all rb bs' else Done (ret, rb)
  end.

(** [n] calls of [ring_buffer_pop]; the bytes delivered, first call first,
    stopping at the first call that does not return 0. *)
Fixpoint pop_n (n : nat) (rb : ring_buffer)
  : outcome (list Z * ring_buffer) :=
  match n with
  | O => Done ([], rb)
  | S n' =>
      '(ret, rb, b) ← ring_buffer_pop rb 0;
      if decide (ret = 0) then
        '(bs, rb) ← pop_n n' rb; Done (b :: bs, rb)
      else Done ([], rb)
  end.

(** The ring holds the bytes [xs], oldest first: its size is a power of two
    that the data buffer covers, both indices are below it, and the bytes
    sit from [tail] up to [head], wrapping at [size]. *)
Definition represents (rb : ring_buffer) (xs : list Z) : Prop :=
  (∃ k, 0 ≤ k < 32 ∧ size rb = 2 ^ k)
  ∧ 0 ≤ head rb < size rb
  ∧ 0 ≤ tail rb < size rb
  ∧ size rb ≤ Z.of_nat (length (buffer rb))
  ∧ Z.of_nat (length xs) = (head rb - tail rb) mod size rb
  ∧ ∀ i : nat, (i < length xs)%nat →
      buffer rb !! Z.to_nat ((tail rb + Z.of_nat i) mod size rb) = xs !! i.

(** A ring of size 4 that holds two bytes across the wrap. *)
Definition ring4 : ring_buffer :=
  {| buffer := [8; 0; 0; 7]; size := 4; head := 1; tail := 3 |}.

End RingBuffer.

(** ** fixed_message_queue.h

    The queue stores messages of [slot_size] bytes in the caller's buffer,
    slot [j] at byte offset [j * slot_size]. *)
Module MessageQueue.

Definition ENOBUFS : Z := 105.
Definition EAGAIN : Z := 11.

(** [#define ROUND_DOWN_POWER_OF_TWO(x) ((x) & ~((x) - 1))] *)
Definition ROUND_DOWN_POWER_OF_TWO (x : Z) : Z := Z.land x (Z.lnot (x - 1)).

(** The number of bytes of the array that
    [DECLARE_MESSAGE_QUEUE_BUFFER(slots, message_size)] declares. *)
Definition DECLARE_MESSAGE_QUEUE_BUFFER (slots message_size : Z) : Z :=
  ROUND_DOWN_POWER_OF_TWO slots * message_size.

Record message_queue : Type := MessageQueue {
  buffer : list Z;
  slot_size : Z;
  slot_count : Z;
  head : Z;
  tail : Z
}.

(** The header repeats [round_down_to_power_of_two] of ring_buffer.h word
    for word. *)
Definition round_down_to_power_of_two (fuel : nat) (value : Z) : outcome Z :=
  RingBuffer.round_down_to_power_of_two fuel value.

Definition message_queue_init (fuel : nat) (buf : list Z)
  (ssize scount : Z) : outcome message_queue :=
  c ← round_down_to_power_of_two fuel scount;
  Done {| buffer := buf; slot_size := ssize; slot_count := c;
          head := 0; tail := 0 |}.

(** [(i + 1) & (mq->slot_count - 1)] *)
Definition advance (mq : message_queue) (i : Z) : Z :=
  Z.land (wrap32 (i + 1)) (wrap32 (slot_count mq - 1)).

(** The byte offset [i * mq->slot_size] of slot [i]. *)
Definition slot_offset (mq : message_queue) (i : Z) : nat :=
  Z.to_nat (wrap32 (i * slot_size mq)).

(** [for (i = from; i < from + n; i++) dst[d + i] = src[s + i];], the shape
    of the copy loops of push ([s = 0]) and peek ([d = 0]). *)
Fixpoint copy_range (n : nat) (from : nat) (s d : nat) (src dst : list Z)
  : outcome (list Z) :=
  match n with
  | O => Done dst
  | S n' =>
      match src !! (s + from)%nat with
      | None => Fault
      | Some b =>
          if decide (d + from < length dst)%nat
          then copy_range n' (S from) s d src (<[(d + from)%nat := b]> dst)
          else Fault
      end
  end.

Definition message_queue_push (mq : message_queue) (data : list Z)
  : outcome (Z * message_queue) :=
  if decide (advance mq (head mq) = tail mq) then Done (- ENOBUFS, mq)
  else
    buf ← copy_range (Z.to_nat (slot_size mq)) 0 0
            (slot_offset mq (head mq)) data (buffer mq);
    Done (0, {| buffer := buf; slot_size := slot_size mq;
                slot_count := slot_count mq;
                head := advance mq (head mq); tail := tail mq |}).

(** The second component is the caller's [data] after the call. *)
Definition message_queue_peek (mq : message_queue) (data : list Z)
  : outcome (Z * list Z) :=
  if decide (head mq = tail mq) then Done (- EAGAIN, data)
  else
    data ← copy_range (Z.to_nat (slot_size mq)) 0
             (slot_offset mq (tail mq)) 0 (buffer mq) data;
    Done (0, data).

Definition message_queue_pop (mq : message_queue) (data : list Z)
  : outcome (Z * message_queue * list Z) :=
  '(ret, data) ← message_queue_peek mq data;
  if decide (ret = 0)
  then Done (ret, {| buffer := buffer mq; slot_size := slot_size mq;
                     slot_count := slot_count mq; head := head mq;
                     tail := advance mq (tail mq) |}, data)
  else Done (ret, mq, data).

Definition message_queue_flush (mq : message_queue) : message_queue :=
  {| buffer := buffer mq; slot_size := slot_size mq;
     slot_count := slot_count mq; head := 0; tail := 0 |}.

(** [message_queue_push] of each message of [ms], stopping at the first
    call that does not return 0. *)
Fixpoint push_all (mq : message_queue) (ms : list (list Z))
  : outcome (Z * message_queue) :=
  match ms with
  | [] => Done (0, mq)
  | m :: ms' =>
      '(ret, mq) ← message_queue_push mq m;
      if decide (ret = 0) then push_all mq ms' else Done (ret, mq)
  end.

(** The bytes of slot [j]. *)
Definition slot (mq : message_queue) (j : Z) : list Z :=
  take (Z.to_nat (slot_size mq))
       (drop (Z.to_nat (j * slot_size mq)) (buffer mq)).

(** The queue holds the messages [ms], oldest first: the slot count is a
    power of two, the buffer covers all slots, both indices are below the
    slot count, and the messages sit in the slots from [tail] up to [head],
    wrapping at [slot_count]. *)
Definition represents (mq : message_queue) (ms : list (list Z)) : Prop :=
  (∃ k, 0 ≤ k < 32 ∧ slot_count mq = 2 ^ k)
  ∧ 0 ≤ slot_size mq
  ∧ slot_count mq * slot_size mq ≤ Z.of_nat (length (buffer mq))
  ∧ Z.of_nat (length (buffer mq)) < 2 ^ 32
  ∧ 0 ≤ head mq < slot_count mq
  ∧ 0 ≤ tail mq < slot_count mq
  ∧ Z.of_nat (length ms) = (head mq - tail mq) mod slot_count mq
  ∧ ∀ i : nat, (i < length ms)%nat →
      ms !! i = Some (slot mq ((tail mq + Z.of_nat i) mod slot_count mq)).

(** A queue of four slots of two bytes that holds two messages across the
    wrap. *)
Definition queue4 : message_queue :=
  {| buffer := [3; 4; 0; 0; 0; 0; 1; 2]; slot_size := 2; slot_count := 4;
     head := 1; tail := 3 |}.

End MessageQueue.

(** ** Basic facts about the model *)

Lemma bind_Done {A B} (f : A → outcome B) (a : A) : Done a ≫= f = f a.
Proof. reflexivity. Qed.

Lemma bind_Done_inv {A B} (x : outcome A) (f : A → outcome B) (b : B) :
  x ≫= f = Done b → ∃ a, x = Done a ∧ f a = Done b.
Proof. destruct x as [a| |]; simpl; intros H; try discriminate. eauto. Qed.

Lemma load_Some (m : mem) a t : m !! a = Some t → load m a = Done t.
Proof. unfold load. by intros ->. Qed.

Lemma load_Done_inv (m : mem) a t : load m a = Done t → m !! a = Some t.
Proof. unfold load. destruct (m !! a); congruence. Qed.

Lemma update_Some (m : mem) a f t :
  m !! a = Some t → update m a f = Done (<[a := f t]> m).
Proof. intros H. unfold update. by rewrite (load_Some _ _ _ H). Qed.

Lemma update_node_Some (m : mem) a f t :
  m !! a = Some t →
  update_node m a f = Done (<[a := with_node (f (node t)) t]> m).
Proof. intros H. unfold update_node. by rewrite (update_Some _ _ _ _ H). Qed.

Lemma load_node_Some (m : mem) a t :
  m !! a = Some t → load_node m a = Done (node t).
Proof. intros H. unfold load_node. by rewrite (load_Some _ _ _ H). Qed.

(** ** Rejected calls (C7) *)

(** C7.  [pq_init] with an absent queue or comparator, and [pq_insert] with an
    absent queue or node, return [-EINVAL]; the queue they were given and
    the whole memory of nodes come back as they were. *)
Theorem pq_rejects_absent_arguments
  (pq : option priority_queue) (cmp : option compare_fn) (nd : ptr) (m : mem) :
  (pq = None ∨ cmp = None → pq_init pq cmp = (- EINVAL, pq)) ∧
  (pq = None ∨ nd = None → pq_insert pq nd m = Done (- EINVAL, pq, m)).
Proof.
  split.
  - intros [-> | ->]; [reflexivity|]. by destruct pq.
  - intros [-> | ->]; [reflexivity|]. by destruct pq.
Qed.

Lemma pq_rejects_absent_arguments_witness :
  pq_init None None = (- EINVAL, None) ∧
  pq_insert (Some fresh_queue) None (records2 1 2)
  = Done (- EINVAL, Some fresh_queue, records2 1 2).
Proof.
  split.
  - apply (pq_rejects_absent_arguments None None None ∅). by left.
  - apply (pq_rejects_absent_arguments (Some fresh_queue) None None
             (records2 1 2)). by right.
Defined.

(** ** [pq_pop] (C4, C5) *)

(** C4.  [pq_pop] on an absent or empty queue returns [NULL] and changes
    nothing; when head and tail coincide it returns the root and resets head,
    tail and root; otherwise it returns the root, makes the prior tail the
    new root, moves the tail to the prior tail's predecessor, ends the list
    at that predecessor and clears the links of the new root. *)
Theorem pq_pop_rotation (q : priority_queue) (m : mem) :
  pq_pop None m = Done (None, None, m) ∧
  (head q = None → pq_pop (Some q) m = Done (None, Some q, m)) ∧
  (∀ h, head q = Some h → tail q = Some h →
     pq_pop (Some q) m
     = Done (root q,
             Some {| head := None; tail := None; root := None;
                     compare := compare q |}, m) ∧
     (root q = Some h → (pq_pop (Some q) m ≫= λ r, Done r.1.1) = Done (Some h))) ∧
  (∀ h tl tn, head q = Some h → tail q = Some tl → h ≠ tl →
     m !! tl = Some tn →
     (∀ p, prev (node tn) = Some p → is_Some (m !! p)) →
     ∃ m', pq_pop (Some q) m
           = Done (root q,
                   Some {| head := Some h; tail := prev (node tn);
                           root := Some tl; compare := compare q |}, m') ∧
           m' !! tl = Some (with_node {| next := None; prev := None;
                                         parent := parent (node tn) |} tn) ∧
           (∀ p tp, prev (node tn) = Some p → p ≠ tl → m !! p = Some tp →
              m' !! p = Some (with_node (set_next None (node tp)) tp)) ∧
           (∀ a, a ≠ tl → prev (node tn) ≠ Some a → m' !! a = m !! a)).
Proof.
  split; [reflexivity|]. split.
  { intros H. unfold pq_pop. by rewrite H. }
  split.
  { intros h Hh Ht. assert (E : pq_pop (Some q) m
      = Done (root q, Some {| head := None; tail := None; root := None;
                              compare := compare q |}, m)).
    { unfold pq_pop. rewrite Hh, Ht. by rewrite decide_True. }
    split; [exact E|]. intros Hr. rewrite E. simpl. by rewrite Hr. }
  intros h tl tn Hh Ht Hne Htl Hp.
  unfold pq_pop. rewrite Hh, Ht.
  rewrite decide_False by congruence.
  rewrite (load_node_Some _ _ _ Htl), bind_Done.
  destruct (prev (node tn)) as [p|] eqn:Ep.
  - destruct (Hp p eq_refl) as [tp Htp].
    rewrite (update_node_Some _ _ _ _ Htp), bind_Done.
    destruct (decide (p = tl)) as [->|Hptl].
    + assert (tp = tn) by congruence. subst tp.
      rewrite (load_node_Some _ _ (with_node (set_next None (node tn)) tn))
        by apply lookup_insert_eq.
      rewrite bind_Done.
      erewrite update_node_Some by apply lookup_insert_eq. rewrite bind_Done.
      erewrite update_node_Some by apply lookup_insert_eq. rewrite bind_Done.
      simpl. rewrite Ep. eexists. split; [reflexivity|].
      rewrite !insert_insert_eq. split.
      { rewrite lookup_insert_eq. reflexivity. }
      split.
      { intros p tp [= <-] Hc. done. }
      { intros a Ha _. by rewrite lookup_insert_ne. }
    + rewrite (load_node_Some _ _ tn) by (by rewrite lookup_insert_ne).
      rewrite bind_Done.
      erewrite update_node_Some by (by rewrite lookup_insert_ne).
      rewrite bind_Done.
      erewrite update_node_Some by apply lookup_insert_eq. rewrite bind_Done.
      rewrite Ep. eexists. split; [reflexivity|].
      rewrite !insert_insert_eq. split.
      { rewrite lookup_insert_eq. reflexivity. }
      split.
      { intros p' tp' [= <-] _ Hl. rewrite lookup_insert_ne by done.
        rewrite lookup_insert_eq. congruence. }
      { intros a Ha Hpa. rewrite !lookup_insert_ne; congruence. }
  - rewrite bind_Done.
    rewrite (load_node_Some _ _ _ Htl), bind_Done.
    erewrite update_node_Some by exact Htl. rewrite bind_Done.
    erewrite update_node_Some by apply lookup_insert_eq. rewrite bind_Done.
    rewrite Ep. eexists. split; [reflexivity|].
    rewrite !insert_insert_eq. split.
    { rewrite lookup_insert_eq. reflexivity. }
    split.
    { intros p tp [=]. }
    { intros a Ha _. by rewrite lookup_insert_ne. }
Qed.

Lemma pq_pop_rotation_witness :
  ∃ m', pq_pop (Some queue12) (linked2 1 2)
        = Done (Some 1%nat,
                Some {| head := Some 1%nat; tail := Some 1%nat;
                        root := Some 2%nat; compare := Some timer_compare |},
                m').
Proof.
  destruct (pq_pop_rotation queue12 (linked2 1 2)) as (_ & _ & _ & H).
  destruct (H 1%nat 2%nat
              (with_node {| next := None; prev := Some 1%nat; parent := None |}
                 (record 2 0)))
    as (m' & E & _); [reflexivity | reflexivity | lia | reflexivity | |].
  - intros p [= <-]. by eexists.
  - exists m'. exact E.
Defined.

Lemma two_inserted_linked2 e1 e2 :
  two_inserted (records2 e1 e2) = Done (Some queue12, linked2 e1 e2).
Proof. vm_compute. reflexivity. Qed.

(** C5 at the queue built by [pq_init], [pq_insert(1)], [pq_insert(2)]:
    [pq_pop] returns node 1, and afterwards head and tail both still point to
    node 1. *)
Theorem pq_pop_keeps_popped_node_as_head :
  two_inserted (records2 1 2) ≫= (λ '(pq, m), pq_pop pq m)
  = Done (Some 1%nat,
          Some {| head := Some 1%nat; tail := Some 1%nat; root := Some 2%nat;
                  compare := Some timer_compare |},
          <[1%nat := with_node {| next := None; prev := None; parent := None |}
                       (record 1 0)]>
            (<[2%nat := with_node {| next := None; prev := None;
                                     parent := None |} (record 2 0)]> ∅)).
Proof. vm_compute. reflexivity. Qed.

(** ** [swap_nodes] and [pq_reorder] (C2, C3) *)

Ltac lookup_tac :=
  repeat first [ apply lookup_insert_eq
               | rewrite lookup_insert_ne by done ];
  try eassumption.

Ltac inv_bind H :=
  repeat match type of H with
         | _ ≫= _ = Done _ =>
             let a := fresh "v" in
             let E := fresh "E" in
             apply bind_Done_inv in H as (a & E & H)
         end.

Lemma same_payload_refl (m : mem) : same_payload m m.
Proof. by intros x. Qed.

Lemma same_payload_trans (m1 m2 m3 : mem) :
  same_payload m1 m2 → same_payload m2 m3 → same_payload m1 m3.
Proof. intros H1 H2 x. by rewrite H2, H1. Qed.

Lemma update_inv (m : mem) a f m' :
  update m a f = Done m' → ∃ t, m !! a = Some t ∧ m' = <[a := f t]> m.
Proof.
  unfold update. intros H. inv_bind H. apply load_Done_inv in E.
  exists v. split; [done|]. congruence.
Qed.

Lemma update_node_inv (m : mem) a f m' :
  update_node m a f = Done m' →
  ∃ t, m !! a = Some t ∧ m' = <[a := with_node (f (node t)) t]> m.
Proof. apply update_inv. Qed.

Lemma load_node_inv (m : mem) a nd :
  load_node m a = Done nd → ∃ t, m !! a = Some t ∧ nd = node t.
Proof.
  unfold load_node. intros H. inv_bind H. apply load_Done_inv in E.
  exists v. split; [done|]. congruence.
Qed.

Lemma update_node_payload (m : mem) a f m' :
  update_node m a f = Done m' → same_payload m m'.
Proof.
  intros (t & Ht & ->)%update_node_inv x.
  destruct (decide (a = x)) as [<-|Hne].
  - by rewrite lookup_insert_eq, Ht.
  - by rewrite lookup_insert_ne.
Qed.

Lemma swap_nodes_payload (m : mem) a b m' :
  swap_nodes m a b = Done m' → same_payload m m'.
Proof.
  unfold swap_nodes. intros H. inv_bind H.
  apply update_node_payload in E1, E2.
  assert (same_payload m v2) by eauto using same_payload_trans.
  repeat case_decide; inv_bind H;
    apply update_node_payload in H;
    match goal with
    | E : update_node _ _ _ = Done _ |- _ => apply update_node_payload in E
    end; eauto using same_payload_trans.
Qed.

(** What [swap_nodes] does to memory: the two nodes trade their [next] and
    [prev] fields, nothing else moves. *)
Lemma swap_nodes_links (m : mem) a b ta tb :
  m !! a = Some ta → m !! b = Some tb → a ≠ b →
  ∃ m' ta' tb',
    swap_nodes m a b = Done m' ∧
    m' !! a = Some ta' ∧ m' !! b = Some tb' ∧
    next (node ta') = next (node tb) ∧ prev (node ta') = prev (node tb) ∧
    next (node tb') = next (node ta) ∧ prev (node tb') = prev (node ta) ∧
    payload ta' = payload ta ∧ payload tb' = payload tb ∧
    (∀ x, x ≠ a → x ≠ b → m' !! x = m !! x).
Proof.
  intros Ha Hb Hne. unfold swap_nodes.
  rewrite (load_node_Some _ _ _ Ha), bind_Done.
  rewrite (load_node_Some _ _ _ Hb), bind_Done.
  rewrite (update_node_Some _ _ _ _ Ha), bind_Done.
  erewrite update_node_Some by lookup_tac.
  rewrite bind_Done.
  erewrite (load_node_Some _ a) by lookup_tac.
  rewrite bind_Done.
  erewrite (load_node_Some _ b) by lookup_tac.
  rewrite bind_Done. cbn [node with_node parent].
  repeat case_decide;
    (erewrite update_node_Some by lookup_tac);
    rewrite bind_Done;
    (erewrite update_node_Some by lookup_tac);
    do 3 eexists; (split; [reflexivity|]);
    (split; [lookup_tac|]); (split; [lookup_tac|]);
    repeat split; try reflexivity;
    intros x ??; by rewrite !lookup_insert_ne.
Qed.

(** [largest] is the current node or one of its two list neighbours. *)
Lemma pick_largest_cases cmp (m : mem) current l :
  pick_largest cmp m current = Done l →
  ∃ t, m !! current = Some t ∧
       (l = current ∨ next (node t) = Some l ∨ prev (node t) = Some l).
Proof.
  unfold pick_largest. intros H. inv_bind H.
  apply load_node_inv in E as (t & Ht & ->). exists t. split; [done|].
  assert (v0 = current ∨ next (node t) = Some v0) as Hv0.
  { destruct (next (node t)); [|left; congruence].
    inv_bind E0. case_decide; [right|left]; congruence. }
  destruct (prev (node t)) as [p|]; [|destruct Hv0; [left|right; left]; congruence].
  inv_bind H. case_decide; [right; right; congruence|].
  destruct Hv0; [left|right; left]; congruence.
Qed.

Lemma reorder_loop_unfold fuel cmp current (m : mem) :
  reorder_loop (S fuel) cmp current m
  = (largest ← pick_largest cmp m current;
     if decide (largest = current) then Done m
     else m ← swap_nodes m current largest;
          reorder_loop fuel cmp current m).
Proof. reflexivity. Qed.

Lemma reorder_loop_payload fuel cmp current (m m' : mem) :
  reorder_loop fuel cmp current m = Done m' → same_payload m m'.
Proof.
  revert m. induction fuel as [|fuel IH]; intros m H; [discriminate|].
  rewrite reorder_loop_unfold in H. inv_bind H.
  case_decide.
  - injection H as <-. apply same_payload_refl.
  - inv_bind H. apply swap_nodes_payload in E0. apply IH in H.
    eauto using same_payload_trans.
Qed.

Lemma reorder_loop_settled fuel cmp current (m m' : mem) :
  reorder_loop fuel cmp current m = Done m' →
  pick_largest cmp m' current = Done current.
Proof.
  revert m. induction fuel as [|fuel IH]; intros m H; [discriminate|].
  rewrite reorder_loop_unfold in H. inv_bind H.
  case_decide.
  - injection H as <-. congruence.
  - inv_bind H. eauto.
Qed.

Lemma timer_compare_inv (m : mem) a b c :
  call_compare (Some timer_compare) m a b = Done c →
  ∃ ta tb, m !! a = Some ta ∧ m !! b = Some tb ∧
           (0 < c ↔ expiry ta > expiry tb).
Proof.
  simpl. unfold timer_compare. intros H.
  apply bind_Done_inv in H as (ta & Ha & H).
  apply bind_Done_inv in H as (tb & Hb & H).
  apply load_Done_inv in Ha, Hb. injection H as <-.
  exists ta, tb. repeat split; try done; repeat case_decide; lia.
Qed.

Lemma reorder_loop_root_not_earlier fuel (m m' : mem) r :
  reorder_loop fuel (Some timer_compare) r m = Done m' →
  ∃ tr, m' !! r = Some tr ∧
        ∀ x tx, next (node tr) = Some x ∨ prev (node tr) = Some x →
                m' !! x = Some tx → expiry tx ≤ expiry tr.
Proof.
  intros H%reorder_loop_settled. unfold pick_largest in H.
  apply bind_Done_inv in H as (cur & Hcur & H).
  apply load_node_inv in Hcur as (tr & Hr & ->). exists tr. split; [done|].
  apply bind_Done_inv in H as (l1 & Hl1 & H).
  assert (l1 = r ∧ ∀ x tx, next (node tr) = Some x → m' !! x = Some tx →
                           expiry tx ≤ expiry tr) as [-> Hnext].
  { destruct (next (node tr)) as [n|]; [|split; [congruence|done]].
    apply bind_Done_inv in Hl1 as (c & Hc & Hl1).
    apply timer_compare_inv in Hc as (tn & tr' & Hn & Hr' & Hc).
    assert (tr' = tr) by congruence. subst tr'.
    case_decide as Hpos.
    - exfalso. injection Hl1 as <-. apply Hc in Hpos.
      destruct (prev (node tr)) as [p|]; [|injection H as ->].
      + apply bind_Done_inv in H as (c2 & Hc2 & H).
        apply timer_compare_inv in Hc2 as (tp & tn' & Hp & Hn' & Hc2).
        assert (tn' = tn) by congruence. subst tn'.
        case_decide as Hpos2; injection H as ->.
        * assert (tp = tr) by congruence. subst tp.
          apply Hc2 in Hpos2. lia.
        * assert (tn = tr) by congruence. subst tn. lia.
      + assert (tn = tr) by congruence. subst tn. lia.
    - injection Hl1 as <-. split; [done|].
      intros x tx [= <-] Hx. assert (tx = tn) by congruence. subst tx.
      destruct (decide (expiry tn > expiry tr)) as [Hgt|]; [|lia].
      apply Hc in Hgt. done. }
  intros x tx [Hx|Hx] Hl; [eauto|].
  rewrite Hx in H.
  apply bind_Done_inv in H as (c2 & Hc2 & H).
  apply timer_compare_inv in Hc2 as (tp & tr' & Hp & Hr' & Hc2).
  assert (tp = tx) by congruence. assert (tr' = tr) by congruence. subst.
  case_decide as Hpos.
  - injection H as ->. assert (tx = tr) by congruence. subst. lia.
  - destruct (decide (expiry tx > expiry tr)) as [Hgt|]; [|lia].
    apply Hc2 in Hgt. done.
Qed.

(** C2 on the README example: [timer_module_init], timer 1 armed one-shot
    for 100 ticks, timer 2 armed periodic for 50 ticks.  After the re-balance
    pass of the second [timer_start] the root is timer 1 with deadline 100 and
    its next neighbour is timer 2 with deadline 50; the 200 ticks that follow
    fire timer 1 at tick 100 before timer 2 has fired at all. *)
Theorem readme_root_has_later_deadline :
  readme_setup = Done readme_armed ∧
  root (timer_queue readme_armed) = Some 1%nat ∧
  (λ t, (next (node t), expiry t)) <$> (heap readme_armed !! 1%nat)
  = Some (Some 2%nat, 100) ∧
  expiry <$> (heap readme_armed !! 2%nat) = Some 50 ∧
  fired <$> (match run_ticks 10 200 readme_armed with
             | Done s' => Some s'
             | _ => None
             end)
  = Some [(2%nat, 200); (2%nat, 150); (2%nat, 100); (2%nat, 100);
          (1%nat, 100)].
Proof. repeat split; vm_compute; reflexivity. Qed.

Lemma spin_step_a :
  pick_largest (Some timer_compare) spin_a 1 = Done 2%nat ∧
  swap_nodes spin_a 1 2 = Done spin_b.
Proof. split; vm_compute; reflexivity. Qed.

Lemma spin_step_b :
  pick_largest (Some timer_compare) spin_b 1 = Done 2%nat ∧
  swap_nodes spin_b 1 2 = Done spin_a.
Proof. split; vm_compute; reflexivity. Qed.

Lemma reorder_loop_spins fuel :
  reorder_loop fuel (Some timer_compare) 1 spin_a = OutOfFuel ∧
  reorder_loop fuel (Some timer_compare) 1 spin_b = OutOfFuel.
Proof.
  induction fuel as [|fuel [IHa IHb]]; [done|].
  destruct spin_step_a as [Pa Sa], spin_step_b as [Pb Sb].
  rewrite !reorder_loop_unfold, Pa, Pb, !bind_Done.
  rewrite !decide_False by lia.
  by rewrite Sa, Sb, !bind_Done.
Qed.

Lemma three_inserted_reaches_spin :
  three_inserted (records3 1 10 5)
  = Done (Some {| head := Some 1%nat; tail := Some 3%nat; root := Some 1%nat;
                  compare := Some timer_compare |}, linked3) ∧
  pick_largest (Some timer_compare) linked3 1 = Done 2%nat ∧
  swap_nodes linked3 1 2 = Done spin_start ∧
  pick_largest (Some timer_compare) spin_start 1 = Done 3%nat ∧
  swap_nodes spin_start 1 3 = Done spin_a.
Proof. repeat split; vm_compute; reflexivity. Qed.

Lemma pq_reorder_diverges fuel :
  three_inserted (records3 1 10 5) ≫= (λ '(pq, m), pq_reorder fuel pq m)
  = OutOfFuel.
Proof.
  destruct three_inserted_reaches_spin as (-> & P1 & S1 & P2 & S2).
  rewrite bind_Done. unfold pq_reorder. cbn [head root compare].
  destruct fuel as [|[|fuel]]; [done| |].
  - rewrite reorder_loop_unfold, P1, bind_Done.
    rewrite decide_False by lia. by rewrite S1.
  - rewrite reorder_loop_unfold, P1, bind_Done.
    rewrite decide_False by lia. rewrite S1, bind_Done.
    rewrite reorder_loop_unfold, P2, bind_Done.
    rewrite decide_False by lia. rewrite S2, bind_Done.
    apply reorder_loop_spins.
Qed.

(** C3, a defect of the code.  The pass exchanges the link fields of the
    two nodes, never their payloads, and the exchange corrupts the list.
    On the queue built by [pq_init], [pq_insert(1)], [pq_insert(2)] with
    deadlines 1 and 10, the next neighbour compares greater than the root
    ([compare] returns 1), so the pass runs [swap_nodes] once and returns:
    both deadlines are where they were, node 1 has become its own [prev] and
    node 2 its own [next].  On the queue 1 → 2 → 3 with deadlines 1, 10, 5
    the pass never returns, whatever the fuel. *)
Theorem pq_reorder_trades_links_not_payloads :
  two_inserted (records2 1 10) = Done (Some queue12, linked2 1 10) ∧
  call_compare (Some timer_compare) (linked2 1 10) 2 1 = Done 1 ∧
  pick_largest (Some timer_compare) (linked2 1 10) 1 = Done 2%nat ∧
  (∃ m', pq_reorder 2 (Some queue12) (linked2 1 10) = Done m' ∧
         expiry <$> (m' !! 1%nat) = Some 1 ∧
         expiry <$> (m' !! 2%nat) = Some 10 ∧
         node <$> (linked2 1 10 !! 1%nat) = Some (links (Some 2%nat) None) ∧
         node <$> (m' !! 1%nat) = Some (links None (Some 1%nat)) ∧
         node <$> (linked2 1 10 !! 2%nat) = Some (links None (Some 1%nat)) ∧
         node <$> (m' !! 2%nat) = Some (links (Some 2%nat) None)) ∧
  (∀ fuel,
     three_inserted (records3 1 10 5) ≫= (λ '(pq, m), pq_reorder fuel pq m)
     = OutOfFuel).
Proof.
  split; [vm_compute; reflexivity|]. split; [vm_compute; reflexivity|].
  split; [vm_compute; reflexivity|].
  split; [|apply pq_reorder_diverges].
  eexists. split; [vm_compute; reflexivity|].
  repeat split; vm_compute; reflexivity.
Qed.

(** ** The tick counter (C8) *)

Lemma wrap64_small z : 0 ≤ z < UINT64_MOD → wrap64 z = z.
Proof. apply Z.mod_small. Qed.

Lemma pointee_inv pq q : pointee pq = Done q → pq = Some q.
Proof. destruct pq; simpl; congruence. Qed.

Lemma invoke_callback_inv n s s' :
  invoke_callback n s = Done s' →
  s' = {| timer_queue := timer_queue s; global_ticks := global_ticks s;
          heap := heap s; fired := (n, global_ticks s) :: fired s |}.
Proof.
  unfold invoke_callback. intros H.
  apply bind_Done_inv in H as (tm & _ & H).
  destruct (callback tm); congruence.
Qed.

Lemma expire_global_ticks n s s' :
  expire n s = Done s' → global_ticks s' = global_ticks s.
Proof.
  unfold expire. intros H.
  apply bind_Done_inv in H as ([[r pq] m] & _ & H).
  apply bind_Done_inv in H as (q & _ & H).
  apply bind_Done_inv in H as (s1 & ->%invoke_callback_inv & H).
  apply bind_Done_inv in H as (tm & _ & H). simpl in H.
  case_decide; [by injection H as <-|].
  apply bind_Done_inv in H as (m1 & _ & H).
  apply bind_Done_inv in H as ([[r2 pq2] m2] & _ & H).
  apply bind_Done_inv in H as (q2 & _ & H).
  by injection H as <-.
Qed.

Lemma drain_global_ticks fuel s s' :
  drain fuel s = Done s' → global_ticks s' = global_ticks s.
Proof.
  revert s. induction fuel as [|fuel IH]; intros s H; [discriminate|].
  simpl in H. destruct (root (timer_queue s)) as [n|]; [|congruence].
  apply bind_Done_inv in H as (tm & _ & H).
  case_decide; [|congruence].
  apply bind_Done_inv in H as (s1 & Hs1 & H).
  apply expire_global_ticks in Hs1. apply IH in H. congruence.
Qed.

Lemma timer_increment_tick_global_ticks fuel s s' :
  timer_increment_tick fuel s = Done s' →
  global_ticks s' = wrap64 (global_ticks s + 1).
Proof.
  unfold timer_increment_tick. intros H.
  apply bind_Done_inv in H as (s1 & Hs1 & H).
  apply bind_Done_inv in H as (m & _ & H).
  apply drain_global_ticks in Hs1. injection H as <-. exact Hs1.
Qed.

Lemma wrap64_range z : 0 ≤ wrap64 z < UINT64_MOD.
Proof. apply Z.mod_pos_bound. reflexivity. Qed.

Lemma run_ticks_global_ticks fuel n s s' :
  0 ≤ global_ticks s < UINT64_MOD →
  run_ticks fuel n s = Done s' →
  global_ticks s' = wrap64 (global_ticks s + Z.of_nat n).
Proof.
  revert s. induction n as [|n IH]; intros s Hr H.
  - injection H as <-. by rewrite Z.add_0_r, wrap64_small.
  - simpl in H. apply bind_Done_inv in H as (s1 & Hs1 & H).
    apply timer_increment_tick_global_ticks in Hs1.
    apply IH in H; [|rewrite Hs1; apply wrap64_range].
    rewrite H, Hs1. unfold wrap64.
    rewrite Z.add_mod_idemp_l by done. f_equal. lia.
Qed.

(** ** A single armed timer (C1, C6, C10) *)

Lemma sole_intro t e p cmp gt (h : gmap nat timer) f tm :
  h !! t = Some tm → node tm = links None None → expiry tm = e →
  period tm = p → callback tm ≠ None →
  sole t e p {| timer_queue := {| head := Some t; tail := Some t;
                                  root := Some t; compare := cmp |};
                global_ticks := gt; heap := h; fired := f |}.
Proof. intros. repeat split; try done. exists tm. by repeat split. Qed.

(** Arming a timer on an empty queue makes it the sole member. *)
Lemma timer_start_on_empty fuel t ticks periodic s tm :
  head (timer_queue s) = None →
  heap s !! t = Some tm → callback tm ≠ None →
  ∃ s1, timer_start (S fuel) t ticks periodic s = Done s1 ∧
        sole t (wrap64 (global_ticks s + ticks))
             (if periodic then ticks else 0) s1 ∧
        global_ticks s1 = global_ticks s ∧ fired s1 = fired s.
Proof.
  intros Hh Ht Hcb. destruct s as [[hd tl rt cmp] gt h f]. simpl in *.
  subst hd. unfold timer_start. simpl.
  rewrite (update_Some _ _ _ _ Ht), bind_Done.
  erewrite update_Some by apply lookup_insert_eq. rewrite bind_Done.
  erewrite update_node_Some by apply lookup_insert_eq. rewrite bind_Done.
  cbn -[wrap64]. unfold pick_largest.
  erewrite load_node_Some by apply lookup_insert_eq.
  cbn -[wrap64]. rewrite decide_True by done. cbn -[wrap64].
  eexists. split; [reflexivity|]. split; [|done].
  eapply sole_intro; [apply lookup_insert_eq|done..].
Qed.

(** A tick before the deadline of the sole timer only advances the counter. *)
Lemma tick_idle fuel t e p s :
  sole t e p s → 0 ≤ global_ticks s → global_ticks s + 1 < e →
  global_ticks s + 1 < UINT64_MOD →
  timer_increment_tick (S fuel) s
  = Done {| timer_queue := timer_queue s;
            global_ticks := global_ticks s + 1;
            heap := heap s; fired := fired s |}.
Proof.
  intros (Hh & Htl & Hr & tm & Ht & Hn & He & Hp & Hcb) H0 Hlt HM.
  destruct s as [[hd tl rt cmp] gt h f]. simpl in *. subst hd tl rt.
  unfold timer_increment_tick. cbn -[wrap64].
  rewrite wrap64_small by lia.
  rewrite (load_Some _ _ _ Ht), bind_Done.
  rewrite decide_False by lia. rewrite bind_Done. cbn.
  unfold pick_largest. rewrite (load_node_Some _ _ _ Ht), bind_Done, Hn.
  cbn. by rewrite decide_True.
Qed.

Lemma run_ticks_idle fuel t e p (k : nat) s :
  sole t e p s → 0 ≤ global_ticks s → global_ticks s + Z.of_nat k < e →
  global_ticks s + Z.of_nat k < UINT64_MOD →
  run_ticks (S fuel) k s
  = Done {| timer_queue := timer_queue s;
            global_ticks := global_ticks s + Z.of_nat k;
            heap := heap s; fired := fired s |}.
Proof.
  revert s. induction k as [|k IH]; intros s Hs H0 Hlt HM.
  - simpl. rewrite Z.add_0_r. by destruct s.
  - simpl run_ticks. rewrite (tick_idle fuel t e p) by (done || lia).
    rewrite bind_Done, IH; simpl; try lia.
    + do 2 f_equal. lia.
    + destruct Hs as (? & ? & ? & ?). by repeat split.
Qed.

(** The tick on which a sole one-shot timer is due: it fires and the queue
    is left empty. *)
Lemma tick_fires_one_shot fuel t e s :
  sole t e 0 s → 0 ≤ global_ticks s → e ≤ global_ticks s + 1 →
  global_ticks s + 1 < UINT64_MOD →
  timer_increment_tick (S (S fuel)) s
  = Done {| timer_queue := {| head := None; tail := None; root := None;
                              compare := compare (timer_queue s) |};
            global_ticks := global_ticks s + 1;
            heap := heap s;
            fired := (t, global_ticks s + 1) :: fired s |}.
Proof.
  intros (Hh & Htl & Hr & tm & Ht & Hn & He & Hp & Hcb) H0 Hlt HM.
  destruct s as [[hd tl rt cmp] gt h f]. simpl in *. subst hd tl rt.
  unfold timer_increment_tick. cbn -[wrap64].
  rewrite wrap64_small by lia.
  rewrite (load_Some _ _ _ Ht), bind_Done.
  rewrite decide_True by lia.
  unfold expire. cbn. rewrite decide_True by done. cbn.
  unfold invoke_callback. cbn. rewrite (load_Some _ _ _ Ht), bind_Done.
  destruct (callback tm) as [cb|] eqn:Ecb; [|done]. cbn.
  rewrite (load_Some _ _ _ Ht), bind_Done.
  by rewrite decide_True.
Qed.

(** The tick on which a sole periodic timer is due: it fires and is the sole
    member again, with its deadline moved on by the period. *)
Lemma tick_fires_periodic fuel t e p s :
  sole t e p s → 0 ≤ global_ticks s → e ≤ global_ticks s + 1 →
  global_ticks s + 1 < e + p → e + p < UINT64_MOD →
  ∃ s', timer_increment_tick (S (S fuel)) s = Done s' ∧
        sole t (e + p) p s' ∧
        global_ticks s' = global_ticks s + 1 ∧
        fired s' = (t, global_ticks s + 1) :: fired s.
Proof.
  intros (Hh & Htl & Hr & tm & Ht & Hn & He & Hp & Hcb) H0 Hle Hlt HM.
  destruct s as [[hd tl rt cmp] gt h f]. simpl in *. subst hd tl rt.
  unfold timer_increment_tick. cbn -[wrap64].
  rewrite wrap64_small by lia.
  rewrite (load_Some _ _ _ Ht), bind_Done.
  rewrite decide_True by lia.
  unfold expire. cbn -[wrap64]. rewrite decide_True by done. cbn -[wrap64].
  unfold invoke_callback. cbn -[wrap64].
  rewrite (load_Some _ _ _ Ht), bind_Done.
  destruct (callback tm) as [cb|] eqn:Ecb; [|done]. cbn -[wrap64].
  rewrite (load_Some _ _ _ Ht), bind_Done.
  rewrite decide_False by lia.
  rewrite (update_Some _ _ _ _ Ht), bind_Done.
  erewrite update_node_Some by apply lookup_insert_eq.
  cbn -[wrap64]. rewrite wrap64_small by lia.
  erewrite load_Some by apply lookup_insert_eq. rewrite bind_Done.
  cbn. rewrite decide_False by lia. rewrite bind_Done. cbn.
  unfold pick_largest.
  erewrite load_node_Some by apply lookup_insert_eq.
  cbn. rewrite decide_True by done. cbn.
  eexists. split; [reflexivity|]. split; [|done].
  eapply sole_intro; [apply lookup_insert_eq|try done..].
  - simpl. lia.
  - simpl. congruence.
Qed.

Lemma sole_frame t e p s g f :
  sole t e p s →
  sole t e p {| timer_queue := timer_queue s; global_ticks := g;
                heap := heap s; fired := f |}.
Proof. by intros (? & ? & ? & ?). Qed.

Lemma run_ticks_app fuel a b s :
  run_ticks fuel (a + b) s = run_ticks fuel a s ≫= run_ticks fuel b.
Proof.
  revert s. induction a as [|a IH]; intros s; [done|].
  simpl. destruct (timer_increment_tick fuel s); simpl; auto.
Qed.

(** One full period of a sole periodic timer. *)
Lemma run_one_period fuel t p s :
  sole t (global_ticks s + p) p s → 0 ≤ global_ticks s → 1 ≤ p →
  global_ticks s + 2 * p < UINT64_MOD →
  ∃ s', run_ticks (S (S fuel)) (Z.to_nat p) s = Done s' ∧
        sole t (global_ticks s' + p) p s' ∧
        global_ticks s' = global_ticks s + p ∧
        fired s' = (t, global_ticks s + p) :: fired s.
Proof.
  intros Hs H0 Hp HM.
  replace (Z.to_nat p) with ((Z.to_nat p - 1) + 1)%nat by lia.
  rewrite run_ticks_app.
  rewrite (run_ticks_idle _ t (global_ticks s + p) p) by (done || lia).
  rewrite bind_Done. simpl run_ticks.
  edestruct (tick_fires_periodic fuel t (global_ticks s + p) p)
    as (s' & -> & Hs' & Hg & Hf);
    [apply sole_frame, Hs|simpl; lia..|].
  simpl in Hg, Hf. exists s'. split; [done|].
  replace (global_ticks s') with (global_ticks s + p) by lia.
  split; [exact Hs'|]. split; [done|].
  rewrite Hf. do 2 f_equal. lia.
Qed.

Lemma run_periods fuel t p (N : nat) s :
  sole t (global_ticks s + p) p s → 0 ≤ global_ticks s → 1 ≤ p →
  global_ticks s + (Z.of_nat N + 1) * p < UINT64_MOD →
  ∃ s', run_ticks (S (S fuel)) (N * Z.to_nat p) s = Done s' ∧
        sole t (global_ticks s' + p) p s' ∧
        global_ticks s' = global_ticks s + Z.of_nat N * p ∧
        fired s' = periodic_trace t (global_ticks s) p N ++ fired s.
Proof.
  intros Hs H0 Hp. induction N as [|N IH]; intros HM.
  - exists s. split; [done|]. split; [done|]. split; [lia|done].
  - destruct IH as (s1 & E1 & Hs1 & Hg1 & Hf1); [nia|].
    replace (S N * Z.to_nat p)%nat with (N * Z.to_nat p + Z.to_nat p)%nat
      by lia.
    rewrite run_ticks_app, E1, bind_Done.
    destruct (run_one_period fuel t p s1) as (s2 & E2 & Hs2 & Hg2 & Hf2);
      [done|nia..|].
    exists s2. split; [done|]. split; [done|]. split; [nia|].
    rewrite Hf2, Hf1. cbn [periodic_trace app]. do 2 f_equal. nia.
Qed.

Lemma periodic_trace_length t c p N :
  length (periodic_trace t c p N) = N ∧
  fire_count t (periodic_trace t c p N) = N.
Proof.
  unfold fire_count. induction N as [|N [IH1 IH2]]; [done|].
  simpl. rewrite IH1. split; [done|].
  rewrite filter_cons_True by done. simpl. by rewrite IH2.
Qed.

(** C1, refuted as stated.  Armed with [ticks = 0] on an empty queue, a
    one-shot timer has not fired after the zero calls the claim allows; armed
    for 50 ticks while timer 1 is armed for 100, timer 2 has not fired after
    50 calls; armed for 2^64 - 1 ticks at tick 1, the timer fires on the very
    next call, with the tick counter at 2. *)
Lemma one_shot_not_fired_after_ticks :
  (∃ s s', (s ← timer_module_init boot;
            s ← timer_init 1 (Some 7%nat) 0 s;
            timer_start 10 1 0 false s) = Done s ∧
           run_ticks 10 0 s = Done s' ∧ fire_count 1 (fired s') = 0%nat) ∧
  (∃ s s', (s ← timer_module_init boot;
            s ← timer_init 1 (Some 7%nat) 0 s;
            s ← timer_start 10 1 100 false s;
            s ← timer_init 2 (Some 7%nat) 0 s;
            timer_start 10 2 50 false s) = Done s ∧
           run_ticks 10 50 s = Done s' ∧ fire_count 2 (fired s') = 0%nat) ∧
  (∃ s s', (s ← timer_module_init boot;
            s ← timer_init 1 (Some 7%nat) 0 s;
            s ← timer_increment_tick 10 s;
            timer_start 10 1 (UINT64_MOD - 1) false s) = Done s ∧
           global_ticks s = 1 ∧
           timer_increment_tick 10 s = Done s' ∧
           fired s' = [(1%nat, 2)]).
Proof.
  split; [|split]; do 2 eexists; (split; [vm_compute; reflexivity|]);
    (split; [vm_compute; reflexivity|]); try (vm_compute; reflexivity).
  split; vm_compute; reflexivity.
Qed.

(** C1, amended.  A registered timer armed one-shot for [ticks ≥ 1] ticks on
    an empty queue, with tick counter [C] and [C + ticks < 2^64]: the first
    [ticks - 1] calls of [timer_increment_tick] fire nothing, the call number
    [ticks] fires the timer, once, with the tick counter at [C + ticks]. *)
Theorem one_shot_fires_once_when_sole
  (fuel : nat) (t : nat) (ticks : Z) (s : timer_module) (tm : timer) :
  head (timer_queue s) = None →
  heap s !! t = Some tm → callback tm ≠ None →
  0 ≤ global_ticks s → 1 ≤ ticks → global_ticks s + ticks < UINT64_MOD →
  ∃ s1 s2 s3,
    timer_start (S (S fuel)) t ticks false s = Done s1 ∧
    run_ticks (S (S fuel)) (Z.to_nat ticks - 1) s1 = Done s2 ∧
    fired s2 = fired s ∧
    timer_increment_tick (S (S fuel)) s2 = Done s3 ∧
    run_ticks (S (S fuel)) (Z.to_nat ticks) s1 = Done s3 ∧
    fired s3 = (t, global_ticks s + ticks) :: fired s ∧
    global_ticks s3 = global_ticks s + ticks.
Proof.
  intros Hh Ht Hcb H0 H1 HM.
  destruct (timer_start_on_empty (S fuel) t ticks false s tm)
    as (s1 & E1 & Hs1 & Hg1 & Hf1); [done..|].
  rewrite wrap64_small in Hs1 by lia.
  exists s1. eexists. eexists.
  split; [exact E1|].
  assert (Eidle : run_ticks (S (S fuel)) (Z.to_nat ticks - 1) s1
                  = Done {| timer_queue := timer_queue s1;
                            global_ticks := global_ticks s1
                                            + Z.of_nat (Z.to_nat ticks - 1);
                            heap := heap s1; fired := fired s1 |}).
  { apply (run_ticks_idle _ t (global_ticks s + ticks) 0); [done|lia..]. }
  split; [exact Eidle|]. split; [exact Hf1|].
  assert (Efire := tick_fires_one_shot fuel t (global_ticks s + ticks)
            {| timer_queue := timer_queue s1;
               global_ticks := global_ticks s1 + Z.of_nat (Z.to_nat ticks - 1);
               heap := heap s1; fired := fired s1 |}).
  simpl in Efire. rewrite Efire by (try apply sole_frame; done || lia).
  split; [reflexivity|]. split.
  - replace (Z.to_nat ticks) with ((Z.to_nat ticks - 1) + 1)%nat at 1 by lia.
    rewrite run_ticks_app, Eidle, bind_Done. simpl run_ticks.
    by rewrite Efire by (try apply sole_frame; done || lia).
  - simpl. rewrite Hf1, Hg1. split; [do 2 f_equal|]; lia.
Qed.

Lemma one_shot_fires_once_when_sole_witness :
  ∃ s1 s2 s3,
    timer_start 2 1 3 false registered = Done s1 ∧
    run_ticks 2 (Z.to_nat 3 - 1) s1 = Done s2 ∧
    fired s2 = fired registered ∧
    timer_increment_tick 2 s2 = Done s3 ∧
    run_ticks 2 (Z.to_nat 3) s1 = Done s3 ∧
    fired s3 = (1%nat, global_ticks registered + 3) :: fired registered ∧
    global_ticks s3 = global_ticks registered + 3.
Proof.
  apply (one_shot_fires_once_when_sole 0 1 3 registered (record 0 0)).
  - reflexivity.
  - reflexivity.
  - discriminate.
  - vm_compute. discriminate.
  - lia.
  - vm_compute. reflexivity.
Defined.

(** C6, amended.  A registered timer armed periodic with period [p ≥ 1] on
    an empty queue, with tick counter [C] and [C + (N + 1) * p < 2^64]:
    [N * p] calls of [timer_increment_tick] fire it exactly [N] times, at the
    ticks [C + p], [C + 2p], ..., [C + N p], and fire nothing else. *)
Theorem periodic_fires_N_times_when_sole
  (fuel : nat) (t : nat) (p : Z) (N : nat) (s : timer_module) (tm : timer) :
  head (timer_queue s) = None →
  heap s !! t = Some tm → callback tm ≠ None →
  0 ≤ global_ticks s → 1 ≤ p →
  global_ticks s + (Z.of_nat N + 1) * p < UINT64_MOD →
  ∃ s1 s2,
    timer_start (S (S fuel)) t p true s = Done s1 ∧
    run_ticks (S (S fuel)) (N * Z.to_nat p) s1 = Done s2 ∧
    fired s2 = periodic_trace t (global_ticks s) p N ++ fired s ∧
    length (periodic_trace t (global_ticks s) p N) = N ∧
    fire_count t (periodic_trace t (global_ticks s) p N) = N.
Proof.
  intros Hh Ht Hcb H0 Hp HM.
  destruct (timer_start_on_empty (S fuel) t p true s tm)
    as (s1 & E1 & Hs1 & Hg1 & Hf1); [done..|].
  rewrite wrap64_small in Hs1 by nia. rewrite <- Hg1 in Hs1.
  destruct (run_periods fuel t p N s1) as (s2 & E2 & _ & _ & Hf2);
    [done|lia|done|lia|].
  exists s1, s2. split; [done|]. split; [done|].
  split; [by rewrite Hf2, Hg1, Hf1|].
  apply periodic_trace_length.
Qed.

Lemma periodic_fires_N_times_when_sole_witness :
  ∃ s1 s2,
    timer_start 2 1 5 true registered = Done s1 ∧
    run_ticks 2 (4 * Z.to_nat 5) s1 = Done s2 ∧
    fired s2 = periodic_trace 1 (global_ticks registered) 5 4
               ++ fired registered ∧
    length (periodic_trace 1 (global_ticks registered) 5 4) = 4%nat ∧
    fire_count 1 (periodic_trace 1 (global_ticks registered) 5 4) = 4%nat.
Proof.
  apply (periodic_fires_N_times_when_sole 0 1 5 4 registered (record 0 0)).
  - reflexivity.
  - reflexivity.
  - discriminate.
  - vm_compute. discriminate.
  - lia.
  - vm_compute. reflexivity.
Defined.

(** ** Period zero (C10) *)

Lemma pq_insert_payload pq nd (m : mem) r pq' m' :
  pq_insert pq nd m = Done (r, pq', m') → same_payload m m'.
Proof.
  unfold pq_insert. intros H.
  destruct pq as [q|], nd as [n|];
    try (injection H as <- <- <-; apply same_payload_refl).
  destruct (head q).
  - destruct (tail q) as [tl|]; [|done].
    apply bind_Done_inv in H as (m1 & H1%update_node_payload & H).
    apply bind_Done_inv in H as (m2 & H2%update_node_payload & H).
    apply bind_Done_inv in H as (m3 & H3%update_node_payload & H).
    injection H as <- <- <-. eauto using same_payload_trans.
  - apply bind_Done_inv in H as (m1 & H1%update_node_payload & H).
    by injection H as <- <- <-.
Qed.

Lemma pq_pop_payload pq (m : mem) r pq' m' :
  pq_pop pq m = Done (r, pq', m') → same_payload m m'.
Proof.
  unfold pq_pop. intros H.
  destruct pq as [q|]; [|injection H as <- <- <-; apply same_payload_refl].
  destruct (head q); [|injection H as <- <- <-; apply same_payload_refl].
  case_decide; [injection H as <- <- <-; apply same_payload_refl|].
  destruct (tail q) as [tl|]; [|done].
  apply bind_Done_inv in H as (tn & _ & H).
  apply bind_Done_inv in H as (m1 & H1 & H).
  apply bind_Done_inv in H as (tn' & _ & H).
  apply bind_Done_inv in H as (m2 & H2%update_node_payload & H).
  apply bind_Done_inv in H as (m3 & H3%update_node_payload & H).
  injection H as <- <- <-.
  assert (same_payload m m1).
  { destruct (prev tn); [by apply update_node_payload in H1|].
    injection H1 as <-. apply same_payload_refl. }
  eauto using same_payload_trans.
Qed.

Lemma pq_reorder_payload fuel pq (m m' : mem) :
  pq_reorder fuel pq m = Done m' → same_payload m m'.
Proof.
  unfold pq_reorder. intros H.
  destruct pq as [q|]; [|injection H as <-; apply same_payload_refl].
  destruct (head q); [|injection H as <-; apply same_payload_refl].
  destruct (root q); [|done]. by eapply reorder_loop_payload.
Qed.

Lemma same_payload_period (m m' : mem) x :
  same_payload m m' → period <$> (m' !! x) = period <$> (m !! x).
Proof.
  intros H. specialize (H x).
  destruct (m' !! x), (m !! x); simpl in *; try done.
  injection H as ? ? ? ?. by f_equal.
Qed.

Lemma timer_start_zero_periodic fuel t s s1 :
  timer_start fuel t 0 true s = Done s1 →
  period <$> (heap s1 !! t) = Some 0.
Proof.
  unfold timer_start. intros H.
  apply bind_Done_inv in H as (m1 & (t1 & Ht1 & ->)%update_inv & H).
  apply bind_Done_inv in H as (m2 & (t2 & Ht2 & ->)%update_inv & H).
  apply bind_Done_inv in H as ([[r pq] m3] & H3%pq_insert_payload & H).
  apply bind_Done_inv in H as (m4 & H4%pq_reorder_payload & H).
  apply bind_Done_inv in H as (q & _ & H). injection H as <-. simpl.
  rewrite (same_payload_period _ _ _ H4), (same_payload_period _ _ _ H3).
  by rewrite lookup_insert_eq.
Qed.

Lemma expire_one_shot n s s' tm :
  heap s !! n = Some tm → period tm = 0 → expire n s = Done s' →
  ∃ r, pq_pop (Some (timer_queue s)) (heap s)
       = Done (r, Some (timer_queue s'), heap s') ∧
       fired s' = (n, global_ticks s) :: fired s.
Proof.
  intros Hn Hp. unfold expire. intros H.
  apply bind_Done_inv in H as ([[r pq] m] & Hpop & H).
  apply bind_Done_inv in H as (q & ->%pointee_inv & H).
  apply bind_Done_inv in H as (s1 & ->%invoke_callback_inv & H).
  simpl in H.
  apply bind_Done_inv in H as (tm' & Htm'%load_Done_inv & H).
  pose proof (same_payload_period _ _ n (pq_pop_payload _ _ _ _ _ Hpop)) as E.
  rewrite Hn, Htm' in E. simpl in E.
  rewrite decide_True in H by congruence.
  injection H as <-. simpl. eauto.
Qed.

Lemma run_ticks_on_empty fuel n s :
  head (timer_queue s) = None → root (timer_queue s) = None →
  ∃ s', run_ticks (S fuel) n s = Done s' ∧ fired s' = fired s ∧
        timer_queue s' = timer_queue s.
Proof.
  revert s. induction n as [|n IH]; intros s Hh Hr; [by exists s|].
  simpl run_ticks. unfold timer_increment_tick. cbn -[wrap64].
  rewrite Hr. cbn -[wrap64]. rewrite Hh. cbn -[wrap64].
  edestruct IH as (s' & -> & Hf & Hq); [..|by exists s']; done.
Qed.

(** C10.  [timer_start(t, 0, true)] stores period 0 whatever the state; the
    loop body of [timer_increment_tick], run on a due timer of period 0,
    leaves queue and memory exactly as [pq_pop] left them (no [pq_insert]);
    and, armed on an empty queue, the timer fires on the next tick, the
    queue is empty afterwards and no later tick fires anything. *)
Theorem zero_ticks_periodic_is_one_shot
  (fuel : nat) (t : nat) (s : timer_module) (tm : timer) :
  (∀ s1, timer_start fuel t 0 true s = Done s1 →
         period <$> (heap s1 !! t) = Some 0) ∧
  (∀ s', heap s !! t = Some tm → period tm = 0 → expire t s = Done s' →
         ∃ r, pq_pop (Some (timer_queue s)) (heap s)
              = Done (r, Some (timer_queue s'), heap s') ∧
              fired s' = (t, global_ticks s) :: fired s) ∧
  (head (timer_queue s) = None → heap s !! t = Some tm →
   callback tm ≠ None → 0 ≤ global_ticks s →
   global_ticks s + 1 < UINT64_MOD →
   ∃ s1 s2,
     timer_start (S (S fuel)) t 0 true s = Done s1 ∧
     timer_increment_tick (S (S fuel)) s1 = Done s2 ∧
     fired s2 = (t, global_ticks s + 1) :: fired s ∧
     head (timer_queue s2) = None ∧ tail (timer_queue s2) = None ∧
     root (timer_queue s2) = None ∧
     ∀ n, ∃ s3, run_ticks (S (S fuel)) n s2 = Done s3 ∧
                fired s3 = fired s2).
Proof.
  split; [intros s1; apply timer_start_zero_periodic|].
  split; [intros s'; apply expire_one_shot|].
  intros Hh Ht Hcb H0 HM.
  destruct (timer_start_on_empty (S fuel) t 0 true s tm)
    as (s1 & E1 & Hs1 & Hg1 & Hf1); [done..|].
  rewrite Z.add_0_r, wrap64_small in Hs1 by lia.
  exists s1. eexists. split; [exact E1|].
  rewrite (tick_fires_one_shot fuel t (global_ticks s)) by (done || lia).
  split; [reflexivity|]. simpl. rewrite Hg1, Hf1.
  repeat split; try done.
  intros n.
  edestruct (run_ticks_on_empty (S fuel) n) as (s3 & E3 & Hf3 & _);
    [| |exists s3; split; [exact E3|exact Hf3]]; done.
Qed.

Lemma zero_ticks_periodic_is_one_shot_witness :
  ∃ s1 s2,
    timer_start 2 1 0 true registered = Done s1 ∧
    timer_increment_tick 2 s1 = Done s2 ∧
    fired s2 = (1%nat, global_ticks registered + 1) :: fired registered ∧
    head (timer_queue s2) = None ∧ tail (timer_queue s2) = None ∧
    root (timer_queue s2) = None ∧
    ∀ n, ∃ s3, run_ticks 2 n s2 = Done s3 ∧ fired s3 = fired s2.
Proof.
  apply (zero_ticks_periodic_is_one_shot 0 1 registered (record 0 0)).
  - reflexivity.
  - reflexivity.
  - discriminate.
  - vm_compute. discriminate.
  - vm_compute. reflexivity.
Defined.

(** ** Termination of the loop of [timer_increment_tick] (C9) *)

Lemma heap_weight_insert gt (m : mem) a tm tm' :
  m !! a = Some tm →
  (heap_weight gt (<[a := tm']> m) + weight gt tm
   = heap_weight gt m + weight gt tm')%nat.
Proof.
  intros Ha. unfold heap_weight.
  rewrite (map_fold_delete_L _ _ a tm m); [|intros; lia|done].
  rewrite <- (insert_delete_eq m a tm').
  rewrite (map_fold_insert_L _ _ a tm' (delete a m));
    [lia|intros; lia|apply lookup_delete_eq].
Qed.

Lemma update_weight gt (m : mem) a f m' :
  update m a f = Done m' →
  ∃ tm, m !! a = Some tm ∧
        (heap_weight gt m' + weight gt tm
         = heap_weight gt m + weight gt (f tm))%nat.
Proof.
  intros (tm & Ha & ->)%update_inv. exists tm. split; [done|].
  by apply heap_weight_insert.
Qed.

Lemma update_node_next_weight gt (m : mem) a x m' :
  update_node m a (set_next x) = Done m' →
  heap_weight gt m' = heap_weight gt m.
Proof.
  intros (tm & _ & E)%(update_weight gt).
  unfold weight, due_weight, link_weight in E. simpl in E. lia.
Qed.

Lemma update_node_prev_weight gt (m : mem) a x m' :
  update_node m a (set_prev x) = Done m' →
  ∃ tm, m !! a = Some tm ∧
        (heap_weight gt m' + link_weight tm
         = heap_weight gt m
           + match x with Some _ => 1 | None => 0 end)%nat.
Proof.
  intros (tm & Ha & E)%(update_weight gt). exists tm. split; [done|].
  unfold weight, due_weight, link_weight in *. simpl in E. lia.
Qed.

Lemma no_wrap_same_payload gt (m m' : mem) :
  same_payload m m' → no_wrap gt m → no_wrap gt m'.
Proof.
  intros Hp Hw a tm' Ha. specialize (Hp a). rewrite Ha in Hp.
  destruct (m !! a) as [tm|] eqn:E; [|done].
  injection Hp as He Hpe _ _. rewrite He, Hpe. by eapply Hw.
Qed.

Lemma due_weight_after_period gt tm :
  0 < period tm → expiry tm ≤ gt →
  (due_weight gt (with_expiry (expiry tm + period tm) tm) + 1
   ≤ due_weight gt tm)%nat.
Proof.
  intros Hp Hdue. unfold due_weight. simpl.
  assert (Hk : 0 ≤ (gt - expiry tm) / period tm) by (apply Z.div_pos; lia).
  assert (E : (gt - (expiry tm + period tm)) / period tm
              = (gt - expiry tm) / period tm - 1).
  { replace (gt - (expiry tm + period tm))
      with ((gt - expiry tm) + (-1) * period tm) by lia.
    rewrite Z.div_add by lia. lia. }
  rewrite E. revert Hk. generalize ((gt - expiry tm) / period tm).
  intros k Hk. repeat case_decide; lia.
Qed.

Lemma pq_pop_weight gt q (m : mem) r pq' m' :
  pq_pop (Some q) m = Done (r, pq', m') →
  head q ≠ None → root q ≠ None →
  ∃ q', pq' = Some q' ∧ rooted q' ∧
        (heap_weight gt m' + queue_weight q' + 1
         ≤ heap_weight gt m + queue_weight q)%nat.
Proof.
  unfold pq_pop. intros H Hh Hr.
  destruct (head q) as [h|] eqn:Eh; [clear Hh|done].
  destruct (root q) as [rt|] eqn:Er; [clear Hr|done].
  case_decide as Ht.
  - injection H as <- <- <-. eexists. split; [reflexivity|].
    split; [done|]. unfold queue_weight. rewrite <- Ht, Er. simpl. lia.
  - destruct (tail q) as [tl|] eqn:Etl; [|done].
    apply bind_Done_inv in H as (tn & _ & H).
    apply bind_Done_inv in H as (m1 & H1 & H).
    apply bind_Done_inv in H as (tn' & (ttl & Httl & ->)%load_node_inv & H).
    apply bind_Done_inv in H
      as (m2 & (ttl' & Httl' & E2)%(update_node_prev_weight gt) & H).
    apply bind_Done_inv in H as (m3 & E3%(update_node_next_weight gt) & H).
    injection H as <- <- <-.
    assert (ttl' = ttl) by congruence. subst ttl'.
    assert (E1 : heap_weight gt m1 = heap_weight gt m).
    { destruct (prev tn); [by eapply update_node_next_weight|congruence]. }
    eexists. split; [reflexivity|]. split; [done|].
    unfold queue_weight, link_weight in *. rewrite Etl, Er. simpl.
    destruct (prev (node ttl)); lia.
Qed.

Lemma pq_insert_weight gt q n (m : mem) r pq' m' :
  pq_insert (Some q) (Some n) m = Done (r, pq', m') →
  ∃ q', pq' = Some q' ∧ head q' ≠ None ∧
        (heap_weight gt m' + queue_weight q' ≤ heap_weight gt m + 3)%nat.
Proof.
  unfold pq_insert. intros H. destruct (head q) as [h|] eqn:Eh.
  - destruct (tail q) as [tl|]; [|done].
    apply bind_Done_inv in H as (m1 & E1%(update_node_next_weight gt) & H).
    apply bind_Done_inv in H
      as (m2 & (tn & _ & E2)%(update_node_prev_weight gt) & H).
    apply bind_Done_inv in H as (m3 & E3%(update_node_next_weight gt) & H).
    injection H as <- <- <-. eexists. split; [reflexivity|].
    split; [simpl; congruence|].
    unfold queue_weight. simpl. destruct (root q); lia.
  - apply bind_Done_inv in H as (m1 & (tn & _ & E1)%(update_weight gt) & H).
    injection H as <- <- <-. eexists. split; [reflexivity|].
    split; [done|].
    unfold queue_weight, weight, due_weight, link_weight in *.
    simpl in *. lia.
Qed.

(** One iteration of the loop on a due timer uses up part of the bound. *)
Lemma expire_decreases n s s' tm :
  rooted (timer_queue s) → no_wrap (global_ticks s) (heap s) →
  root (timer_queue s) = Some n → heap s !! n = Some tm →
  expiry tm ≤ global_ticks s →
  expire n s = Done s' →
  rooted (timer_queue s') ∧ no_wrap (global_ticks s') (heap s') ∧
  (drain_bound s' < drain_bound s)%nat ∧
  (period tm ≠ 0 →
   expiry <$> (heap s' !! n) = Some (expiry tm + period tm) ∧
   expiry tm < expiry tm + period tm).
Proof.
  intros Hroot Hwrap Hr Hn Hdue. unfold expire. intros H.
  apply bind_Done_inv in H as ([[r pq] m1] & Hpop & H).
  apply bind_Done_inv in H as (q1 & ->%pointee_inv & H).
  apply bind_Done_inv in H as (s1 & ->%invoke_callback_inv & H).
  cbn [heap timer_queue global_ticks fired] in H.
  apply bind_Done_inv in H as (tm1 & Htm1%load_Done_inv & H).
  pose proof (pq_pop_payload _ _ _ _ _ Hpop) as Hpay.
  assert (Hsame : payload tm1 = payload tm).
  { specialize (Hpay n). rewrite Hn, Htm1 in Hpay. simpl in Hpay. congruence. }
  injection Hsame as He Hp _ _.
  destruct (pq_pop_weight (global_ticks s) _ _ _ _ _ Hpop)
    as (q1' & [= <-] & Hrooted1 & Hw1).
  { intros Hh. apply Hroot in Hh. congruence. }
  { congruence. }
  pose proof (no_wrap_same_payload _ _ _ Hpay Hwrap) as Hwrap1.
  case_decide as Hper.
  - injection H as <-. simpl. split; [done|]. split; [done|].
    split; [unfold drain_bound; simpl; lia|]. intros ?. congruence.
  - destruct (Hwrap1 n tm1 Htm1) as (He0 & Hp0 & HpM).
    rewrite wrap64_small in H by lia.
    apply bind_Done_inv in H as (m2 & Hupd & H).
    pose proof Hupd as (tm1' & Htm1' & ->)%update_inv.
    assert (tm1' = tm1) by congruence. subst tm1'.
    apply (update_weight (global_ticks s)) in Hupd as (tmx & Hx & Hw2).
    assert (tmx = tm1) by congruence. subst tmx.
    apply bind_Done_inv in H as ([[r2 pq2] m3] & Hins & H).
    apply bind_Done_inv in H as (q2 & ->%pointee_inv & H).
    injection H as <-. simpl.
    destruct (pq_insert_weight (global_ticks s) _ _ _ _ _ _ Hins)
      as (q2' & [= <-] & Hh2 & Hw3).
    pose proof (pq_insert_payload _ _ _ _ _ _ Hins) as Hpay3.
    split; [by intros ?|]. split; [|split].
    + eapply no_wrap_same_payload; [exact Hpay3|].
      intros a ta Ha. destruct (decide (a = n)) as [->|Hne].
      * rewrite lookup_insert_eq in Ha. injection Ha as <-. simpl. lia.
      * rewrite lookup_insert_ne in Ha by done. by eapply Hwrap1.
    + assert (due_weight (global_ticks s)
                (with_expiry (expiry tm1 + period tm1) tm1) + 1
              ≤ due_weight (global_ticks s) tm1)%nat
        by (apply due_weight_after_period; lia).
      unfold drain_bound, weight in *. simpl in *.
      unfold link_weight in *. simpl in *. lia.
    + intros _. split; [|lia].
      specialize (Hpay3 n). rewrite lookup_insert_eq in Hpay3.
      destruct (m3 !! n) as [t3|]; [|done]. simpl in *.
      injection Hpay3 as -> _ _ _. f_equal. lia.
Qed.

(** Straight-line code cannot run out of fuel. *)
Lemma bind_not_out_of_fuel {A B} (x : outcome A) (f : A → outcome B) :
  x ≠ OutOfFuel → (∀ a, f a ≠ OutOfFuel) → x ≫= f ≠ OutOfFuel.
Proof. destruct x; simpl; auto. Qed.

Lemma load_not_out_of_fuel (m : mem) a : load m a ≠ OutOfFuel.
Proof. unfold load. by destruct (m !! a). Qed.

Lemma load_node_not_out_of_fuel (m : mem) a : load_node m a ≠ OutOfFuel.
Proof. unfold load_node, load. by destruct (m !! a). Qed.

Lemma update_not_out_of_fuel (m : mem) a f : update m a f ≠ OutOfFuel.
Proof. unfold update, load. by destruct (m !! a). Qed.

Lemma update_node_not_out_of_fuel (m : mem) a f :
  update_node m a f ≠ OutOfFuel.
Proof. apply update_not_out_of_fuel. Qed.

Lemma pointee_not_out_of_fuel pq : pointee pq ≠ OutOfFuel.
Proof. by destruct pq. Qed.

Ltac no_fuel :=
  repeat first
    [ apply load_not_out_of_fuel | apply load_node_not_out_of_fuel
    | apply update_not_out_of_fuel | apply update_node_not_out_of_fuel
    | apply pointee_not_out_of_fuel | done
    | apply bind_not_out_of_fuel; [|intros ?] ].

Lemma pq_pop_not_out_of_fuel pq (m : mem) : pq_pop pq m ≠ OutOfFuel.
Proof.
  unfold pq_pop. destruct pq as [q|]; [|done].
  destruct (head q); [|done]. case_decide; [done|].
  destruct (tail q); [|done]. no_fuel.
  match goal with |- context [prev ?x] => destruct (prev x) end; no_fuel.
Qed.

Lemma pq_insert_not_out_of_fuel pq nd (m : mem) :
  pq_insert pq nd m ≠ OutOfFuel.
Proof.
  unfold pq_insert. destruct pq as [q|], nd as [n|]; try done.
  destruct (head q); [destruct (tail q)|]; no_fuel.
Qed.

Lemma invoke_callback_not_out_of_fuel n s : invoke_callback n s ≠ OutOfFuel.
Proof.
  unfold invoke_callback. no_fuel.
  match goal with |- context [callback ?x] => by destruct (callback x) end.
Qed.

Lemma expire_not_out_of_fuel n s : expire n s ≠ OutOfFuel.
Proof.
  unfold expire.
  apply bind_not_out_of_fuel; [apply pq_pop_not_out_of_fuel|].
  intros [[r pq] m].
  apply bind_not_out_of_fuel; [apply pointee_not_out_of_fuel|intros q].
  apply bind_not_out_of_fuel; [apply invoke_callback_not_out_of_fuel|].
  intros s1.
  apply bind_not_out_of_fuel; [apply load_not_out_of_fuel|intros tm].
  case_decide; [done|].
  apply bind_not_out_of_fuel; [apply update_not_out_of_fuel|intros m2].
  apply bind_not_out_of_fuel; [apply pq_insert_not_out_of_fuel|].
  intros [[r2 pq2] m3].
  apply bind_not_out_of_fuel; [apply pointee_not_out_of_fuel|done].
Qed.

(** The loop stops within [drain_bound] iterations. *)
Lemma drain_within_bound fuel s :
  rooted (timer_queue s) → no_wrap (global_ticks s) (heap s) →
  (drain_bound s < fuel)%nat → drain fuel s ≠ OutOfFuel.
Proof.
  revert s. induction fuel as [|fuel IH]; intros s Hroot Hwrap Hlt; [lia|].
  simpl. destruct (root (timer_queue s)) as [n|] eqn:Er; [|done].
  destruct (load (heap s) n) as [tm| |] eqn:El; [|done|].
  2:{ by apply load_not_out_of_fuel in El. }
  rewrite bind_Done. apply load_Done_inv in El.
  case_decide as Hdue; [|done].
  destruct (expire n s) as [s'| |] eqn:Ex; [|done|].
  2:{ by apply expire_not_out_of_fuel in Ex. }
  rewrite bind_Done.
  destruct (expire_decreases n s s' tm) as (? & ? & ? & _); try done.
  apply IH; try done. lia.
Qed.

(** [rooted] holds after [timer_module_init] and is kept by every function of
    the timer module. *)
Lemma pq_pop_rooted q (m : mem) r pq' m' :
  pq_pop (Some q) m = Done (r, pq', m') → rooted q →
  ∃ q', pq' = Some q' ∧ rooted q'.
Proof.
  unfold pq_pop. intros H Hq. destruct (head q) as [h|] eqn:Eh.
  - case_decide.
    + injection H as <- <- <-. by eexists.
    + destruct (tail q); [|done].
      apply bind_Done_inv in H as (tn & _ & H).
      apply bind_Done_inv in H as (m1 & _ & H).
      apply bind_Done_inv in H as (tn' & _ & H).
      apply bind_Done_inv in H as (m2 & _ & H).
      apply bind_Done_inv in H as (m3 & _ & H).
      injection H as <- <- <-. eexists. split; [done|].
      unfold rooted. simpl. congruence.
  - injection H as <- <- <-. by exists q.
Qed.

Lemma pq_insert_rooted q n (m : mem) r pq' m' :
  pq_insert (Some q) (Some n) m = Done (r, pq', m') →
  ∃ q', pq' = Some q' ∧ rooted q'.
Proof.
  intros (q' & -> & Hh & _)%(pq_insert_weight 0).
  exists q'. split; [done|]. by intros ?.
Qed.

Lemma expire_rooted n s s' :
  rooted (timer_queue s) → expire n s = Done s' → rooted (timer_queue s').
Proof.
  intros Hq. unfold expire. intros H.
  apply bind_Done_inv in H as ([[r pq] m1] & Hpop & H).
  apply pq_pop_rooted in Hpop as (q1 & -> & Hq1); [|done].
  apply bind_Done_inv in H as (q1' & [= <-] & H).
  apply bind_Done_inv in H as (s1 & ->%invoke_callback_inv & H).
  apply bind_Done_inv in H as (tm1 & _ & H). simpl in H.
  case_decide; [by injection H as <-|].
  apply bind_Done_inv in H as (m2 & _ & H).
  apply bind_Done_inv in H as ([[r2 pq2] m3] & Hins & H).
  apply pq_insert_rooted in Hins as (q2 & -> & Hq2).
  apply bind_Done_inv in H as (q2' & [= <-] & H).
  by injection H as <-.
Qed.

Lemma drain_rooted fuel s s' :
  rooted (timer_queue s) → drain fuel s = Done s' → rooted (timer_queue s').
Proof.
  revert s. induction fuel as [|fuel IH]; intros s Hq H; [discriminate|].
  simpl in H. destruct (root (timer_queue s)) as [n|] eqn:Er; [|by injection H as <-].
  apply bind_Done_inv in H as (tm & _ & H).
  case_decide; [|by injection H as <-].
  apply bind_Done_inv in H as (s1 & Hs1 & H).
  eapply IH; [|exact H]. by eapply expire_rooted.
Qed.

Lemma rooted_invariant fuel t ticks periodic cb d s s' :
  (timer_module_init s = Done s' → rooted (timer_queue s')) ∧
  (rooted (timer_queue s) →
   timer_init t cb d s = Done s' ∨ timer_set_period t ticks s = Done s' ∨
   timer_start fuel t ticks periodic s = Done s' ∨
   timer_increment_tick fuel s = Done s' →
   rooted (timer_queue s')).
Proof.
  split.
  - unfold timer_module_init. simpl. by intros [= <-].
  - intros Hq [H|[H|[H|H]]].
    + unfold timer_init in H. apply bind_Done_inv in H as (m & _ & H).
      by injection H as <-.
    + unfold timer_set_period in H. apply bind_Done_inv in H as (m & _ & H).
      by injection H as <-.
    + unfold timer_start in H.
      apply bind_Done_inv in H as (m1 & _ & H).
      apply bind_Done_inv in H as (m2 & _ & H).
      apply bind_Done_inv in H as ([[r pq] m3] & Hins & H).
      apply pq_insert_rooted in Hins as (q' & -> & Hq').
      apply bind_Done_inv in H as (m4 & _ & H).
      apply bind_Done_inv in H as (q'' & [= <-] & H).
      by injection H as <-.
    + unfold timer_increment_tick in H.
      apply bind_Done_inv in H as (s1 & Hs1 & H).
      apply bind_Done_inv in H as (m & _ & H).
      injection H as <-. simpl. by eapply drain_rooted in Hs1.
Qed.

(** The loop body on a sole periodic timer, wrap-around included. *)
Lemma expire_sole_periodic t e p s :
  sole t e p s → p ≠ 0 →
  ∃ s', expire t s = Done s' ∧ sole t (wrap64 (e + p)) p s' ∧
        global_ticks s' = global_ticks s.
Proof.
  intros (Hh & Htl & Hr & tm & Ht & Hn & He & Hp & Hcb) Hp0.
  destruct s as [[hd tl rt cmp] gt h f]. simpl in *. subst hd tl rt.
  unfold expire. cbn -[wrap64]. rewrite decide_True by done. cbn -[wrap64].
  unfold invoke_callback. cbn -[wrap64].
  rewrite (load_Some _ _ _ Ht), bind_Done.
  destruct (callback tm) as [cb|] eqn:Ecb; [|done]. cbn -[wrap64].
  rewrite (load_Some _ _ _ Ht), bind_Done.
  rewrite decide_False by lia.
  rewrite (update_Some _ _ _ _ Ht), bind_Done.
  erewrite update_node_Some by apply lookup_insert_eq.
  cbn -[wrap64].
  eexists. split; [reflexivity|]. split; [|done].
  eapply sole_intro; [apply lookup_insert_eq|try done..].
  - simpl. congruence.
  - simpl. congruence.
Qed.

Lemma drain_spins_at_last_tick fuel t e s :
  sole t e 1 s → global_ticks s = UINT64_MOD - 1 → e ≤ UINT64_MOD - 1 →
  drain fuel s = OutOfFuel.
Proof.
  revert e s. induction fuel as [|fuel IH]; intros e s Hs Hg He; [done|].
  destruct (expire_sole_periodic t e 1 s) as (s' & Ex & Hs' & Hg');
    [done|lia|].
  destruct Hs as (_ & _ & Hr & tm & Ht & _ & Hexp & _).
  simpl. rewrite Hr, (load_Some _ _ _ Ht), bind_Done.
  rewrite decide_True by lia. rewrite Ex, bind_Done.
  apply (IH (wrap64 (e + 1))); [done|congruence|].
  pose proof (wrap64_range (e + 1)). lia.
Qed.

(** The loop body on a due timer of nonzero period puts the timer back:
    what it leaves is what [pq_insert] of the timer gives after [pq_pop] and
    the store of the new deadline. *)
Lemma expire_reinserts n s s' tm :
  no_wrap (global_ticks s) (heap s) →
  heap s !! n = Some tm → expiry tm ≤ global_ticks s → period tm ≠ 0 →
  expire n s = Done s' →
  ∃ r q1 m1 m2,
    pq_pop (Some (timer_queue s)) (heap s) = Done (r, Some q1, m1) ∧
    update m1 n (with_expiry (expiry tm + period tm)) = Done m2 ∧
    pq_insert (Some q1) (Some n) m2
    = Done (0, Some (timer_queue s'), heap s') ∧
    tail (timer_queue s') = Some n ∧
    head (timer_queue s') ≠ None ∧
    fired s' = (n, global_ticks s) :: fired s.
Proof.
  intros Hwrap Hn Hdue Hper. unfold expire. intros H.
  apply bind_Done_inv in H as ([[r pq] m1] & Hpop & H).
  apply bind_Done_inv in H as (q1 & ->%pointee_inv & H).
  apply bind_Done_inv in H as (s1 & ->%invoke_callback_inv & H).
  cbn [heap timer_queue global_ticks fired] in H.
  apply bind_Done_inv in H as (tm1 & Htm1%load_Done_inv & H).
  pose proof (pq_pop_payload _ _ _ _ _ Hpop) as Hpay.
  assert (Hsame : payload tm1 = payload tm).
  { specialize (Hpay n). rewrite Hn, Htm1 in Hpay. simpl in Hpay. congruence. }
  injection Hsame as He Hp _ _.
  rewrite decide_False in H by congruence.
  destruct (Hwrap n tm Hn) as (He0 & Hp0 & HpM).
  rewrite He, Hp in H.
  apply bind_Done_inv in H as (m2 & Hupd & H).
  apply bind_Done_inv in H as ([[r2 pq2] m3] & Hins & H).
  apply bind_Done_inv in H as (q2 & ->%pointee_inv & H).
  injection H as <-. cbn [heap timer_queue global_ticks fired].
  assert (r2 = 0 ∧ tail q2 = Some n ∧ head q2 ≠ None) as (-> & Ht & Hh).
  { unfold pq_insert in Hins. destruct (head q1) as [h|] eqn:Hh1.
    - destruct (tail q1) as [tl|]; [|discriminate].
      apply bind_Done_inv in Hins as (ma & _ & Hins).
      apply bind_Done_inv in Hins as (mb & _ & Hins).
      apply bind_Done_inv in Hins as (mc & _ & Hins).
      by injection Hins as <- <- _.
    - apply bind_Done_inv in Hins as (ma & _ & Hins).
      by injection Hins as <- <- _. }
  exists r, q1, m1, m2. split; [done|]. split.
  { rewrite <- Hupd. f_equal. f_equal. rewrite wrap64_small; [done|].
    unfold UINT64_MOD in *. lia. }
  done.
Qed.

(** C9, refuted as stated.  A periodic timer with deadline 3 and period
    2^64 - 1 that fires at tick 5 is re-inserted with deadline 2, not with a
    larger one; and with the tick counter at 2^64 - 2 and a timer of period 1
    armed, the loop of the next [timer_increment_tick] never ends. *)
Lemma drain_loop_wraps :
  (∃ s', expire 1 (sole_periodic 5 3 (UINT64_MOD - 1)) = Done s' ∧
         expiry <$> (heap s' !! 1%nat) = Some 2 ∧
         root (timer_queue s') = Some 1%nat) ∧
  (∀ fuel,
     timer_increment_tick fuel (sole_periodic (UINT64_MOD - 2) 0 1)
     = OutOfFuel).
Proof.
  split.
  - eexists. split; [vm_compute; reflexivity|]. split; reflexivity.
  - intros fuel. unfold timer_increment_tick.
    rewrite (drain_spins_at_last_tick fuel 1 0); [done| |done|done].
    eapply sole_intro; [apply lookup_insert_eq|done..].
Qed.

(** C9, amended.  In a state whose queue has a root only when it has a head
    (every state reached from [timer_module_init], see [rooted_invariant])
    and in which no record's deadline can pass 2^64 when its period is added
    ([0 ≤ expiry], [0 ≤ period], [global_ticks + period < 2^64] for every
    record), the loop of [timer_increment_tick] ends within [drain_bound]
    iterations, by its exit test or by a fault on a null or dangling
    pointer.  Each iteration on a due timer lowers the bound; for period 0
    it leaves queue and memory as [pq_pop] left them; for a nonzero period
    it stores deadline + period, which is strictly larger, and puts the
    timer back with [pq_insert], as the tail of the queue. *)
Theorem drain_loop_terminates (s : timer_module) :
  rooted (timer_queue s) → no_wrap (global_ticks s) (heap s) →
  (∀ fuel, (drain_bound s < fuel)%nat →
           drain fuel s = Fault ∨ ∃ s', drain fuel s = Done s') ∧
  (∀ n tm s',
     root (timer_queue s) = Some n → heap s !! n = Some tm →
     expiry tm ≤ global_ticks s → expire n s = Done s' →
     (drain_bound s' < drain_bound s)%nat ∧
     rooted (timer_queue s') ∧ no_wrap (global_ticks s') (heap s') ∧
     (period tm = 0 →
      ∃ r, pq_pop (Some (timer_queue s)) (heap s)
           = Done (r, Some (timer_queue s'), heap s')) ∧
     (period tm ≠ 0 →
      expiry <$> (heap s' !! n) = Some (expiry tm + period tm) ∧
      expiry tm < expiry tm + period tm ∧
      tail (timer_queue s') = Some n ∧
      head (timer_queue s') ≠ None ∧
      ∃ r q1 m1 m2,
        pq_pop (Some (timer_queue s)) (heap s) = Done (r, Some q1, m1) ∧
        update m1 n (with_expiry (expiry tm + period tm)) = Done m2 ∧
        pq_insert (Some q1) (Some n) m2
        = Done (0, Some (timer_queue s'), heap s'))).
Proof.
  intros Hroot Hwrap. split.
  - intros fuel Hlt.
    pose proof (drain_within_bound fuel s Hroot Hwrap Hlt) as H.
    destruct (drain fuel s); [right; eauto|by left|done].
  - intros n tm s' Hr Hn Hdue Hex.
    destruct (expire_decreases n s s' tm) as (H1 & H2 & H3 & H4);
      try done.
    split; [exact H3|]. split; [exact H1|]. split; [exact H2|].
    split.
    + intros Hp. destruct (expire_one_shot n s s' tm) as (r & E & _);
        try done. by exists r.
    + intros Hp. destruct (H4 Hp) as [E1 E2].
      destruct (expire_reinserts n s s' tm Hwrap Hn Hdue Hp Hex)
        as (r & q1 & m1 & m2 & P1 & P2 & P3 & Ht & Hh & _).
      split; [done|]. split; [done|]. split; [done|]. split; [done|].
      by exists r, q1, m1, m2.
Qed.

Lemma sole_periodic_no_wrap gt e p :
  0 ≤ e → 0 ≤ p → gt + p < UINT64_MOD →
  no_wrap gt (heap (sole_periodic gt e p)).
Proof.
  intros He Hp HM a tm. simpl. destruct (decide (a = 1%nat)) as [->|Hne].
  - rewrite lookup_insert_eq. intros [= <-]. simpl. lia.
  - rewrite lookup_insert_ne by done. by rewrite lookup_empty.
Qed.

Lemma drain_loop_terminates_witness :
  (drain 11 (sole_periodic 5 3 2) = Fault
   ∨ ∃ s', drain 11 (sole_periodic 5 3 2) = Done s') ∧
  (∃ s', expire 1 (sole_periodic 5 3 2) = Done s' ∧
         (drain_bound s' < drain_bound (sole_periodic 5 3 2))%nat ∧
         expiry <$> (heap s' !! 1%nat) = Some (3 + 2) ∧
         tail (timer_queue s') = Some 1%nat).
Proof.
  destruct (drain_loop_terminates (sole_periodic 5 3 2)) as [A B].
  - intros H. discriminate H.
  - apply sole_periodic_no_wrap; [lia|lia|reflexivity].
  - split; [apply A; vm_compute; lia|].
    eexists. split; [vm_compute; reflexivity|].
    edestruct (B 1%nat (record 3 2)) as (H1 & _ & _ & _ & H5);
      [reflexivity|reflexivity|simpl; lia|vm_compute; reflexivity|].
    destruct H5 as (E1 & _ & Ht & _); [simpl; lia|].
    split; [exact H1|]. split; [exact E1|exact Ht].
Defined.

(** ** A periodic timer whose next deadline wraps (C6) *)

Lemma half_armed_sole : sole 1 (2 ^ 63) (2 ^ 63) half_armed.
Proof. eapply sole_intro; [apply lookup_insert_eq|done..]. Qed.

Lemma half_armed_idle (fuel : nat) :
  run_ticks (S fuel) (Z.to_nat (2 ^ 63) - 1) half_armed = Done half_idle.
Proof.
  remember (Z.to_nat (2 ^ 63)) as k eqn:Hk.
  assert (Z.of_nat (k - 1) = 2 ^ 63 - 1) as Ek by lia.
  clear Hk.
  rewrite (run_ticks_idle fuel 1 (2 ^ 63) (2 ^ 63));
    [|apply half_armed_sole|..];
    cbn [global_ticks half_armed]; rewrite ?Ek; [|lia|lia|unfold UINT64_MOD; lia].
  reflexivity.
Qed.

(** At tick 2^63 a sole timer of period 2^63 is due with deadline 2^63 and,
    after the wrap of its next deadline, with deadline 0, in turn. *)
Lemma drain_spins_half (fuel : nat) (t : nat) :
  ∀ e s, sole t e (2 ^ 63) s → global_ticks s = 2 ^ 63 →
         e = 0 ∨ e = 2 ^ 63 → drain fuel s = OutOfFuel.
Proof.
  induction fuel as [|fuel IH]; intros e s Hs Hg He; [done|].
  destruct (expire_sole_periodic t e (2 ^ 63) s) as (s' & Ex & Hs' & Hg');
    [done|lia|].
  destruct Hs as (_ & _ & Hr & tm & Ht & _ & Hexp & _).
  simpl. rewrite Hr, (load_Some _ _ _ Ht), bind_Done.
  rewrite decide_True by (destruct He; lia). rewrite Ex, bind_Done.
  apply (IH (wrap64 (e + 2 ^ 63))); [done|congruence|].
  destruct He as [->| ->]; [right|left]; reflexivity.
Qed.

Lemma half_armed_never_returns (fuel : nat) :
  run_ticks fuel (1 * Z.to_nat (2 ^ 63)) half_armed = OutOfFuel.
Proof.
  remember (Z.to_nat (2 ^ 63)) as k eqn:Hk.
  replace (1 * k)%nat with ((k - 1) + 1)%nat by lia.
  destruct fuel as [|fuel].
  - replace (k - 1 + 1)%nat with (S (k - 1)) by lia. reflexivity.
  - rewrite run_ticks_app. rewrite Hk, half_armed_idle, bind_Done.
    cbn [run_ticks]. unfold timer_increment_tick.
    rewrite (drain_spins_half (S fuel) 1 (2 ^ 63)); [done| |done|by right].
    apply sole_frame, half_armed_sole.
Qed.

(** C6, refuted as stated.  A periodic timer of period [p = 2^63], armed on
    an empty queue at tick [C = 0]: with [N = 1] the deadline [C + N p] is
    below 2^64 but the next one, [C + (N + 1) p], is 2^64 and wraps to 0.
    The first [p - 1] calls fire nothing; in call number [N p] the timer
    fires, is due again at once, fires again, and so on without end, so the
    [N p] calls do not fire it exactly once.  And in the README example the
    periodic timer 2 (period 50, armed while timer 1 is armed for 100) has
    fired 0 times, not once, after [1 * 50] calls. *)
Lemma periodic_not_fired_N_times :
  ((s ← timer_module_init boot;
    s ← timer_init 1 (Some 7%nat) 0 s;
    timer_start 10 1 (2 ^ 63) true s) = Done half_armed ∧
   global_ticks half_armed + 1 * 2 ^ 63 < 2 ^ 64 ∧
   2 ^ 64 ≤ global_ticks half_armed + (1 + 1) * 2 ^ 63 ∧
   (∀ fuel, run_ticks fuel (1 * Z.to_nat (2 ^ 63)) half_armed = OutOfFuel) ∧
   run_ticks 2 (Z.to_nat (2 ^ 63) - 1) half_armed = Done half_idle ∧
   fired half_idle = [] ∧
   ∃ s3, drain_reaches (ticked half_idle) s3 ∧
         fired s3 = [(1%nat, 2 ^ 63); (1%nat, 2 ^ 63)] ∧
         fire_count 1 (fired s3) = 2%nat) ∧
  (∃ s s', readme_setup = Done s ∧
           run_ticks 10 (1 * 50) s = Done s' ∧
           fire_count 2 (fired s') = 0%nat).
Proof.
  split.
  - split; [vm_compute; reflexivity|]. split; [simpl; lia|].
    split; [simpl; lia|]. split; [apply half_armed_never_returns|].
    split; [apply half_armed_idle|]. split; [reflexivity|].
    eexists. split.
    + eapply drain_reaches_step;
        [vm_compute; reflexivity | vm_compute; reflexivity
        | vm_compute; discriminate | vm_compute; reflexivity |].
      eapply drain_reaches_step;
        [vm_compute; reflexivity | vm_compute; reflexivity
        | vm_compute; discriminate | vm_compute; reflexivity |].
      apply drain_reaches_here.
    + split; vm_compute; reflexivity.
  - do 2 eexists. split; [vm_compute; reflexivity|].
    split; vm_compute; reflexivity.
Qed.

(** ** The tick counter over whole calls (C8) *)

Lemma wrap64_succ (g : Z) :
  0 ≤ g < 2 ^ 64 →
  wrap64 (g + 1) = if decide (g = 2 ^ 64 - 1) then 0 else g + 1.
Proof.
  intros Hg. case_decide as E.
  - subst g. reflexivity.
  - apply wrap64_small. unfold UINT64_MOD. lia.
Qed.

Lemma drain_reaches_global_ticks (s s' : timer_module) :
  drain_reaches s s' → global_ticks s' = global_ticks s.
Proof.
  induction 1 as [|s n tm s1 s2 _ _ _ Hex _ IH]; [done|].
  apply expire_global_ticks in Hex. congruence.
Qed.

Lemma drain_Done_reaches (fuel : nat) :
  ∀ s s', drain fuel s = Done s' → drain_reaches s s'.
Proof.
  induction fuel as [|fuel IH]; intros s s' H; [discriminate|].
  simpl in H. destruct (root (timer_queue s)) as [n|] eqn:Hr.
  - apply bind_Done_inv in H as (tm & Htm & H).
    case_decide as Hdue.
    + apply bind_Done_inv in H as (s1 & Hs1 & H).
      eapply drain_reaches_step; [exact Hr|exact Htm|exact Hdue|exact Hs1|].
      by apply IH.
    + injection H as <-. constructor.
  - injection H as <-. constructor.
Qed.

(** A sole armed timer never keeps a call from returning while its deadlines
    stay below 2^64. *)
Lemma run_ticks_sole_returns (fuel : nat) (t : nat) (p : Z) (n : nat) :
  ∀ e s,
    sole t e p s → 0 ≤ global_ticks s → 0 ≤ p → global_ticks s < e →
    (p ≠ 0 → e ≤ global_ticks s + p) →
    global_ticks s + Z.of_nat n + p < UINT64_MOD →
    ∃ s', run_ticks (S (S fuel)) n s = Done s'.
Proof.
  induction n as [|n IH]; intros e s Hs H0 Hp He Hep HM; [by exists s|].
  destruct (decide (global_ticks s + 1 < e)) as [Hidle|Hdue].
  - simpl run_ticks.
    rewrite (tick_idle (S fuel) t e p) by (done || lia).
    rewrite bind_Done.
    apply (IH e).
    + by apply sole_frame.
    + simpl. lia.
    + done.
    + simpl. lia.
    + simpl. intros Hp0. specialize (Hep Hp0). lia.
    + simpl. lia.
  - destruct (decide (p = 0)) as [->|Hp0].
    + simpl run_ticks.
      rewrite (tick_fires_one_shot fuel t e) by (done || lia).
      rewrite bind_Done.
      edestruct (run_ticks_on_empty (S fuel) n) as (s' & E & _);
        [| |exists s'; exact E]; done.
    + specialize (Hep Hp0).
      destruct (tick_fires_periodic fuel t e p s)
        as (s1 & E1 & Hs1 & Hg1 & _); [done|lia..|].
      simpl run_ticks. rewrite E1, bind_Done.
      apply (IH (e + p)).
      * done.
      * lia.
      * done.
      * lia.
      * intros _. lia.
      * lia.
Qed.

(** C8.  With the tick counter in the range of [uint64_t]:
    - a call of [timer_increment_tick] that returns leaves the counter at
      its old value plus one, and at 0 when the old value was 2^64 - 1;
    - the increment is the first thing a call does: the loop is entered
      with the counter already at that value, and no state the loop goes
      through has another one, whether or not the call ever returns;
    - [n] calls that return leave the counter at the initial value plus
      [n] modulo 2^64, which is the plain sum, and so no less than the
      initial value, as long as the sum stays below 2^64;
    - calls do return with timers armed: after a timer was armed on an empty
      queue for [ticks ≥ 1] ticks, one-shot or periodic, each of the next
      [n] calls returns and the counter has advanced by [n], as long as no
      deadline reaches 2^64. *)
Theorem tick_counter_advances_by_one (fuel : nat) (s : timer_module) :
  0 ≤ global_ticks s < 2 ^ 64 →
  (∀ s', timer_increment_tick fuel s = Done s' →
         global_ticks s'
         = if decide (global_ticks s = 2 ^ 64 - 1) then 0
           else global_ticks s + 1) ∧
  (timer_increment_tick fuel s
   = drain fuel (ticked s) ≫= (λ s1,
       pq_reorder fuel (Some (timer_queue s1)) (heap s1) ≫= (λ m,
         Done {| timer_queue := timer_queue s1;
                 global_ticks := global_ticks s1;
                 heap := m; fired := fired s1 |}))) ∧
  (∀ s1, drain fuel (ticked s) = Done s1 → drain_reaches (ticked s) s1) ∧
  (∀ s1, drain_reaches (ticked s) s1 →
         global_ticks s1
         = if decide (global_ticks s = 2 ^ 64 - 1) then 0
           else global_ticks s + 1) ∧
  (∀ n s', run_ticks fuel n s = Done s' →
           global_ticks s' = (global_ticks s + Z.of_nat n) mod 2 ^ 64 ∧
           (global_ticks s + Z.of_nat n < 2 ^ 64 →
            global_ticks s' = global_ticks s + Z.of_nat n ∧
            global_ticks s ≤ global_ticks s')) ∧
  (∀ (t : nat) (tm : timer) (ticks : Z) (periodic : bool) (n : nat),
     head (timer_queue s) = None →
     heap s !! t = Some tm → callback tm ≠ None → 1 ≤ ticks →
     global_ticks s + Z.of_nat n + ticks < 2 ^ 64 →
     ∃ s1 s',
       timer_start (S (S fuel)) t ticks periodic s = Done s1 ∧
       run_ticks (S (S fuel)) n s1 = Done s' ∧
       global_ticks s' = global_ticks s + Z.of_nat n).
Proof.
  intros Hr.
  assert (0 ≤ global_ticks s < UINT64_MOD) as Hr' by exact Hr.
  split; [|split; [|split; [|split; [|split]]]].
  - intros s' H. apply timer_increment_tick_global_ticks in H.
    by rewrite H, wrap64_succ.
  - reflexivity.
  - intros s1. apply drain_Done_reaches.
  - intros s1 H. apply drain_reaches_global_ticks in H.
    rewrite H. simpl. by apply wrap64_succ.
  - intros n s' H.
    pose proof (run_ticks_global_ticks _ _ _ _ Hr' H) as E.
    split; [exact E|]. intros Hlt.
    rewrite wrap64_small in E by (unfold UINT64_MOD; lia). lia.
  - intros t tm ticks periodic n Hh Ht Hcb Hticks HM.
    destruct (timer_start_on_empty (S fuel) t ticks periodic s tm)
      as (s1 & E1 & Hs1 & Hg1 & _); [done..|].
    rewrite wrap64_small in Hs1 by (unfold UINT64_MOD; lia).
    destruct (run_ticks_sole_returns fuel t
                (if periodic then ticks else 0) n
                (global_ticks s + ticks) s1) as (s' & E');
      [done|lia|by destruct periodic; lia|lia|
       intros Hp0; destruct periodic; [lia|done]|
       unfold UINT64_MOD; destruct periodic; lia|].
    exists s1, s'. split; [done|]. split; [done|].
    assert (0 ≤ global_ticks s1 < UINT64_MOD) as Hr1 by (rewrite Hg1; done).
    pose proof (run_ticks_global_ticks _ _ _ _ Hr1 E') as E.
    rewrite wrap64_small in E by (unfold UINT64_MOD; lia). lia.
Qed.

Lemma tick_counter_advances_by_one_witness :
  (∃ s1 s', timer_start 2 1 3 true registered = Done s1 ∧
            run_ticks 2 7 s1 = Done s' ∧
            global_ticks s' = global_ticks registered + Z.of_nat 7) ∧
  (∃ s', timer_increment_tick 1 last_tick = Done s' ∧ global_ticks s' = 0).
Proof.
  split.
  - apply (proj2 (proj2 (proj2 (proj2 (proj2
             (tick_counter_advances_by_one 0 registered
                ltac:(vm_compute; split; [discriminate|reflexivity]))))))
             1%nat (record 0 0) 3 true 7%nat).
    + reflexivity.
    + reflexivity.
    + discriminate.
    + lia.
    + vm_compute. reflexivity.
  - eexists. split; [vm_compute; reflexivity|].
    apply (proj1 (tick_counter_advances_by_one 1 last_tick
                    ltac:(vm_compute; split; [discriminate|reflexivity]))).
    vm_compute. reflexivity.
Defined.

(** ** Insertion order and removal order of the queue *)

Lemma back_chain_allocated (m : mem) t ps :
  back_chain m t ps → is_Some (m !! t).
Proof.
  destruct ps as [|p ps]; simpl; [done|]. unfold prev_at.
  intros [H _]. destruct (m !! t); [by eexists|done].
Qed.

Lemma back_chain_frame (m m' : mem) t ps :
  (∀ x, x ∈ t :: ps → prev_at m' x = prev_at m x) →
  back_chain m t ps → back_chain m' t ps.
Proof.
  revert t. induction ps as [|p ps IH]; intros t Hsame; simpl.
  - intros Ht. specialize (Hsame t (list_elem_of_here _ _)).
    unfold prev_at in Hsame.
    destruct (m !! t), (m' !! t); try done; by destruct Ht.
  - intros [Ht Hp]. split.
    + by rewrite Hsame by apply list_elem_of_here.
    + apply IH; [|done]. intros x Hx. apply Hsame. by apply list_elem_of_further.
Qed.

Lemma prev_at_insert_ne (m : mem) a x tm :
  a ≠ x → prev_at (<[a := tm]> m) x = prev_at m x.
Proof. intros. unfold prev_at. by rewrite lookup_insert_ne. Qed.

Lemma prev_at_set_next (m : mem) a x tm nx :
  m !! a = Some tm →
  prev_at (<[a := with_node (set_next nx (node tm)) tm]> m) x = prev_at m x.
Proof.
  intros Ha. unfold prev_at. destruct (decide (a = x)) as [<-|Hne].
  - by rewrite lookup_insert_eq, Ha.
  - by rewrite lookup_insert_ne.
Qed.

Lemma same_payload_allocated (m m' : mem) x :
  same_payload m m' → is_Some (m !! x) → is_Some (m' !! x).
Proof.
  intros H [t Ht]. specialize (H x). rewrite Ht in H.
  destruct (m' !! x); [by eexists|done].
Qed.

(** One [pq_insert] at the tail of a chain. *)
Lemma pq_insert_chain q (m : mem) h t ps n :
  head q = Some h → tail q = Some t →
  back_chain m t ps → n ∉ t :: ps → is_Some (m !! n) →
  ∃ m', pq_insert (Some q) (Some n) m
        = Done (0, Some {| head := Some h; tail := Some n; root := root q;
                           compare := compare q |}, m') ∧
        back_chain m' n (t :: ps).
Proof.
  intros Hh Ht Hc Hn [tn Htn].
  destruct (back_chain_allocated _ _ _ Hc) as [tt Htt].
  assert (n ≠ t) by (intros ->; apply Hn, list_elem_of_here).
  unfold pq_insert. rewrite Hh, Ht.
  rewrite (update_node_Some _ _ _ _ Htt), bind_Done.
  erewrite update_node_Some by (rewrite lookup_insert_ne by done; exact Htn).
  rewrite bind_Done.
  erewrite update_node_Some by apply lookup_insert_eq.
  rewrite bind_Done. eexists. split; [reflexivity|].
  rewrite insert_insert_eq. simpl. split.
  - unfold prev_at. by rewrite lookup_insert_eq.
  - eapply back_chain_frame; [|exact Hc].
    intros x Hx. rewrite prev_at_insert_ne by (intros ->; done).
    by apply prev_at_set_next.
Qed.

Lemma pq_insert_all_chain ns : ∀ q (m : mem) h t ps,
  head q = Some h → tail q = Some t → back_chain m t ps →
  NoDup (ns ++ t :: ps) → (∀ n, n ∈ ns → is_Some (m !! n)) →
  ∃ m' t' ps',
    pq_insert_all (Some q) ns m
    = Done (Some {| head := Some h; tail := Some t'; root := root q;
                    compare := compare q |}, m') ∧
    t' :: ps' = reverse ns ++ t :: ps ∧ back_chain m' t' ps'.
Proof.
  induction ns as [|n ns IH]; intros q m h t ps Hh Ht Hc Hnd Hall.
  - exists m, t, ps. simpl. destruct q; simpl in *. by subst.
  - simpl in Hnd. apply NoDup_cons in Hnd as [Hn Hnd].
    destruct (pq_insert_chain q m h t ps n) as (m1 & E1 & Hc1); try done.
    { intros Hin. apply Hn. apply elem_of_app. by right. }
    { apply Hall, list_elem_of_here. }
    cbn [pq_insert_all]. rewrite E1, bind_Done.
    destruct (IH {| head := Some h; tail := Some n; root := root q;
                    compare := compare q |} m1 h n (t :: ps))
      as (m' & t' & ps' & E & Hl & Hc'); try done.
    + apply NoDup_app in Hnd as (Hns & Hdis & Htps).
      apply NoDup_app. split; [done|]. split.
      * intros x Hx [->|Hx']%elem_of_cons.
        -- apply Hn. apply elem_of_app. by left.
        -- by eapply Hdis.
      * apply NoDup_cons. split; [|done].
        intros Hin. apply Hn. apply elem_of_app. by right.
    + intros x Hx. eapply same_payload_allocated.
      * eapply pq_insert_payload, E1.
      * by apply Hall, list_elem_of_further.
    + exists m', t', ps'. split; [exact E|]. split; [|done].
      rewrite Hl, reverse_cons. by rewrite <- app_assoc.
Qed.

(** One [pq_pop] from a chain of at least two nodes. *)
Lemma pq_pop_chain q (m : mem) h t p ps :
  head q = Some h → tail q = Some t → h ≠ t →
  back_chain m t (p :: ps) → NoDup (t :: p :: ps) →
  ∃ m', pq_pop (Some q) m
        = Done (root q, Some {| head := Some h; tail := Some p;
                                root := Some t; compare := compare q |}, m') ∧
        back_chain m' p ps.
Proof.
  intros Hh Ht Hne [Hprev Hc] Hnd.
  apply NoDup_cons in Hnd as [Hnt _].
  assert (p ≠ t) by (intros ->; apply Hnt, list_elem_of_here).
  destruct (back_chain_allocated _ _ _ Hc) as [tp Htp].
  unfold prev_at in Hprev.
  destruct (m !! t) as [tt|] eqn:Htt; [|done]. injection Hprev as Hprev.
  unfold pq_pop. rewrite Hh, Ht. rewrite decide_False by congruence.
  rewrite (load_node_Some _ _ _ Htt), bind_Done, Hprev.
  rewrite (update_node_Some _ _ _ _ Htp), bind_Done.
  erewrite load_node_Some by (rewrite lookup_insert_ne by done; exact Htt).
  rewrite bind_Done.
  erewrite update_node_Some by (rewrite lookup_insert_ne by done; exact Htt).
  rewrite bind_Done.
  erewrite update_node_Some by apply lookup_insert_eq.
  rewrite bind_Done, Hprev. eexists. split; [reflexivity|].
  rewrite insert_insert_eq.
  eapply back_chain_frame; [|exact Hc].
  intros x Hx. rewrite prev_at_insert_ne by (intros ->; done).
  by apply prev_at_set_next.
Qed.

Lemma pq_pop_n_chain ps : ∀ q (m : mem) h t r,
  head q = Some h → tail q = Some t → root q = Some r →
  back_chain m t ps → last (t :: ps) = Some h → NoDup (t :: ps) →
  ∃ m', pq_pop_n (S (length ps)) (Some q) m
        = Done (Some r :: map Some (removelast (t :: ps)),
                Some {| head := None; tail := None; root := None;
                        compare := compare q |}, m').
Proof.
  induction ps as [|p ps IH]; intros q m h t r Hh Ht Hr Hc Hl Hnd.
  - injection Hl as <-. exists m. cbn [length pq_pop_n].
    unfold pq_pop. rewrite Hh, Ht, Hr. by rewrite decide_True.
  - assert (h ≠ t).
    { intros ->. apply NoDup_cons in Hnd as [Hnt _]. apply Hnt.
      change (last (t :: p :: ps)) with (last (p :: ps)) in Hl.
      by apply last_Some_elem_of. }
    destruct (pq_pop_chain q m h t p ps) as (m1 & E1 & Hc1); try done.
    destruct (IH {| head := Some h; tail := Some p; root := Some t;
                    compare := compare q |} m1 h p t)
      as (m' & E); try done.
    { by apply NoDup_cons in Hnd as [_ ?]. }
    exists m'. cbn [length]. change (pq_pop_n (S (S (length ps))))
      with (λ pq m, '(r, pq, m) ← pq_pop pq m;
                    '(rs, pq, m) ← pq_pop_n (S (length ps)) pq m;
                    Done (r :: rs, pq, m)).
    cbv beta. rewrite E1, Hr, bind_Done. cbv beta iota.
    rewrite E, bind_Done. reflexivity.
Qed.

(** [pq_pop] hands back every inserted node exactly once.  After [pq_init],
    inserting the distinct allocated nodes [n0 :: rest] and popping as many
    times returns [n0] first and then the others, last inserted first; the
    queue is empty again. *)
Theorem pq_pops_return_inserted_nodes
  (q : priority_queue) (n0 : nat) (rest : list nat) (m : mem) :
  head q = None → NoDup (n0 :: rest) →
  (∀ x, x ∈ n0 :: rest → is_Some (m !! x)) →
  ∃ m',
    (pq_insert_all (Some q) (n0 :: rest) m
     ≫= λ '(pq, m), pq_pop_n (S (length rest)) pq m)
    = Done (Some n0 :: map Some (reverse rest),
            Some {| head := None; tail := None; root := None;
                    compare := compare q |}, m') ∧
    Some n0 :: map Some (reverse rest) ≡ₚ map Some (n0 :: rest).
Proof.
  intros Hh Hnd Hall.
  destruct (Hall n0 (list_elem_of_here _ _)) as [t0 Ht0].
  cbn [pq_insert_all]. unfold pq_insert at 1. rewrite Hh.
  rewrite (update_node_Some _ _ _ _ Ht0), !bind_Done.
  set (q1 := {| head := Some n0; tail := Some n0; root := Some n0;
                compare := compare q |}).
  set (m1 := <[n0 := _]> m).
  destruct (pq_insert_all_chain rest q1 m1 n0 n0 [])
    as (m2 & t' & ps' & E & Hl & Hc); try done.
  { simpl. unfold m1. rewrite lookup_insert_eq. by eexists. }
  { apply NoDup_cons in Hnd as [Hn0 Hrest].
    apply NoDup_app. split; [done|]. split; [|apply NoDup_singleton].
    intros x Hx ->%list_elem_of_singleton. done. }
  { intros x Hx. unfold m1. destruct (decide (x = n0)) as [->|Hne].
    - rewrite lookup_insert_eq. by eexists.
    - rewrite lookup_insert_ne by done. by apply Hall, list_elem_of_further. }
  rewrite E, bind_Done. cbv beta iota.
  destruct (pq_pop_n_chain ps'
              {| head := Some n0; tail := Some t'; root := root q1;
                 compare := compare q1 |}
              m2 n0 t' n0 eq_refl eq_refl eq_refl Hc)
    as (m' & E').
  { rewrite Hl. apply last_snoc. }
  { rewrite Hl. apply NoDup_cons in Hnd as [Hn0 Hrest].
    apply NoDup_app. split; [by rewrite reverse_Permutation|].
    split; [|apply NoDup_singleton].
    intros x Hx ->%list_elem_of_singleton.
    by rewrite elem_of_reverse in Hx. }
  exists m'.
  assert (Hlen : length ps' = length rest).
  { apply (f_equal length) in Hl. rewrite length_app, length_reverse in Hl.
    simpl in Hl. lia. }
  rewrite <- Hlen, E', Hl. split.
  - by rewrite removelast_last.
  - simpl. constructor. by rewrite reverse_Permutation.
Qed.

Lemma pq_pops_return_inserted_nodes_witness :
  ∃ m',
    (pq_insert_all (Some fresh_queue) [1; 2; 3]%nat (records3 1 10 5)
     ≫= λ '(pq, m), pq_pop_n 3 pq m)
    = Done ([Some 1; Some 3; Some 2]%nat,
            Some {| head := None; tail := None; root := None;
                    compare := Some timer_compare |}, m').
Proof.
  destruct (pq_pops_return_inserted_nodes fresh_queue 1 [2; 3]%nat
              (records3 1 10 5)) as (m' & E & _).
  - reflexivity.
  - by apply (bool_decide_unpack _).
  - intros x Hx. repeat (apply elem_of_cons in Hx as [->|Hx]);
      [by eexists..|by apply elem_of_nil in Hx].
  - exists m'. exact E.
Defined.

(** ** What [pq_insert], [pq_init] and [timer_compare] leave in place *)

(** A successful [pq_insert] returns 0 and keeps the comparator.  Only an
    insertion into an empty queue sets the root: after it [pq_peek] returns
    the inserted node; any other insertion leaves the result of [pq_peek] as
    it was.  Records other than the node and the old tail are untouched, and
    no payload changes. *)
Theorem pq_insert_keeps_root
  (q : priority_queue) (n : nat) (m m' : mem) (r : Z)
  (pq' : option priority_queue) :
  pq_insert (Some q) (Some n) m = Done (r, pq', m') →
  r = 0 ∧
  pq_peek pq' = match head q with
                | None => Some n
                | Some _ => pq_peek (Some q)
                end ∧
  compare <$> pq' = Some (compare q) ∧
  same_payload m m' ∧
  (∀ x, x ≠ n → tail q ≠ Some x → m' !! x = m !! x).
Proof.
  intros H. pose proof (pq_insert_payload _ _ _ _ _ _ H) as Hpay.
  unfold pq_insert in H. destruct (head q) as [h|].
  - destruct (tail q) as [tl|]; [|done].
    apply bind_Done_inv in H as (m1 & (t1 & _ & ->)%update_node_inv & H).
    apply bind_Done_inv in H as (m2 & (t2 & _ & ->)%update_node_inv & H).
    apply bind_Done_inv in H as (m3 & (t3 & _ & ->)%update_node_inv & H).
    injection H as <- <- <-. repeat split; try done.
    intros x Hx Ht. rewrite !lookup_insert_ne; congruence.
  - apply bind_Done_inv in H as (m1 & (t1 & _ & ->)%update_node_inv & H).
    injection H as <- <- <-. repeat split; try done.
    intros x Hx _. by rewrite lookup_insert_ne.
Qed.

Lemma pq_insert_keeps_root_witness :
  pq_peek (Some {| head := Some 1%nat; tail := Some 3%nat;
                   root := Some 1%nat; compare := Some timer_compare |})
  = pq_peek (Some queue12).
Proof.
  destruct (pq_insert_keeps_root queue12 3 (linked3_as (links (Some 2%nat) None)
              (links None (Some 1%nat)) (links None None))
              linked3 0
              (Some {| head := Some 1%nat; tail := Some 3%nat;
                       root := Some 1%nat; compare := Some timer_compare |}))
    as (_ & E & _); [vm_compute; reflexivity|exact E].
Defined.

(** [pq_init] with a queue and a comparator returns 0 and leaves an empty
    queue holding the comparator, whatever the queue held before.  On that
    queue [pq_peek] and [pq_pop] return [NULL], [pq_pop] and [pq_reorder]
    change nothing, and [pq_reorder] returns without calling the
    comparator, however little fuel it has. *)
Theorem pq_init_gives_empty_queue
  (q : priority_queue) (c : compare_fn) (m : mem) (fuel : nat) :
  ∃ q', pq_init (Some q) (Some c) = (0, Some q') ∧
        compare q' = Some c ∧
        pq_peek (Some q') = None ∧
        pq_pop (Some q') m = Done (None, Some q', m) ∧
        pq_reorder fuel (Some q') m = Done m.
Proof. eexists. repeat split. Qed.

(** [timer_compare] is a three-way comparison of the deadlines: on two
    allocated timers it returns -1, 0 or 1 with the sign of the order of the
    two deadlines, computed without subtracting them, and exchanging the
    arguments negates the result.  On an unallocated timer it faults. *)
Theorem timer_compare_three_way (m : mem) (a b : nat) :
  (∀ ta tb, m !! a = Some ta → m !! b = Some tb →
     ∃ c, timer_compare m a b = Done c ∧
          timer_compare m b a = Done (- c) ∧
          (expiry ta < expiry tb → c = -1) ∧
          (expiry ta = expiry tb → c = 0) ∧
          (expiry ta > expiry tb → c = 1)) ∧
  (m !! a = None ∨ m !! b = None → timer_compare m a b = Fault).
Proof.
  split.
  - intros ta tb Ha Hb. unfold timer_compare.
    rewrite (load_Some _ _ _ Ha), (load_Some _ _ _ Hb), !bind_Done.
    eexists. split; [reflexivity|].
    split; [f_equal; repeat case_decide; lia|].
    repeat split; intros; repeat case_decide; lia.
  - unfold timer_compare, load. intros [-> | Hb]; [done|].
    destruct (m !! a); [|done]. by rewrite Hb.
Qed.

Lemma timer_compare_three_way_witness :
  ∃ c, timer_compare (records2 7 9) 1%nat 2%nat = Done c ∧
       timer_compare (records2 7 9) 2%nat 1%nat = Done (- c) ∧ c = -1.
Proof.
  destruct (proj1 (timer_compare_three_way (records2 7 9) 1%nat 2%nat)
              (record 7 0) (record 9 0) eq_refl eq_refl)
    as (c & E1 & E2 & Hlt & _).
  exists c. split; [exact E1|]. split; [exact E2|]. apply Hlt. reflexivity.
Defined.

Lemma pick_largest_settled (m : mem) r tr :
  m !! r = Some tr →
  (∀ x, next (node tr) = Some x ∨ prev (node tr) = Some x →
        ∃ tx, m !! x = Some tx ∧ expiry tx ≤ expiry tr) →
  pick_largest (Some timer_compare) m r = Done r.
Proof.
  intros Hr Hnb. unfold pick_largest.
  rewrite (load_node_Some _ _ _ Hr), bind_Done.
  assert (∀ x, next (node tr) = Some x ∨ prev (node tr) = Some x →
               ∃ c, call_compare (Some timer_compare) m x r = Done c
                    ∧ ¬ 0 < c) as Hcmp.
  { intros x Hx. destruct (Hnb x Hx) as (tx & Htx & Hle).
    eexists. split.
    - simpl. unfold timer_compare.
      rewrite (load_Some _ _ _ Htx), bind_Done.
      rewrite (load_Some _ _ _ Hr), bind_Done. reflexivity.
    - repeat case_decide; lia. }
  destruct (next (node tr)) as [n|] eqn:En.
  - destruct (Hcmp n) as (c & -> & Hc); [by left|].
    rewrite bind_Done, decide_False, bind_Done by done.
    destruct (prev (node tr)) as [p|] eqn:Ep; [|done].
    destruct (Hcmp p) as (c' & -> & Hc'); [by right|].
    by rewrite bind_Done, decide_False.
  - rewrite bind_Done.
    destruct (prev (node tr)) as [p|] eqn:Ep; [|done].
    destruct (Hcmp p) as (c' & -> & Hc'); [by right|].
    by rewrite bind_Done, decide_False.
Qed.

(** On a non-empty queue ordered by [timer_compare]: whenever [pq_reorder]
    returns, the node [pq->root] has, in the memory the pass leaves, no
    [next] or [prev] neighbour with a later deadline than its own; and when
    the root has no such neighbour to begin with, the pass returns at once
    and changes nothing.  The pass moves neither payloads nor [pq->root], so
    the root's deadline is the one it had before the pass. *)
Theorem pq_reorder_root_is_latest
  (fuel : nat) (q : priority_queue) (m : mem) (r : nat) :
  compare q = Some timer_compare → head q ≠ None → root q = Some r →
  (∀ m', pq_reorder fuel (Some q) m = Done m' →
     ∃ tr, m' !! r = Some tr ∧
           expiry <$> (m !! r) = Some (expiry tr) ∧
           ∀ x tx, next (node tr) = Some x ∨ prev (node tr) = Some x →
                   m' !! x = Some tx → expiry tx ≤ expiry tr) ∧
  (∀ tr, m !! r = Some tr →
     (∀ x, next (node tr) = Some x ∨ prev (node tr) = Some x →
           ∃ tx, m !! x = Some tx ∧ expiry tx ≤ expiry tr) →
     pq_reorder (S fuel) (Some q) m = Done m).
Proof.
  intros Hc Hh Hr. unfold pq_reorder. rewrite Hr, Hc.
  destruct (head q); [|done]. split.
  - intros m' H.
    pose proof (reorder_loop_payload _ _ _ _ _ H r) as Hpay.
    apply reorder_loop_root_not_earlier in H as (tr & Htr & Hnb).
    exists tr. split; [done|]. split; [|done].
    rewrite Htr in Hpay. destruct (m !! r) as [t0|]; [|done].
    simpl in *. by injection Hpay as -> _ _ _.
  - intros tr Htr Hnb. rewrite reorder_loop_unfold.
    rewrite (pick_largest_settled m r tr Htr Hnb), bind_Done.
    by rewrite decide_True.
Qed.

Lemma pq_reorder_root_is_latest_witness :
  (∃ tr, linked2 100 50 !! 1%nat = Some tr ∧
         expiry <$> (linked2 100 50 !! 1%nat) = Some (expiry tr) ∧
         ∀ x tx, next (node tr) = Some x ∨ prev (node tr) = Some x →
                 linked2 100 50 !! x = Some tx → expiry tx ≤ expiry tr) ∧
  pq_reorder 2 (Some queue12) (linked2 100 50) = Done (linked2 100 50).
Proof.
  destruct (pq_reorder_root_is_latest 1 queue12 (linked2 100 50) 1)
    as [A B]; [reflexivity|discriminate|reflexivity|].
  split.
  - apply A. vm_compute. reflexivity.
  - eapply B; [reflexivity|].
    intros x [Hx|Hx]; [|discriminate Hx].
    injection Hx as <-. eexists. split; [reflexivity|]. simpl. lia.
Defined.

(** ** [swap_nodes] applied twice *)

Lemma swap_nodes_no_self_parent (m : mem) a b ta tb :
  m !! a = Some ta → m !! b = Some tb → a ≠ b →
  parent (node ta) ≠ Some a → parent (node tb) ≠ Some b →
  ∃ m1, swap_nodes m a b = Done m1 ∧
        m1 !! a = Some (with_node {| next := next (node tb);
                                     prev := prev (node tb);
                                     parent := parent (node ta) |} ta) ∧
        m1 !! b = Some (with_node {| next := next (node ta);
                                     prev := prev (node ta);
                                     parent := parent (node tb) |} tb) ∧
        (∀ x, x ≠ a → x ≠ b → m1 !! x = m !! x).
Proof.
  intros Ha Hb Hne Hpa Hpb. unfold swap_nodes.
  rewrite (load_node_Some _ _ _ Ha), bind_Done.
  rewrite (load_node_Some _ _ _ Hb), bind_Done.
  rewrite (update_node_Some _ _ _ _ Ha), bind_Done.
  erewrite update_node_Some by lookup_tac.
  rewrite bind_Done.
  erewrite (load_node_Some _ a) by lookup_tac.
  rewrite bind_Done.
  erewrite (load_node_Some _ b) by lookup_tac.
  rewrite bind_Done. cbn [node with_node parent].
  rewrite decide_False by done. rewrite decide_False by done.
  erewrite update_node_Some by lookup_tac.
  rewrite bind_Done.
  erewrite update_node_Some by lookup_tac.
  eexists. split; [reflexivity|].
  split; [lookup_tac; reflexivity|]. split; [lookup_tac; reflexivity|].
  intros x ??. by rewrite !lookup_insert_ne.
Qed.

(** When neither node is its own parent, [swap_nodes] makes the two nodes
    trade [next] and [prev] and puts each [parent] back where it was; the
    order of the two arguments does not matter, and a second call restores
    the memory exactly. *)
Theorem swap_nodes_twice_restores (m : mem) (a b : nat) (ta tb : timer) :
  m !! a = Some ta → m !! b = Some tb → a ≠ b →
  parent (node ta) ≠ Some a → parent (node tb) ≠ Some b →
  ∃ m1, swap_nodes m a b = Done m1 ∧
        swap_nodes m b a = Done m1 ∧
        m1 !! a = Some (with_node {| next := next (node tb);
                                     prev := prev (node tb);
                                     parent := parent (node ta) |} ta) ∧
        m1 !! b = Some (with_node {| next := next (node ta);
                                     prev := prev (node ta);
                                     parent := parent (node tb) |} tb) ∧
        swap_nodes m1 a b = Done m.
Proof.
  intros Ha Hb Hne Hpa Hpb.
  destruct (swap_nodes_no_self_parent m a b ta tb)
    as (m1 & E1 & Ha1 & Hb1 & Ho1); try done.
  destruct (swap_nodes_no_self_parent m b a tb ta)
    as (m1' & E1' & Hb1' & Ha1' & Ho1'); try done.
  destruct (swap_nodes_no_self_parent m1 a b _ _ Ha1 Hb1)
    as (m2 & E2 & Ha2 & Hb2 & Ho2); try done.
  assert (m1' = m1) as ->.
  { apply map_eq. intros x.
    destruct (decide (x = a)) as [->|?]; [congruence|].
    destruct (decide (x = b)) as [->|?]; [congruence|].
    rewrite Ho1, Ho1'; done. }
  assert (m2 = m) as ->.
  { apply map_eq. intros x.
    destruct (decide (x = a)) as [->|?].
    { rewrite Ha2, Ha. by destruct ta as [[? ? ?] ? ? ? ?]. }
    destruct (decide (x = b)) as [->|?].
    { rewrite Hb2, Hb. by destruct tb as [[? ? ?] ? ? ? ?]. }
    rewrite Ho2, Ho1; done. }
  exists m1. by repeat split.
Qed.

Lemma swap_nodes_twice_restores_witness :
  ∃ m1, swap_nodes (linked2 1 10) 1 2 = Done m1 ∧
        swap_nodes m1 1 2 = Done (linked2 1 10).
Proof.
  destruct (swap_nodes_twice_restores (linked2 1 10) 1 2
              (with_node (links (Some 2%nat) None) (record 1 0))
              (with_node (links None (Some 1%nat)) (record 10 0)))
    as (m1 & E1 & _ & _ & _ & E2);
    [reflexivity|reflexivity|lia|discriminate|discriminate|].
  exists m1. by split.
Defined.

(** ** The timer module around a single timer *)

Lemma run_ticks_on_empty_state fuel n s :
  head (timer_queue s) = None → root (timer_queue s) = None →
  ∃ s', run_ticks (S fuel) n s = Done s' ∧ fired s' = fired s ∧
        timer_queue s' = timer_queue s ∧ heap s' = heap s.
Proof.
  revert s. induction n as [|n IH]; intros s Hh Hr; [by exists s|].
  simpl run_ticks. unfold timer_increment_tick. cbn -[wrap64].
  rewrite Hr. cbn -[wrap64]. rewrite Hh. cbn -[wrap64].
  edestruct IH as (s' & -> & Hf & Hq & Hm); [..|by exists s']; done.
Qed.

(** [timer_module_init] always succeeds: it empties the queue, installs
    [timer_compare] and zeroes the tick counter, and touches no timer
    record.  From there any number [n] of ticks return, fire no callback
    and leave the queue empty and the counter at [n] modulo 2^64. *)
Theorem timer_module_init_then_ticks (s : timer_module) (fuel n : nat) :
  ∃ s0 s',
    timer_module_init s = Done s0 ∧
    timer_queue s0 = fresh_queue ∧ global_ticks s0 = 0 ∧
    heap s0 = heap s ∧ fired s0 = fired s ∧
    run_ticks (S fuel) n s0 = Done s' ∧
    timer_queue s' = fresh_queue ∧ heap s' = heap s ∧
    fired s' = fired s ∧ global_ticks s' = wrap64 (Z.of_nat n).
Proof.
  eexists. 
  destruct (run_ticks_on_empty_state fuel n
              {| timer_queue := fresh_queue; global_ticks := 0;
                 heap := heap s; fired := fired s |})
    as (s' & E & Hf & Hq & Hm); [done..|].
  exists s'. split; [reflexivity|]. repeat split; try done.
  apply run_ticks_global_ticks in E; [exact E|]. simpl. split; [lia|done].
Qed.

(** Running a sole one-shot timer up to its deadline. *)
Lemma run_until_due_one_shot fuel t e s :
  sole t e 0 s → 0 ≤ global_ticks s < e → e < UINT64_MOD →
  run_ticks (S (S fuel)) (Z.to_nat (e - global_ticks s)) s
  = Done {| timer_queue := {| head := None; tail := None; root := None;
                              compare := compare (timer_queue s) |};
            global_ticks := e; heap := heap s;
            fired := (t, e) :: fired s |}.
Proof.
  intros Hs Hg HM.
  replace (Z.to_nat (e - global_ticks s))
    with ((Z.to_nat (e - global_ticks s) - 1) + 1)%nat by lia.
  rewrite run_ticks_app.
  rewrite (run_ticks_idle _ t e 0) by (done || lia).
  rewrite bind_Done. simpl run_ticks.
  rewrite (tick_fires_one_shot fuel t e)
    by (try apply sole_frame; simpl; done || lia).
  simpl. do 2 f_equal; [lia|do 2 f_equal; lia].
Qed.

(** Running a sole periodic timer up to its deadline. *)
Lemma run_until_due_periodic fuel t e p s :
  sole t e p s → 0 ≤ global_ticks s < e → 1 ≤ p → e + p < UINT64_MOD →
  ∃ s', run_ticks (S (S fuel)) (Z.to_nat (e - global_ticks s)) s = Done s' ∧
        sole t (e + p) p s' ∧ global_ticks s' = e ∧
        fired s' = (t, e) :: fired s.
Proof.
  intros Hs Hg Hp HM.
  replace (Z.to_nat (e - global_ticks s))
    with ((Z.to_nat (e - global_ticks s) - 1) + 1)%nat by lia.
  rewrite run_ticks_app.
  rewrite (run_ticks_idle _ t e p) by (done || lia).
  rewrite bind_Done. simpl run_ticks.
  edestruct (tick_fires_periodic fuel t e p) as (s' & -> & Hs' & Hg' & Hf');
    [apply sole_frame, Hs|simpl; lia..|].
  simpl in Hg', Hf'. exists s'. split; [done|]. split; [done|].
  split; [lia|]. rewrite Hf'. do 2 f_equal. lia.
Qed.

(** [timer_init] does not disarm.  Called on the sole armed timer it leaves
    the queue as it is and zeroes deadline and period, so the timer fires on
    the very next tick, once, and the queue is empty afterwards. *)
Theorem timer_init_does_not_disarm
  (fuel : nat) (t : nat) (e p : Z) (cb : option nat) (d : nat)
  (s : timer_module) :
  sole t e p s → cb ≠ None →
  0 ≤ global_ticks s → global_ticks s + 1 < UINT64_MOD →
  ∃ s1 s2,
    timer_init t cb d s = Done s1 ∧
    timer_queue s1 = timer_queue s ∧
    timer_increment_tick (S (S fuel)) s1 = Done s2 ∧
    fired s2 = (t, global_ticks s + 1) :: fired s ∧
    head (timer_queue s2) = None ∧ root (timer_queue s2) = None.
Proof.
  intros (Hh & Htl & Hr & tm & Ht & Hn & He & Hp & Hcb) Hcb' H0 HM.
  unfold timer_init. rewrite (update_Some _ _ _ _ Ht), bind_Done.
  eexists. eexists. split; [reflexivity|]. split; [reflexivity|].
  rewrite (tick_fires_one_shot fuel t 0); simpl; try lia.
  - by repeat split.
  - repeat split; try done. eexists. split; [apply lookup_insert_eq|].
    by repeat split.
Qed.

Lemma timer_init_does_not_disarm_witness :
  ∃ s1 s2,
    timer_init 1 (Some 9%nat) 4 (sole_periodic 5 30 2) = Done s1 ∧
    timer_queue s1 = timer_queue (sole_periodic 5 30 2) ∧
    timer_increment_tick 2 s1 = Done s2 ∧
    fired s2 = (1%nat, global_ticks (sole_periodic 5 30 2) + 1)
               :: fired (sole_periodic 5 30 2) ∧
    head (timer_queue s2) = None ∧ root (timer_queue s2) = None.
Proof.
  apply (timer_init_does_not_disarm 0 1 30 2 (Some 9%nat) 4
           (sole_periodic 5 30 2)).
  - eapply sole_intro; [apply lookup_insert_eq|done..].
  - discriminate.
  - vm_compute. discriminate.
  - vm_compute. reflexivity.
Defined.

(** [timer_set_period] changes the period only: on the sole armed timer the
    deadline stays, the timer fires at that deadline, and only then the new
    period counts.  With the new period 0 the timer is gone after firing;
    with a new period [p2 ≥ 1] it is armed again for deadline + [p2]. *)
Theorem timer_set_period_counts_from_next_firing
  (fuel : nat) (t : nat) (e p p2 : Z) (s : timer_module) :
  sole t e p s → 0 ≤ global_ticks s < e → e < UINT64_MOD →
  ∃ s1,
    timer_set_period t p2 s = Done s1 ∧
    sole t e p2 s1 ∧ global_ticks s1 = global_ticks s ∧
    fired s1 = fired s ∧
    (p2 = 0 →
     ∃ s2, run_ticks (S (S fuel)) (Z.to_nat (e - global_ticks s)) s1
           = Done s2 ∧
           fired s2 = (t, e) :: fired s ∧
           head (timer_queue s2) = None ∧ root (timer_queue s2) = None) ∧
    (1 ≤ p2 → e + p2 < UINT64_MOD →
     ∃ s2, run_ticks (S (S fuel)) (Z.to_nat (e - global_ticks s)) s1
           = Done s2 ∧
           fired s2 = (t, e) :: fired s ∧ sole t (e + p2) p2 s2).
Proof.
  intros (Hh & Htl & Hr & tm & Ht & Hn & He & Hp & Hcb) Hg HM.
  unfold timer_set_period. rewrite (update_Some _ _ _ _ Ht), bind_Done.
  eexists. split; [reflexivity|].
  assert (Hs1 : sole t e p2
                  {| timer_queue := timer_queue s;
                     global_ticks := global_ticks s;
                     heap := <[t := with_period p2 tm]> (heap s);
                     fired := fired s |}).
  { repeat split; try done. eexists. split; [apply lookup_insert_eq|].
    by repeat split. }
  split; [exact Hs1|]. split; [done|]. split; [done|]. split.
  - intros ->. pose proof (run_until_due_one_shot fuel t e _ Hs1 Hg HM) as E.
    simpl in E. rewrite E.
    eexists. split; [reflexivity|]. by repeat split.
  - intros Hp2 HM2.
    destruct (run_until_due_periodic fuel t e p2 _ Hs1)
      as (s2 & E & Hs2 & _ & Hf); try done.
    simpl in E, Hf. exists s2. split; [exact E|]. split; [exact Hf|exact Hs2].
Qed.

Lemma timer_set_period_counts_from_next_firing_witness :
  ∃ s1,
    timer_set_period 1 7 (sole_periodic 5 30 2) = Done s1 ∧
    sole 1 30 7 s1 ∧
    ∃ s2, run_ticks 2 (Z.to_nat (30 - 5)) s1 = Done s2 ∧
          fired s2 = [(1%nat, 30)] ∧ sole 1 (30 + 7) 7 s2.
Proof.
  destruct (timer_set_period_counts_from_next_firing 0 1 30 2 7
              (sole_periodic 5 30 2))
    as (s1 & E1 & Hs1 & _ & _ & _ & Hper).
  - eapply sole_intro; [apply lookup_insert_eq|done..].
  - vm_compute. split; [discriminate|reflexivity].
  - vm_compute. reflexivity.
  - exists s1. split; [exact E1|]. split; [exact Hs1|].
    destruct Hper as (s2 & E2 & Hf & Hs2); [lia|vm_compute; reflexivity|].
    exists s2. split; [exact E2|]. split; [exact Hf|exact Hs2].
Defined.

(** ** Arming a timer that is already armed *)

Lemma pick_largest_self_loop (m : mem) t tm :
  m !! t = Some tm → next (node tm) = None → prev (node tm) = Some t →
  pick_largest (Some timer_compare) m t = Done t.
Proof.
  intros Ht Hn Hp. unfold pick_largest.
  rewrite (load_node_Some _ _ _ Ht), bind_Done, Hn, bind_Done, Hp.
  simpl. unfold timer_compare. rewrite (load_Some _ _ _ Ht), !bind_Done.
  by repeat case_decide; try lia.
Qed.

Lemma rearmed_intro t e p gt (h : gmap nat timer) f tm :
  h !! t = Some tm → next (node tm) = None → prev (node tm) = Some t →
  expiry tm = e → period tm = p → callback tm ≠ None →
  rearmed t e p {| timer_queue := {| head := Some t; tail := Some t;
                                     root := Some t;
                                     compare := Some timer_compare |};
                   global_ticks := gt; heap := h; fired := f |}.
Proof. intros. repeat split; try done. exists tm. by repeat split. Qed.

Lemma rearmed_frame t e p s g f :
  rearmed t e p s →
  rearmed t e p {| timer_queue := timer_queue s; global_ticks := g;
                   heap := heap s; fired := f |}.
Proof. by intros (? & ? & ? & ? & ?). Qed.

Lemma timer_start_while_armed fuel t ticks periodic s tm :
  head (timer_queue s) = Some t → tail (timer_queue s) = Some t →
  root (timer_queue s) = Some t →
  compare (timer_queue s) = Some timer_compare →
  heap s !! t = Some tm → callback tm ≠ None →
  ∃ s1, timer_start (S fuel) t ticks periodic s = Done s1 ∧
        rearmed t (wrap64 (global_ticks s + ticks))
                (if periodic then ticks else 0) s1 ∧
        global_ticks s1 = global_ticks s ∧ fired s1 = fired s.
Proof.
  intros Hh Htl Hr Hc Ht Hcb.
  destruct s as [[hd tl rt cmp] gt h f]. simpl in *. subst hd tl rt cmp.
  unfold timer_start. cbn [timer_queue global_ticks heap fired].
  rewrite (update_Some _ _ _ _ Ht), bind_Done.
  erewrite update_Some by apply lookup_insert_eq. rewrite bind_Done.
  unfold pq_insert. cbn [head tail root compare].
  erewrite update_node_Some by apply lookup_insert_eq. rewrite bind_Done.
  erewrite update_node_Some by apply lookup_insert_eq. rewrite bind_Done.
  erewrite update_node_Some by apply lookup_insert_eq. rewrite !bind_Done.
  cbv beta iota. unfold pq_reorder. cbn [head tail root compare].
  rewrite reorder_loop_unfold.
  erewrite pick_largest_self_loop; [|apply lookup_insert_eq|done..].
  rewrite bind_Done, decide_True by done. rewrite !bind_Done.
  cbn [pointee]. rewrite bind_Done.
  eexists. split; [reflexivity|]. split; [|done].
  eapply rearmed_intro; [apply lookup_insert_eq|done..].
Qed.

Lemma tick_idle_rearmed fuel t e p s :
  rearmed t e p s → 0 ≤ global_ticks s → global_ticks s + 1 < e →
  global_ticks s + 1 < UINT64_MOD →
  timer_increment_tick (S fuel) s
  = Done {| timer_queue := timer_queue s;
            global_ticks := global_ticks s + 1;
            heap := heap s; fired := fired s |}.
Proof.
  intros (Hh & Htl & Hr & Hc & tm & Ht & Hn & Hpv & He & Hp & Hcb) H0 Hlt HM.
  destruct s as [[hd tl rt cmp] gt h f]. simpl in *. subst hd tl rt cmp.
  unfold timer_increment_tick. cbn -[wrap64 pick_largest].
  rewrite wrap64_small by lia.
  rewrite (load_Some _ _ _ Ht), bind_Done.
  rewrite decide_False by lia. rewrite bind_Done.
  cbn -[pick_largest].
  rewrite (pick_largest_self_loop _ _ _ Ht Hn Hpv), bind_Done.
  by rewrite decide_True.
Qed.

Lemma run_ticks_idle_rearmed fuel t e p (k : nat) s :
  rearmed t e p s → 0 ≤ global_ticks s →
  global_ticks s + Z.of_nat k < e →
  global_ticks s + Z.of_nat k < UINT64_MOD →
  run_ticks (S fuel) k s
  = Done {| timer_queue := timer_queue s;
            global_ticks := global_ticks s + Z.of_nat k;
            heap := heap s; fired := fired s |}.
Proof.
  revert s. induction k as [|k IH]; intros s Hs H0 Hlt HM.
  - simpl. rewrite Z.add_0_r. by destruct s.
  - simpl run_ticks. rewrite (tick_idle_rearmed fuel t e p) by (done || lia).
    rewrite bind_Done, IH; simpl; try lia.
    + do 2 f_equal. lia.
    + by apply rearmed_frame.
Qed.

(** The tick on which a timer armed twice is due. *)
Lemma tick_fires_rearmed fuel t e p s :
  rearmed t e p s → 0 ≤ global_ticks s → e ≤ global_ticks s + 1 →
  global_ticks s + 1 < UINT64_MOD → 0 ≤ p →
  global_ticks s + 1 < e + p ∨ p = 0 → e + p < UINT64_MOD →
  ∃ s', timer_increment_tick (S (S fuel)) s = Done s' ∧
        global_ticks s' = global_ticks s + 1 ∧
        fired s' = (t, global_ticks s + 1) :: fired s ∧
        (p = 0 → head (timer_queue s') = None ∧
                 root (timer_queue s') = None) ∧
        (p ≠ 0 → sole t (e + p) p s').
Proof.
  intros (Hh & Htl & Hr & Hc & tm & Ht & Hn & Hpv & He & Hp & Hcb)
         H0 Hle HM Hp0 Hnext HM2.
  destruct s as [[hd tl rt cmp] gt h f]. simpl in *. subst hd tl rt cmp.
  unfold timer_increment_tick. cbn -[wrap64].
  rewrite wrap64_small by lia.
  rewrite (load_Some _ _ _ Ht), bind_Done.
  rewrite decide_True by lia.
  unfold expire. cbn -[wrap64]. rewrite decide_True by done. cbn -[wrap64].
  unfold invoke_callback. cbn -[wrap64].
  rewrite (load_Some _ _ _ Ht), bind_Done.
  destruct (callback tm) as [cb|] eqn:Ecb; [|done]. cbn -[wrap64].
  rewrite (load_Some _ _ _ Ht), bind_Done.
  destruct (decide (period tm = 0)) as [Hz|Hnz].
  - cbn. eexists. split; [reflexivity|]. split; [done|]. split; [done|].
    split; [done|]. intros ?. congruence.
  - rewrite (update_Some _ _ _ _ Ht), bind_Done.
    erewrite update_node_Some by apply lookup_insert_eq.
    cbn -[wrap64]. rewrite wrap64_small by lia.
    erewrite load_Some by apply lookup_insert_eq. rewrite bind_Done.
    cbn. rewrite decide_False by lia. rewrite bind_Done. cbn.
    unfold pick_largest.
    erewrite load_node_Some by apply lookup_insert_eq.
    cbn. rewrite decide_True by done. cbn.
    eexists. split; [reflexivity|]. split; [done|]. split; [done|].
    split; [lia|]. intros _.
    eapply sole_intro; [apply lookup_insert_eq|try done..].
    + simpl. lia.
    + simpl. congruence.
Qed.

(** [timer_start] on the timer that is the only member of the queue is a
    restart: whatever its old deadline, nothing fires during the first
    [ticks - 1] calls and the call number [ticks] fires it once, at counter
    + [ticks].  A one-shot restart leaves the queue empty; a periodic one
    leaves the timer armed for one period later. *)
Theorem timer_restart_moves_deadline
  (fuel : nat) (t : nat) (ticks : Z) (periodic : bool)
  (s : timer_module) (tm : timer) :
  head (timer_queue s) = Some t → tail (timer_queue s) = Some t →
  root (timer_queue s) = Some t →
  compare (timer_queue s) = Some timer_compare →
  heap s !! t = Some tm → callback tm ≠ None →
  0 ≤ global_ticks s → 1 ≤ ticks →
  global_ticks s + 2 * ticks < UINT64_MOD →
  ∃ s1 s2 s3,
    timer_start (S (S fuel)) t ticks periodic s = Done s1 ∧
    run_ticks (S (S fuel)) (Z.to_nat ticks - 1) s1 = Done s2 ∧
    fired s2 = fired s ∧
    run_ticks (S (S fuel)) (Z.to_nat ticks) s1 = Done s3 ∧
    fired s3 = (t, global_ticks s + ticks) :: fired s ∧
    (if periodic then sole t (global_ticks s + 2 * ticks) ticks s3
     else head (timer_queue s3) = None ∧ root (timer_queue s3) = None).
Proof.
  intros Hh Htl Hr Hc Ht Hcb H0 H1 HM.
  destruct (timer_start_while_armed (S fuel) t ticks periodic s tm)
    as (s1 & E1 & Hs1 & Hg1 & Hf1); try done.
  rewrite wrap64_small in Hs1 by lia.
  set (p := if periodic then ticks else 0) in *.
  assert (Hp : 0 ≤ p) by (unfold p; destruct periodic; lia).
  assert (Hp2 : p = 0 ∨ p = ticks)
    by (unfold p; destruct periodic; [by right|by left]).
  assert (Eidle : run_ticks (S (S fuel)) (Z.to_nat ticks - 1) s1
                  = Done {| timer_queue := timer_queue s1;
                            global_ticks := global_ticks s1
                                            + Z.of_nat (Z.to_nat ticks - 1);
                            heap := heap s1; fired := fired s1 |}).
  { apply (run_ticks_idle_rearmed _ t (global_ticks s + ticks) p);
      [done|lia..]. }
  destruct (tick_fires_rearmed fuel t (global_ticks s + ticks) p
              {| timer_queue := timer_queue s1;
                 global_ticks := global_ticks s1
                                 + Z.of_nat (Z.to_nat ticks - 1);
                 heap := heap s1; fired := fired s1 |})
    as (s3 & E3 & Hg3 & Hf3 & Hz & Hnz);
    [by apply rearmed_frame|simpl..|]; try (destruct Hp2; lia).
  simpl in Hg3, Hf3.
  exists s1. eexists. exists s3.
  split; [exact E1|]. split; [exact Eidle|]. split; [exact Hf1|]. split.
  { replace (Z.to_nat ticks) with ((Z.to_nat ticks - 1) + 1)%nat at 1 by lia.
    rewrite run_ticks_app, Eidle, bind_Done. simpl run_ticks.
    by rewrite E3. }
  split.
  { rewrite Hf3, Hf1, Hg1. do 2 f_equal. lia. }
  unfold p in *. destruct periodic.
  - replace (global_ticks s + 2 * ticks)
      with (global_ticks s + ticks + ticks) by lia.
    apply Hnz. lia.
  - by apply Hz.
Qed.

Lemma timer_restart_moves_deadline_witness :
  ∃ s1 s2 s3,
    timer_start 2 1 4 false (sole_periodic 5 30 2) = Done s1 ∧
    run_ticks 2 (Z.to_nat 4 - 1) s1 = Done s2 ∧
    fired s2 = fired (sole_periodic 5 30 2) ∧
    run_ticks 2 (Z.to_nat 4) s1 = Done s3 ∧
    fired s3 = (1%nat, global_ticks (sole_periodic 5 30 2) + 4)
               :: fired (sole_periodic 5 30 2) ∧
    (head (timer_queue s3) = None ∧ root (timer_queue s3) = None).
Proof.
  apply (timer_restart_moves_deadline 0 1 4 false (sole_periodic 5 30 2)
           (record 30 2)); try reflexivity.
  - discriminate.
  - vm_compute. discriminate.
  - lia.
Defined.

(** ** Two timers *)

Lemma drain_step_due fuel s n tm :
  root (timer_queue s) = Some n → heap s !! n = Some tm →
  expiry tm ≤ global_ticks s →
  drain (S fuel) s = expire n s ≫= drain fuel.
Proof.
  intros Hr Hn Hdue. simpl. rewrite Hr, (load_Some _ _ _ Hn), bind_Done.
  by rewrite decide_True.
Qed.

Lemma drain_stop_not_due fuel s n tm :
  root (timer_queue s) = Some n → heap s !! n = Some tm →
  global_ticks s < expiry tm →
  drain (S fuel) s = Done s.
Proof.
  intros Hr Hn Hdue. simpl. rewrite Hr, (load_Some _ _ _ Hn), bind_Done.
  rewrite decide_False by lia. done.
Qed.

Lemma drain_stop_empty fuel s :
  root (timer_queue s) = None → drain (S fuel) s = Done s.
Proof. intros Hr. simpl. by rewrite Hr. Qed.

Lemma pq_reorder_settled fuel q (m : mem) r :
  head q ≠ None → root q = Some r →
  pick_largest (compare q) m r = Done r →
  pq_reorder (S fuel) (Some q) m = Done m.
Proof.
  intros Hh Hr Hp. unfold pq_reorder. rewrite Hr.
  destruct (head q); [|done].
  rewrite reorder_loop_unfold, Hp, bind_Done. by rewrite decide_True.
Qed.

(** A tick on which the root is not due and has no neighbour that compares
    greater only advances the counter. *)
Lemma tick_idle_settled fuel s n tm :
  head (timer_queue s) ≠ None → root (timer_queue s) = Some n →
  heap s !! n = Some tm →
  pick_largest (compare (timer_queue s)) (heap s) n = Done n →
  0 ≤ global_ticks s → global_ticks s + 1 < expiry tm →
  global_ticks s + 1 < UINT64_MOD →
  timer_increment_tick (S fuel) s
  = Done {| timer_queue := timer_queue s;
            global_ticks := global_ticks s + 1;
            heap := heap s; fired := fired s |}.
Proof.
  intros Hh Hr Hn Hp H0 Hlt HM. unfold timer_increment_tick.
  rewrite wrap64_small by lia.
  erewrite drain_stop_not_due; [|exact Hr|exact Hn|simpl; lia].
  rewrite bind_Done. cbn [timer_queue heap global_ticks fired].
  by rewrite (pq_reorder_settled fuel _ _ n).
Qed.

Lemma run_ticks_idle_settled fuel (k : nat) s n tm :
  head (timer_queue s) ≠ None → root (timer_queue s) = Some n →
  heap s !! n = Some tm →
  pick_largest (compare (timer_queue s)) (heap s) n = Done n →
  0 ≤ global_ticks s → global_ticks s + Z.of_nat k < expiry tm →
  global_ticks s + Z.of_nat k < UINT64_MOD →
  run_ticks (S fuel) k s
  = Done {| timer_queue := timer_queue s;
            global_ticks := global_ticks s + Z.of_nat k;
            heap := heap s; fired := fired s |}.
Proof.
  revert s. induction k as [|k IH]; intros s Hh Hr Hn Hp H0 Hlt HM.
  - simpl. rewrite Z.add_0_r. by destruct s.
  - simpl run_ticks.
    rewrite (tick_idle_settled fuel s n tm) by (done || lia).
    rewrite bind_Done, IH; simpl; try done; try lia.
    do 2 f_equal. lia.
Qed.

(** The loop body on a due timer of period 0, from the result of
    [pq_pop]. *)
Lemma expire_one_shot_from_pop n q gt (m : mem) f r q' m' tm cb :
  pq_pop (Some q) m = Done (r, Some q', m') →
  m' !! n = Some tm → callback tm = Some cb → period tm = 0 →
  expire n {| timer_queue := q; global_ticks := gt; heap := m; fired := f |}
  = Done {| timer_queue := q'; global_ticks := gt; heap := m';
            fired := (n, gt) :: f |}.
Proof.
  intros Hpop Hn Hcb Hp. unfold expire.
  cbn [timer_queue global_ticks heap fired].
  rewrite Hpop, bind_Done. cbn [pointee]. rewrite bind_Done.
  unfold invoke_callback. cbn [timer_queue global_ticks heap fired].
  rewrite (load_Some _ _ _ Hn), bind_Done, Hcb, bind_Done.
  cbn [timer_queue global_ticks heap fired].
  rewrite (load_Some _ _ _ Hn), bind_Done. by rewrite decide_True.
Qed.

(** [pq_pop] when head and tail differ. *)
Lemma pq_pop_two_or_more q (m : mem) h tl tn :
  head q = Some h → tail q = Some tl → h ≠ tl → m !! tl = Some tn →
  (∀ p, prev (node tn) = Some p → is_Some (m !! p)) →
  ∃ m', pq_pop (Some q) m
        = Done (root q,
                Some {| head := Some h; tail := prev (node tn);
                        root := Some tl; compare := compare q |}, m') ∧
        m' !! tl = Some (with_node {| next := None; prev := None;
                                      parent := parent (node tn) |} tn) ∧
        (∀ p tp, prev (node tn) = Some p → p ≠ tl → m !! p = Some tp →
           m' !! p = Some (with_node (set_next None (node tp)) tp)) ∧
        (∀ a, a ≠ tl → prev (node tn) ≠ Some a → m' !! a = m !! a).
Proof.
  intros Hh Ht Hne Htl Hp.
  unfold pq_pop. rewrite Hh, Ht.
  rewrite decide_False by congruence.
  rewrite (load_node_Some _ _ _ Htl), bind_Done.
  destruct (prev (node tn)) as [p|] eqn:Ep.
  - destruct (Hp p eq_refl) as [tp Htp].
    rewrite (update_node_Some _ _ _ _ Htp), bind_Done.
    destruct (decide (p = tl)) as [->|Hptl].
    + assert (tp = tn) by congruence. subst tp.
      erewrite load_node_Some by apply lookup_insert_eq.
      rewrite bind_Done.
      erewrite update_node_Some by apply lookup_insert_eq. rewrite bind_Done.
      erewrite update_node_Some by apply lookup_insert_eq. rewrite bind_Done.
      simpl. rewrite Ep. eexists. split; [reflexivity|].
      rewrite !insert_insert_eq. split; [by rewrite lookup_insert_eq|].
      split; [by intros p tp [= <-] Hc|].
      intros a Ha _. by rewrite lookup_insert_ne.
    + erewrite load_node_Some by (rewrite lookup_insert_ne by done; exact Htl).
      rewrite bind_Done.
      erewrite update_node_Some by (rewrite lookup_insert_ne by done; exact Htl).
      rewrite bind_Done.
      erewrite update_node_Some by apply lookup_insert_eq. rewrite bind_Done.
      rewrite Ep. eexists. split; [reflexivity|].
      rewrite !insert_insert_eq. split; [by rewrite lookup_insert_eq|].
      split.
      { intros p' tp' [= <-] _ Hl. rewrite lookup_insert_ne by done.
        rewrite lookup_insert_eq. congruence. }
      intros a Ha Hpa. rewrite !lookup_insert_ne; congruence.
  - rewrite bind_Done.
    rewrite (load_node_Some _ _ _ Htl), bind_Done.
    erewrite update_node_Some by exact Htl. rewrite bind_Done.
    erewrite update_node_Some by apply lookup_insert_eq. rewrite bind_Done.
    rewrite Ep. eexists. split; [reflexivity|].
    rewrite !insert_insert_eq. split; [by rewrite lookup_insert_eq|].
    split; [by intros p tp [=]|].
    intros a Ha _. by rewrite lookup_insert_ne.
Qed.

Lemma pick_largest_no_neighbours cmp (m : mem) n tm :
  m !! n = Some tm → next (node tm) = None → prev (node tm) = None →
  pick_largest cmp m n = Done n.
Proof.
  intros Hn Hnx Hpv. unfold pick_largest.
  by rewrite (load_node_Some _ _ _ Hn), bind_Done, Hnx, bind_Done, Hpv.
Qed.

Lemma timer_compare_Done (m : mem) a b ta tb :
  m !! a = Some ta → m !! b = Some tb →
  call_compare (Some timer_compare) m a b
  = Done ((if decide (expiry ta > expiry tb) then 1 else 0)
          - (if decide (expiry ta < expiry tb) then 1 else 0)).
Proof.
  intros Ha Hb. simpl. unfold timer_compare.
  by rewrite (load_Some _ _ _ Ha), (load_Some _ _ _ Hb).
Qed.

Lemma pick_largest_late (m : mem) t1 t2 tm1 tm2 :
  m !! t1 = Some tm1 → m !! t2 = Some tm2 →
  next (node tm1) = Some t2 → prev (node tm1) = None →
  expiry tm2 ≤ expiry tm1 →
  pick_largest (Some timer_compare) m t1 = Done t1.
Proof.
  intros H1 H2 Hnx Hpv Hle. unfold pick_largest.
  rewrite (load_node_Some _ _ _ H1), bind_Done, Hnx, Hpv.
  rewrite (timer_compare_Done _ _ _ _ _ H2 H1), !bind_Done.
  by repeat case_decide; try lia.
Qed.

Lemma pick_largest_later (m : mem) t1 t2 tm1 tm2 :
  m !! t1 = Some tm1 → m !! t2 = Some tm2 →
  next (node tm1) = Some t2 → prev (node tm1) = None →
  expiry tm1 < expiry tm2 →
  pick_largest (Some timer_compare) m t1 = Done t2.
Proof.
  intros H1 H2 Hnx Hpv Hle. unfold pick_largest.
  rewrite (load_node_Some _ _ _ H1), bind_Done, Hnx, Hpv.
  rewrite (timer_compare_Done _ _ _ _ _ H2 H1), !bind_Done.
  by repeat case_decide; try lia.
Qed.

(** Arming the first timer, with what the queue and the other records keep. *)
Lemma timer_start_first fuel t ticks s tm :
  head (timer_queue s) = None →
  heap s !! t = Some tm → callback tm ≠ None →
  ∃ s1, timer_start (S fuel) t ticks false s = Done s1 ∧
        sole t (wrap64 (global_ticks s + ticks)) 0 s1 ∧
        compare (timer_queue s1) = compare (timer_queue s) ∧
        global_ticks s1 = global_ticks s ∧ fired s1 = fired s ∧
        (∀ x, x ≠ t → heap s1 !! x = heap s !! x).
Proof.
  intros Hh Ht Hcb. destruct s as [[hd tl rt cmp] gt h f]. simpl in *.
  subst hd. unfold timer_start. simpl.
  rewrite (update_Some _ _ _ _ Ht), bind_Done.
  erewrite update_Some by apply lookup_insert_eq. rewrite bind_Done.
  erewrite update_node_Some by apply lookup_insert_eq. rewrite bind_Done.
  cbn -[wrap64]. unfold pick_largest.
  erewrite load_node_Some by apply lookup_insert_eq.
  cbn -[wrap64]. rewrite decide_True by done. cbn -[wrap64].
  eexists. split; [reflexivity|]. split.
  { eapply sole_intro; [apply lookup_insert_eq|done..]. }
  repeat split. intros x Hx. simpl. by rewrite !lookup_insert_ne.
Qed.

(** Arming a second one-shot timer while the first is the sole member. *)
Lemma timer_start_second fuel t1 t2 e1 ticks s tm2 :
  sole t1 e1 0 s → compare (timer_queue s) = Some timer_compare →
  t1 ≠ t2 → heap s !! t2 = Some tm2 → callback tm2 ≠ None →
  ∃ s2, timer_start (S (S fuel)) t2 ticks false s = Done s2 ∧
        global_ticks s2 = global_ticks s ∧ fired s2 = fired s ∧
        (wrap64 (global_ticks s + ticks) ≤ e1 →
         late_pair t1 t2 e1 (wrap64 (global_ticks s + ticks)) s2) ∧
        (e1 < wrap64 (global_ticks s + ticks) →
         swapped_pair t1 t2 e1 (wrap64 (global_ticks s + ticks)) s2).
Proof.
  intros (Hh & Htl & Hr & tm1 & Ht1 & Hn1 & He1 & Hp1 & Hcb1) Hc Hne Ht2 Hcb2.
  destruct s as [[hd tl rt cmp] gt h f]. simpl in *. subst hd tl rt cmp.
  unfold timer_start. cbn [timer_queue global_ticks heap fired].
  set (e2 := wrap64 (gt + ticks)).
  rewrite (update_Some _ _ _ _ Ht2), bind_Done.
  erewrite update_Some by apply lookup_insert_eq. rewrite bind_Done.
  rewrite insert_insert_eq.
  set (tm2a := with_period 0 (with_expiry e2 tm2)).
  unfold pq_insert. cbn [head tail root compare].
  erewrite update_node_Some by (rewrite lookup_insert_ne by done; exact Ht1).
  rewrite bind_Done.
  erewrite update_node_Some
    by (rewrite lookup_insert_ne by done; apply lookup_insert_eq).
  rewrite bind_Done.
  erewrite update_node_Some by apply lookup_insert_eq.
  rewrite !bind_Done. cbv beta iota. rewrite insert_insert_eq.
  set (tm1b := with_node (set_next (Some t2) (node tm1)) tm1).
  set (tm2b := with_node _ _).
  set (m := <[t2 := tm2b]> (<[t1 := tm1b]> (<[t2 := tm2a]> h))).
  assert (Hm1 : m !! t1 = Some tm1b).
  { unfold m. rewrite lookup_insert_ne by done. apply lookup_insert_eq. }
  assert (Hm2 : m !! t2 = Some tm2b) by apply lookup_insert_eq.
  unfold pq_reorder. cbn [head tail root compare].
  rewrite reorder_loop_unfold.
  destruct (decide (e2 ≤ e1)) as [Hle|Hgt].
  - assert (Hpick : pick_largest (Some timer_compare) m t1 = Done t1).
    { apply (pick_largest_late m t1 t2 tm1b tm2b); try done;
        unfold tm1b, tm2b, tm2a; simpl; rewrite ?Hn1; simpl; try done; lia. }
    rewrite Hpick, bind_Done, decide_True by done. rewrite !bind_Done.
    cbn [pointee]. rewrite bind_Done.
    eexists. split; [reflexivity|]. split; [done|]. split; [done|].
    split; [|intros; lia]. intros _.
    repeat split; try done. exists tm1b, tm2b.
    split; [exact Hm1|]. split; [exact Hm2|].
    unfold tm1b, tm2b, tm2a. simpl. rewrite Hn1. simpl. by repeat split.
  - assert (Hpick : pick_largest (Some timer_compare) m t1 = Done t2).
    { apply (pick_largest_later m t1 t2 tm1b tm2b); try done;
        unfold tm1b, tm2b, tm2a; simpl; rewrite ?Hn1; simpl; try done; lia. }
    rewrite Hpick, bind_Done, decide_False by done.
    destruct (swap_nodes_links m t1 t2 tm1b tm2b Hm1 Hm2 Hne)
      as (m' & tm1' & tm2' & Esw & H1' & H2' & Hnx1 & Hpv1 & Hnx2 & Hpv2
          & Hpay1 & Hpay2 & _).
    rewrite Esw, bind_Done, reorder_loop_unfold.
    assert (Hpick' : pick_largest (Some timer_compare) m' t1 = Done t1).
    { apply (pick_largest_self_loop m' t1 tm1'); try done;
        rewrite ?Hnx1, ?Hpv1; unfold tm2b, tm2a; simpl; done. }
    rewrite Hpick', bind_Done, decide_True by done. rewrite !bind_Done.
    cbn [pointee]. rewrite bind_Done.
    eexists. split; [reflexivity|]. split; [done|]. split; [done|].
    split; [intros; lia|]. intros _.
    repeat split; try done. exists tm1', tm2'.
    split; [exact H1'|]. split; [exact H2'|].
    unfold payload in Hpay1, Hpay2. injection Hpay1 as -> -> -> _.
    injection Hpay2 as -> -> -> _.
    rewrite Hnx1, Hpv1, Hpv2. unfold tm1b, tm2b, tm2a. simpl.
    rewrite Hn1. simpl. by repeat split.
Qed.

Lemma late_pair_frame t1 t2 e1 e2 s g f :
  late_pair t1 t2 e1 e2 s →
  late_pair t1 t2 e1 e2 {| timer_queue := timer_queue s; global_ticks := g;
                           heap := heap s; fired := f |}.
Proof. by intros (? & ? & ? & ? & ?). Qed.

Lemma swapped_pair_frame t1 t2 e1 e2 s g f :
  swapped_pair t1 t2 e1 e2 s →
  swapped_pair t1 t2 e1 e2 {| timer_queue := timer_queue s;
                              global_ticks := g;
                              heap := heap s; fired := f |}.
Proof. by intros (? & ? & ? & ? & ?). Qed.

Lemma orphan_root_frame t1 t2 e2 s g f :
  orphan_root t1 t2 e2 s →
  orphan_root t1 t2 e2 {| timer_queue := timer_queue s; global_ticks := g;
                          heap := heap s; fired := f |}.
Proof. by intros (? & ? & ? & ?). Qed.

Lemma late_pair_idle fuel (k : nat) t1 t2 e1 e2 s :
  late_pair t1 t2 e1 e2 s → e2 ≤ e1 → 0 ≤ global_ticks s →
  global_ticks s + Z.of_nat k < e1 →
  global_ticks s + Z.of_nat k < UINT64_MOD →
  run_ticks (S fuel) k s
  = Done {| timer_queue := timer_queue s;
            global_ticks := global_ticks s + Z.of_nat k;
            heap := heap s; fired := fired s |}.
Proof.
  intros (Hh & Htl & Hr & Hc & tm1 & tm2 & H1 & H2 & Hnx & Hpv & Hpv2
          & He1 & He2 & _) Hle H0 Hlt HM.
  apply (run_ticks_idle_settled fuel k s t1 tm1); try done; try lia.
  - congruence.
  - rewrite Hc. apply (pick_largest_late _ t1 t2 tm1 tm2); try done. lia.
Qed.

(** The tick on which the root of a [late_pair] is due fires both timers. *)
Lemma late_pair_fires fuel t1 t2 e1 e2 s :
  late_pair t1 t2 e1 e2 s → t1 ≠ t2 → e2 ≤ e1 → 0 ≤ global_ticks s →
  e1 ≤ global_ticks s + 1 → global_ticks s + 1 < UINT64_MOD →
  ∃ s', timer_increment_tick (S (S (S fuel))) s = Done s' ∧
        fired s' = (t2, global_ticks s + 1) :: (t1, global_ticks s + 1)
                   :: fired s ∧
        head (timer_queue s') = None ∧ root (timer_queue s') = None.
Proof.
  intros (Hh & Htl & Hr & Hc & tm1 & tm2 & H1 & H2 & Hnx & Hpv & Hpv2
          & He1 & He2 & Hp1 & Hp2 & Hcb1 & Hcb2) Hne Hle H0 Hdue HM.
  destruct s as [[hd tl rt cmp] gt h f]. simpl in *. subst hd tl rt cmp.
  unfold timer_increment_tick. rewrite wrap64_small by (simpl; lia).
  cbn [timer_queue global_ticks heap fired].
  set (q := {| head := Some t1; tail := Some t2; root := Some t1;
               compare := Some timer_compare |}).
  destruct (pq_pop_two_or_more q h t1 t2 tm2) as (m' & Epop & H2' & H1' & _);
    try done.
  { intros p. rewrite Hpv2. intros [= <-]. by eexists. }
  specialize (H1' t1 tm1 Hpv2 Hne H1). rewrite Hpv2 in Epop.
  destruct (callback tm1) as [cb1|] eqn:Ecb1; [|done].
  destruct (callback tm2) as [cb2|] eqn:Ecb2; [|done].
  erewrite drain_step_due; [|reflexivity|exact H1|simpl; lia].
  erewrite expire_one_shot_from_pop; [|exact Epop|exact H1'|done..].
  rewrite bind_Done.
  erewrite drain_step_due; [|reflexivity|exact H2'|simpl; lia].
  erewrite expire_one_shot_from_pop;
    [|unfold pq_pop; cbn [head tail root compare];
      rewrite decide_True by done; reflexivity|exact H2'|done..].
  rewrite bind_Done, drain_stop_empty by done.
  rewrite bind_Done. cbn.
  eexists. split; [reflexivity|]. by repeat split.
Qed.

(** Two one-shot timers armed on an empty queue, the second for no more
    ticks than the first ([b ≤ a]).  Nothing fires during the first [a - 1]
    ticks, not even at the second timer's deadline; the tick number [a]
    fires the first timer and then the second, both at counter + [a], and
    leaves the queue empty. *)
Theorem earlier_deadline_armed_second_fires_late
  (fuel : nat) (t1 t2 : nat) (a b : Z) (s : timer_module) (tm1 tm2 : timer) :
  head (timer_queue s) = None →
  compare (timer_queue s) = Some timer_compare →
  t1 ≠ t2 → heap s !! t1 = Some tm1 → heap s !! t2 = Some tm2 →
  callback tm1 ≠ None → callback tm2 ≠ None →
  0 ≤ global_ticks s → 1 ≤ b → b ≤ a → global_ticks s + a < UINT64_MOD →
  ∃ s1 s2 s3 s4,
    timer_start (S (S (S fuel))) t1 a false s = Done s1 ∧
    timer_start (S (S (S fuel))) t2 b false s1 = Done s2 ∧
    run_ticks (S (S (S fuel))) (Z.to_nat a - 1) s2 = Done s3 ∧
    fired s3 = fired s ∧
    run_ticks (S (S (S fuel))) (Z.to_nat a) s2 = Done s4 ∧
    fired s4 = (t2, global_ticks s + a) :: (t1, global_ticks s + a)
               :: fired s ∧
    head (timer_queue s4) = None ∧ root (timer_queue s4) = None.
Proof.
  intros Hh Hc Hne H1 H2 Hcb1 Hcb2 H0 Hb Hba HM.
  destruct (timer_start_first (S (S fuel)) t1 a s tm1)
    as (s1 & E1 & Hs1 & Hc1 & Hg1 & Hf1 & Hfr1); try done.
  rewrite wrap64_small in Hs1 by lia.
  destruct (timer_start_second (S fuel) t1 t2 (global_ticks s + a) b s1 tm2)
    as (s2 & E2 & Hg2 & Hf2 & Hlate & _); try done.
  { congruence. }
  { rewrite Hfr1 by done. exact H2. }
  rewrite Hg1, wrap64_small in Hlate by lia.
  specialize (Hlate ltac:(lia)).
  pose proof (late_pair_idle (S (S fuel)) (Z.to_nat a - 1) _ _ _ _ _ Hlate)
    as Eidle.
  rewrite Hg2, Hg1 in Eidle. specialize (Eidle ltac:(lia) H0 ltac:(lia)
                                                  ltac:(lia)).
  destruct (late_pair_fires fuel t1 t2 (global_ticks s + a)
              (global_ticks s + b)
              {| timer_queue := timer_queue s2;
                 global_ticks := global_ticks s + Z.of_nat (Z.to_nat a - 1);
                 heap := heap s2; fired := fired s2 |})
    as (s4 & E4 & Hf4 & Hh4 & Hr4);
    [by apply late_pair_frame|done|simpl; lia..|].
  simpl in Hf4.
  exists s1, s2. eexists. exists s4.
  split; [exact E1|]. split; [exact E2|]. split; [exact Eidle|].
  split; [simpl; congruence|]. split.
  { replace (Z.to_nat a) with ((Z.to_nat a - 1) + 1)%nat at 1 by lia.
    rewrite run_ticks_app, Eidle, bind_Done. simpl run_ticks.
    by rewrite E4. }
  split; [|done].
  rewrite Hf4, Hf2, Hf1.
  replace (global_ticks s + Z.of_nat (Z.to_nat a - 1) + 1)
    with (global_ticks s + a) by lia. done.
Qed.

Lemma earlier_deadline_armed_second_fires_late_witness :
  ∃ s1 s2 s3 s4,
    timer_start 3 1 100 false registered = Done s1 ∧
    timer_start 3 2 50 false s1 = Done s2 ∧
    run_ticks 3 (Z.to_nat 100 - 1) s2 = Done s3 ∧
    fired s3 = fired registered ∧
    run_ticks 3 (Z.to_nat 100) s2 = Done s4 ∧
    fired s4 = (2%nat, global_ticks registered + 100)
               :: (1%nat, global_ticks registered + 100)
               :: fired registered ∧
    head (timer_queue s4) = None ∧ root (timer_queue s4) = None.
Proof.
  apply (earlier_deadline_armed_second_fires_late 0 1 2 100 50 registered
           (record 0 0) (record 0 0)); try reflexivity; try discriminate;
    lia.
Defined.

Lemma swapped_pair_idle fuel (k : nat) t1 t2 e1 e2 s :
  swapped_pair t1 t2 e1 e2 s → 0 ≤ global_ticks s →
  global_ticks s + Z.of_nat k < e1 →
  global_ticks s + Z.of_nat k < UINT64_MOD →
  run_ticks (S fuel) k s
  = Done {| timer_queue := timer_queue s;
            global_ticks := global_ticks s + Z.of_nat k;
            heap := heap s; fired := fired s |}.
Proof.
  intros (Hh & Htl & Hr & Hc & tm1 & tm2 & H1 & H2 & Hnx & Hpv & Hpv2
          & He1 & He2 & _) H0 Hlt HM.
  apply (run_ticks_idle_settled fuel k s t1 tm1); try done; try lia.
  - congruence.
  - rewrite Hc. by apply (pick_largest_self_loop _ t1 tm1).
Qed.

(** The tick on which the root of a [swapped_pair] is due: the first timer
    fires and the queue is left with a null tail. *)
Lemma swapped_pair_fires fuel t1 t2 e1 e2 s :
  swapped_pair t1 t2 e1 e2 s → t1 ≠ t2 → 0 ≤ global_ticks s →
  e1 ≤ global_ticks s + 1 → global_ticks s + 1 < e2 →
  global_ticks s + 1 < UINT64_MOD →
  ∃ s', timer_increment_tick (S (S fuel)) s = Done s' ∧
        orphan_root t1 t2 e2 s' ∧
        global_ticks s' = global_ticks s + 1 ∧
        fired s' = (t1, global_ticks s + 1) :: fired s.
Proof.
  intros (Hh & Htl & Hr & Hc & tm1 & tm2 & H1 & H2 & Hnx & Hpv & Hpv2
          & He1 & He2 & Hp1 & Hp2 & Hcb1 & Hcb2) Hne H0 Hdue Hnot HM.
  destruct s as [[hd tl rt cmp] gt h f]. simpl in *. subst hd tl rt cmp.
  unfold timer_increment_tick. rewrite wrap64_small by (simpl; lia).
  cbn [timer_queue global_ticks heap fired].
  set (q := {| head := Some t1; tail := Some t2; root := Some t1;
               compare := Some timer_compare |}).
  destruct (pq_pop_two_or_more q h t1 t2 tm2) as (m' & Epop & H2' & _ & Hfr);
    try done.
  { intros p. by rewrite Hpv2. }
  rewrite Hpv2 in Epop, Hfr.
  assert (H1' : m' !! t1 = Some tm1) by (rewrite Hfr; done).
  destruct (callback tm1) as [cb1|] eqn:Ecb1; [|done].
  erewrite drain_step_due; [|reflexivity|exact H1|simpl; lia].
  erewrite expire_one_shot_from_pop; [|exact Epop|exact H1'|done..].
  rewrite bind_Done.
  erewrite drain_stop_not_due; [|reflexivity|exact H2'|simpl; lia].
  rewrite bind_Done. cbn [timer_queue global_ticks heap fired].
  erewrite pq_reorder_settled;
    [|done|reflexivity|
      by eapply pick_largest_no_neighbours; [exact H2'|..]].
  rewrite bind_Done.
  eexists. split; [reflexivity|]. split; [|done].
  repeat split. eexists. split; [exact H2'|]. by repeat split.
Qed.

Lemma orphan_root_idle fuel (k : nat) t1 t2 e2 s :
  orphan_root t1 t2 e2 s → 0 ≤ global_ticks s →
  global_ticks s + Z.of_nat k < e2 →
  global_ticks s + Z.of_nat k < UINT64_MOD →
  run_ticks (S fuel) k s
  = Done {| timer_queue := timer_queue s;
            global_ticks := global_ticks s + Z.of_nat k;
            heap := heap s; fired := fired s |}.
Proof.
  intros (Hh & Htl & Hr & tm2 & H2 & Hnx & Hpv & He2 & _) H0 Hlt HM.
  apply (run_ticks_idle_settled fuel k s t2 tm2); try done; try lia.
  - congruence.
  - by apply (pick_largest_no_neighbours _ _ t2 tm2).
Qed.

(** With head set and tail null, the tick on which the root is due
    dereferences the null tail in [pq_pop]. *)
Lemma orphan_root_faults fuel t1 t2 e2 s :
  orphan_root t1 t2 e2 s → 0 ≤ global_ticks s →
  e2 ≤ global_ticks s + 1 → global_ticks s + 1 < UINT64_MOD →
  timer_increment_tick (S fuel) s = Fault.
Proof.
  intros (Hh & Htl & Hr & tm2 & H2 & Hnx & Hpv & He2 & _) H0 Hdue HM.
  destruct s as [[hd tl rt cmp] gt h f]. simpl in *. subst hd tl rt.
  unfold timer_increment_tick. rewrite wrap64_small by (simpl; lia).
  cbn [timer_queue global_ticks heap fired].
  erewrite drain_step_due; [|reflexivity|exact H2|simpl; lia].
  unfold expire, pq_pop. cbn [timer_queue heap head tail root].
  by rewrite decide_False.
Qed.

(** Two one-shot timers armed on an empty queue, the second for more ticks
    than the first ([a < b]).  The first fires on time, at counter + [a];
    nothing else fires up to tick [b - 1]; the call of
    [timer_increment_tick] number [b], on which the second timer is due,
    dereferences a null [tail] pointer in [pq_pop]. *)
Theorem later_deadline_armed_second_faults
  (fuel : nat) (t1 t2 : nat) (a b : Z) (s : timer_module) (tm1 tm2 : timer) :
  head (timer_queue s) = None →
  compare (timer_queue s) = Some timer_compare →
  t1 ≠ t2 → heap s !! t1 = Some tm1 → heap s !! t2 = Some tm2 →
  callback tm1 ≠ None → callback tm2 ≠ None →
  0 ≤ global_ticks s → 1 ≤ a → a < b → global_ticks s + b < UINT64_MOD →
  ∃ s1 s2 s3,
    timer_start (S (S fuel)) t1 a false s = Done s1 ∧
    timer_start (S (S fuel)) t2 b false s1 = Done s2 ∧
    run_ticks (S (S fuel)) (Z.to_nat b - 1) s2 = Done s3 ∧
    fired s3 = (t1, global_ticks s + a) :: fired s ∧
    timer_increment_tick (S (S fuel)) s3 = Fault ∧
    run_ticks (S (S fuel)) (Z.to_nat b) s2 = Fault.
Proof.
  intros Hh Hc Hne H1 H2 Hcb1 Hcb2 H0 Ha Hab HM.
  destruct (timer_start_first (S fuel) t1 a s tm1)
    as (s1 & E1 & Hs1 & Hc1 & Hg1 & Hf1 & Hfr1); try done.
  rewrite wrap64_small in Hs1 by lia.
  destruct (timer_start_second fuel t1 t2 (global_ticks s + a) b s1 tm2)
    as (s2 & E2 & Hg2 & Hf2 & _ & Hsw); try done.
  { congruence. }
  { rewrite Hfr1 by done. exact H2. }
  rewrite Hg1, wrap64_small in Hsw by lia.
  specialize (Hsw ltac:(lia)).
  pose proof (swapped_pair_idle (S fuel) (Z.to_nat a - 1) _ _ _ _ _ Hsw)
    as Eidle.
  rewrite Hg2, Hg1 in Eidle.
  specialize (Eidle H0 ltac:(lia) ltac:(lia)).
  destruct (swapped_pair_fires fuel t1 t2 (global_ticks s + a)
              (global_ticks s + b)
              {| timer_queue := timer_queue s2;
                 global_ticks := global_ticks s + Z.of_nat (Z.to_nat a - 1);
                 heap := heap s2; fired := fired s2 |})
    as (sa & Ea & Hor & Hga & Hfa);
    [by apply swapped_pair_frame|done|simpl; lia..|].
  simpl in Hga, Hfa.
  pose proof (orphan_root_idle (S fuel) (Z.to_nat (b - a) - 1) _ _ _ _ Hor)
    as Eidle2.
  rewrite Hga in Eidle2. specialize (Eidle2 ltac:(lia) ltac:(lia) ltac:(lia)).
  set (s3 := {| timer_queue := timer_queue sa;
                global_ticks := global_ticks s
                                + Z.of_nat (Z.to_nat a - 1) + 1
                                + Z.of_nat (Z.to_nat (b - a) - 1);
                heap := heap sa; fired := fired sa |}) in *.
  assert (Efault : timer_increment_tick (S (S fuel)) s3 = Fault).
  { apply (orphan_root_faults _ t1 t2 (global_ticks s + b));
      [by apply orphan_root_frame|simpl; lia..]. }
  assert (Erun : run_ticks (S (S fuel)) (Z.to_nat b - 1) s2 = Done s3).
  { replace (Z.to_nat b - 1)%nat
      with ((Z.to_nat a - 1) + (1 + (Z.to_nat (b - a) - 1)))%nat by lia.
    rewrite run_ticks_app, Eidle, bind_Done.
    rewrite run_ticks_app. simpl (run_ticks _ 1 _).
    rewrite Ea, !bind_Done. exact Eidle2. }
  exists s1, s2, s3.
  split; [exact E1|]. split; [exact E2|]. split; [exact Erun|].
  split.
  { simpl. rewrite Hfa, Hf2, Hf1. do 2 f_equal. lia. }
  split; [exact Efault|].
  replace (Z.to_nat b) with ((Z.to_nat b - 1) + 1)%nat by lia.
  rewrite run_ticks_app, Erun, bind_Done. simpl run_ticks.
  by rewrite Efault.
Qed.

Lemma later_deadline_armed_second_faults_witness :
  ∃ s1 s2 s3,
    timer_start 2 1 1 false registered = Done s1 ∧
    timer_start 2 2 10 false s1 = Done s2 ∧
    run_ticks 2 (Z.to_nat 10 - 1) s2 = Done s3 ∧
    fired s3 = (1%nat, global_ticks registered + 1) :: fired registered ∧
    timer_increment_tick 2 s3 = Fault ∧
    run_ticks 2 (Z.to_nat 10) s2 = Fault.
Proof.
  apply (later_deadline_armed_second_faults 0 1 2 1 10 registered
           (record 0 0) (record 0 0)); try reflexivity; try discriminate;
    lia.
Defined.

(** ** ping_pong_buffer.h: what a read returns *)
Module PingPongFacts.
Import PingPong.

Lemma copy_bytes_from (n : nat) : ∀ (from : nat) (src dst : list Z),
  (from + n ≤ length src)%nat → (from + n ≤ length dst)%nat →
  copy_bytes n from src dst
  = Done (take from dst ++ take n (drop from src) ++ drop (from + n) dst).
Proof.
  induction n as [|n IH]; intros from src dst Hs Hd.
  - simpl. by rewrite Nat.add_0_r, take_drop.
  - simpl. destruct (src !! from) as [b|] eqn:Eb.
    2:{ apply lookup_ge_None in Eb. lia. }
    rewrite decide_True by lia.
    rewrite IH by (rewrite ?length_insert; lia). f_equal.
    rewrite (take_S_r _ from b) by (apply list_lookup_insert_eq; lia).
    rewrite take_insert_ge by lia.
    rewrite drop_insert_lt by lia.
    rewrite (drop_S src b from Eb). simpl.
    rewrite <- app_assoc. simpl.
    by replace (from + S n)%nat with (S (from + n)) by lia.
Qed.

Lemma copy_bytes_prefix (n : nat) (src dst : list Z) :
  (n ≤ length src)%nat → (n ≤ length dst)%nat →
  copy_bytes n 0 src dst = Done (take n src ++ drop n dst).
Proof. intros. by rewrite copy_bytes_from by lia. Qed.

Lemma write_ok (ppb : ping_pong_buffer) (data bw : list Z) (len : Z) :
  write_index ppb ≠ read_index ppb → len ≤ size ppb →
  buffer_at ppb (write_index ppb) = Done bw →
  (Z.to_nat len ≤ length data)%nat → (Z.to_nat len ≤ length bw)%nat →
  ping_pong_buffer_write ppb data len
  = Done (0, {| buffers :=
                  buffers (set_buffer_at ppb (write_index ppb)
                             (take (Z.to_nat len) data
                              ++ drop (Z.to_nat len) bw));
                size := size ppb;
                write_index := Z.lxor (write_index ppb) 1;
                read_index := read_index ppb |}).
Proof.
  intros Hne Hlen Hbw Hd Hb. unfold ping_pong_buffer_write.
  rewrite decide_False by lia. rewrite decide_False by done.
  rewrite Hbw, bind_Done, copy_bytes_prefix by done. done.
Qed.

Lemma read_ok (ppb : ping_pong_buffer) (dst br : list Z) (len : Z) :
  write_index ppb = read_index ppb → len ≤ size ppb →
  buffer_at ppb (read_index ppb) = Done br →
  (Z.to_nat len ≤ length br)%nat → (Z.to_nat len ≤ length dst)%nat →
  ping_pong_buffer_read ppb dst len
  = Done (0, {| buffers := buffers ppb; size := size ppb;
                write_index := write_index ppb;
                read_index := Z.lxor (read_index ppb) 1 |},
          take (Z.to_nat len) br ++ drop (Z.to_nat len) dst).
Proof.
  intros He Hlen Hbr Hb Hd. unfold ping_pong_buffer_read.
  rewrite decide_False by lia.
  rewrite decide_False by (intros H; by apply H).
  rewrite Hbr, bind_Done, copy_bytes_prefix by done. done.
Qed.

Lemma write_rejected (ppb : ping_pong_buffer) (data : list Z) (len : Z) :
  write_index ppb = read_index ppb → len ≤ size ppb →
  ping_pong_buffer_write ppb data len = Done (- EAGAIN, ppb).
Proof.
  intros He Hlen. unfold ping_pong_buffer_write.
  rewrite decide_False by lia. by rewrite decide_True.
Qed.

Lemma read_rejected (ppb : ping_pong_buffer) (dst : list Z) (len : Z) :
  write_index ppb ≠ read_index ppb → len ≤ size ppb →
  ping_pong_buffer_read ppb dst len = Done (- EAGAIN, ppb, dst).
Proof.
  intros He Hlen. unfold ping_pong_buffer_read.
  rewrite decide_False by lia. by rewrite decide_True.
Qed.

(** A read that follows a write never returns the bytes just written.  In a
    writable state a read is rejected with [-EAGAIN]; a write of [len] bytes
    succeeds, fills the buffer at the write index and leaves the other
    buffer alone; after it a second write is rejected with [-EAGAIN], and a
    read succeeds and copies the first [len2] bytes of the other buffer,
    the one the write did not touch. *)
Theorem read_after_write_returns_other_buffer
  (ppb : ping_pong_buffer) (data dst bw br : list Z) (len len2 : Z) :
  writable ppb →
  buffer_at ppb (write_index ppb) = Done bw →
  buffer_at ppb (read_index ppb) = Done br →
  0 ≤ len ≤ size ppb → 0 ≤ len2 ≤ size ppb →
  (Z.to_nat len ≤ length data)%nat → (Z.to_nat len ≤ length bw)%nat →
  (Z.to_nat len2 ≤ length br)%nat → (Z.to_nat len2 ≤ length dst)%nat →
  ping_pong_buffer_read ppb dst len2 = Done (- EAGAIN, ppb, dst) ∧
  ∃ ppb1 ppb2,
    ping_pong_buffer_write ppb data len = Done (0, ppb1) ∧
    buffer_at ppb1 (write_index ppb)
    = Done (take (Z.to_nat len) data ++ drop (Z.to_nat len) bw) ∧
    buffer_at ppb1 (read_index ppb) = Done br ∧
    (∀ d l, l ≤ size ppb →
            ping_pong_buffer_write ppb1 d l = Done (- EAGAIN, ppb1)) ∧
    ping_pong_buffer_read ppb1 dst len2
    = Done (0, ppb2, take (Z.to_nat len2) br ++ drop (Z.to_nat len2) dst) ∧
    writable ppb2 ∧ write_index ppb2 = read_index ppb ∧
    size ppb2 = size ppb ∧
    (∀ i, buffer_at ppb2 i = buffer_at ppb1 i).
Proof.
  intros Hw Hbw Hbr Hlen Hlen2 Hd Hlw Hlr Hldst.
  assert (Hne : write_index ppb ≠ read_index ppb)
    by (destruct Hw as [[Hwi Hri]|[Hwi Hri]]; rewrite Hwi, Hri; done).
  split; [apply read_rejected; [done|lia]|].
  eexists. eexists.
  split; [apply (write_ok ppb data bw len); done || lia|].
  set (ppb1 := {| buffers := _ |}).
  assert (Hb1w : buffer_at ppb1 (write_index ppb)
                 = Done (take (Z.to_nat len) data ++ drop (Z.to_nat len) bw)).
  { unfold ppb1, buffer_at, set_buffer_at. simpl.
    destruct Hw as [[Hwi Hri]|[Hwi Hri]]; rewrite ?Hwi, ?Hri; reflexivity. }
  assert (Hb1r : buffer_at ppb1 (read_index ppb) = Done br).
  { revert Hbr. unfold ppb1, buffer_at, set_buffer_at. simpl.
    destruct Hw as [[Hwi Hri]|[Hwi Hri]]; rewrite ?Hwi, ?Hri; simpl; done. }
  assert (Hi1 : write_index ppb1 = read_index ppb1).
  { unfold ppb1. simpl.
    destruct Hw as [[Hwi Hri]|[Hwi Hri]]; rewrite ?Hwi, ?Hri; reflexivity. }
  split; [exact Hb1w|]. split; [exact Hb1r|]. split.
  { intros d l Hl. by apply write_rejected. }
  split; [apply (read_ok ppb1 dst br len2); done || (simpl; lia)|].
  simpl. split; [|split; [|split; [done|done]]].
  - unfold writable. simpl.
    destruct Hw as [[Hwi Hri]|[Hwi Hri]]; rewrite ?Hwi, ?Hri;
      [right|left]; done.
  - destruct Hw as [[Hwi Hri]|[Hwi Hri]]; rewrite ?Hwi, ?Hri; done.
Qed.

Lemma read_after_write_returns_other_buffer_witness :
  ∃ ppb1 ppb2,
    ping_pong_buffer_write (ping_pong_buffer_init [0; 0; 0] [9; 9; 9] 3)
      [1; 2; 3] 2 = Done (0, ppb1) ∧
    ping_pong_buffer_read ppb1 [7; 7; 7] 2 = Done (0, ppb2, [9; 9; 7]).
Proof.
  destruct (read_after_write_returns_other_buffer
              (ping_pong_buffer_init [0; 0; 0] [9; 9; 9] 3)
              [1; 2; 3] [7; 7; 7] [0; 0; 0] [9; 9; 9] 2 2)
    as (_ & ppb1 & ppb2 & E1 & _ & _ & _ & E2 & _);
    try reflexivity; try (by left); try (simpl; lia).
  exists ppb1, ppb2. by split.
Defined.

(** Reads run one write behind.  From a writable state, write [d1], read,
    write [d2], read: the second read returns the bytes of [d1] (the first
    read returned what the other buffer held before), and the indices are
    back where they started. *)
Theorem read_returns_previous_write
  (ppb : ping_pong_buffer) (d1 d2 dst1 dst2 bw br : list Z) (len : Z) :
  writable ppb →
  buffer_at ppb (write_index ppb) = Done bw →
  buffer_at ppb (read_index ppb) = Done br →
  0 ≤ len ≤ size ppb →
  (Z.to_nat len ≤ length d1)%nat → (Z.to_nat len ≤ length d2)%nat →
  (Z.to_nat len ≤ length bw)%nat → (Z.to_nat len ≤ length br)%nat →
  (Z.to_nat len ≤ length dst1)%nat → (Z.to_nat len ≤ length dst2)%nat →
  ∃ ppb1 ppb2 ppb3 ppb4,
    ping_pong_buffer_write ppb d1 len = Done (0, ppb1) ∧
    ping_pong_buffer_read ppb1 dst1 len
    = Done (0, ppb2, take (Z.to_nat len) br ++ drop (Z.to_nat len) dst1) ∧
    ping_pong_buffer_write ppb2 d2 len = Done (0, ppb3) ∧
    ping_pong_buffer_read ppb3 dst2 len
    = Done (0, ppb4, take (Z.to_nat len) d1 ++ drop (Z.to_nat len) dst2) ∧
    write_index ppb4 = write_index ppb ∧ read_index ppb4 = read_index ppb.
Proof.
  intros Hw Hbw Hbr Hlen H1 H2 Hlw Hlr Hd1 Hd2.
  destruct (read_after_write_returns_other_buffer ppb d1 dst1 bw br len len)
    as (_ & ppb1 & ppb2 & E1 & Hb1w & Hb1r & _ & E2 & Hw2 & Hi2 & Hsz2 & Hb2);
    try done.
  assert (Hr2 : read_index ppb2 = write_index ppb).
  { destruct Hw2 as [[? ?]|[? ?]], Hw as [[? ?]|[? ?]]; lia. }
  destruct (read_after_write_returns_other_buffer ppb2 d2 dst2 br
              (take (Z.to_nat len) d1 ++ drop (Z.to_nat len) bw) len len)
    as (_ & ppb3 & ppb4 & E3 & _ & _ & _ & E4 & Hw4 & Hi4 & _);
    rewrite ?Hsz2, ?Hi2, ?Hr2, ?Hb2; try done.
  { rewrite length_app, length_take, length_drop. lia. }
  exists ppb1, ppb2, ppb3, ppb4. repeat split; try done.
  - rewrite E4. do 3 f_equal.
    rewrite take_app_le by (rewrite length_take; lia).
    by rewrite take_take, Nat.min_id.
  - lia.
  - destruct Hw4 as [[? ?]|[? ?]], Hw2 as [[? ?]|[? ?]],
      Hw as [[? ?]|[? ?]]; lia.
Qed.

Lemma read_returns_previous_write_witness :
  ∃ ppb1 ppb2 ppb3 ppb4,
    ping_pong_buffer_write (ping_pong_buffer_init [0; 0] [9; 9] 2)
      [1; 2] 2 = Done (0, ppb1) ∧
    ping_pong_buffer_read ppb1 [7; 7] 2 = Done (0, ppb2, [9; 9]) ∧
    ping_pong_buffer_write ppb2 [3; 4] 2 = Done (0, ppb3) ∧
    ping_pong_buffer_read ppb3 [7; 7] 2 = Done (0, ppb4, [1; 2]).
Proof.
  destruct (read_returns_previous_write
              (ping_pong_buffer_init [0; 0] [9; 9] 2)
              [1; 2] [3; 4] [7; 7] [7; 7] [0; 0] [9; 9] 2)
    as (ppb1 & ppb2 & ppb3 & ppb4 & E1 & E2 & E3 & E4 & _);
    try reflexivity; try (by left); try (simpl; lia).
  exists ppb1, ppb2, ppb3, ppb4. by repeat split.
Defined.

End PingPongFacts.

(** ** intrusive_list.h *)
Module IntrusiveListFacts.
Import IntrusiveList.

Lemma get_Some (m : gmap nat list_node) a nd :
  m !! a = Some nd → get m a = Done nd.
Proof. intros E. unfold get. by rewrite E. Qed.

Lemma store_prev_Some (m : gmap nat list_node) a nd x :
  m !! a = Some nd →
  store_prev m a x = Done (<[a := {| prev := x; next := next nd |}]> m).
Proof. intros E. unfold store_prev. by rewrite (get_Some _ _ _ E). Qed.

Lemma store_next_Some (m : gmap nat list_node) a nd x :
  m !! a = Some nd →
  store_next m a x = Done (<[a := {| prev := prev nd; next := x |}]> m).
Proof. intros E. unfold store_next. by rewrite (get_Some _ _ _ E). Qed.

Lemma linked_nil (m : gmap nat list_node) : linked m [].
Proof. intros i x E. by rewrite lookup_nil in E. Qed.

Lemma linked_lookup (m : gmap nat list_node) xs i x :
  linked m xs → xs !! i = Some x →
  get m x = Done {| prev := match i with O => None | S j => xs !! j end;
                    next := xs !! S i |}.
Proof. intros L E. apply get_Some. by apply L. Qed.

Lemma next_or_null_linked (m : gmap nat list_node) xs i :
  linked m xs → next_or_null m (xs !! i) = Done (xs !! S i).
Proof.
  intros L. destruct (xs !! i) as [x|] eqn:E; simpl.
  - by rewrite (linked_lookup _ _ _ _ L E).
  - apply lookup_ge_None in E. symmetry. f_equal.
    apply lookup_ge_None. lia.
Qed.

(** The loop with the recording body walks the rest of the chain. *)
Lemma loop_visit (m : gmap nat list_node) xs :
  linked m xs →
  ∀ fuel i seen, (length xs - i < fuel)%nat →
    for_each_safe_loop fuel visit (xs !! i) (xs !! S i) seen m
    = Done (seen ++ drop i xs, m).
Proof.
  intros L. induction fuel as [|fuel IH]; intros i seen Hf; [lia|].
  simpl. destruct (xs !! i) as [x|] eqn:E.
  - pose proof (lookup_lt_Some _ _ _ E).
    unfold visit at 1. simpl.
    rewrite (next_or_null_linked _ _ (S i) L). simpl.
    rewrite IH by lia.
    rewrite (drop_S _ _ _ E). by rewrite <- app_assoc.
  - apply lookup_ge_None in E. by rewrite drop_ge, app_nil_r by lia.
Qed.

Lemma traversal_of_held (lst : list_head) (m : gmap nat list_node) xs fuel :
  holds lst m xs → (length xs < fuel)%nat →
  list_for_each_safe fuel visit lst [] m = Done (xs, m).
Proof.
  intros (Hh & _ & _ & L) Hf. unfold list_for_each_safe.
  rewrite Hh, (next_or_null_linked _ _ 0 L). simpl.
  rewrite (loop_visit _ _ L) by lia. by rewrite drop_0.
Qed.

Lemma holds_init (m : gmap nat list_node) : holds list_init m [].
Proof.
  repeat split; simpl; [constructor | apply linked_nil].
Qed.

Lemma last_Some_lookup (xs : list nat) t :
  last xs = Some t → xs !! pred (length xs) = Some t.
Proof. intros E. by rewrite <- last_lookup. Qed.

Lemma append_holds (lst : list_head) (m : gmap nat list_node) xs n nd :
  holds lst m xs → n ∉ xs → m !! n = Some nd →
  ∃ lst' m', list_append lst n m = Done (lst', m')
    ∧ holds lst' m' (xs ++ [n])
    ∧ (∀ a, is_Some (m' !! a) ↔ is_Some (m !! a)).
Proof.
  intros (Hh & Ht & Hnd & L) Hn En. unfold list_append.
  rewrite (store_next_Some _ _ _ _ En). simpl.
  erewrite store_prev_Some by apply lookup_insert_eq. simpl.
  rewrite insert_insert_eq.
  destruct (last xs) as [t|] eqn:El; rewrite Ht.
  - pose proof (last_Some_lookup _ _ El) as Et.
    assert (t ≠ n) as Htn.
    { intros ->. apply Hn. eapply list_elem_of_lookup_2, Et. }
    pose proof (L _ _ Et) as Lt.
    erewrite store_next_Some
      by (rewrite lookup_insert_ne by done; exact Lt).
    simpl. eexists _, _. split; [reflexivity|]. split.
    + split; [|split; [|split]]; simpl.
      * rewrite Hh. destruct xs; [done|reflexivity].
      * by rewrite last_snoc.
      * apply NoDup_app. split; [done|]. split; [|apply NoDup_singleton].
        intros x Hx ->%list_elem_of_singleton. done.
      * intros i x E.
        destruct (decide (i < length xs)%nat) as [Hi|Hi].
        -- rewrite lookup_app_l in E by done.
           destruct (decide (x = t)) as [->|Hxt].
           ++ pose proof (NoDup_lookup _ _ _ _ Hnd E Et) as ->.
              rewrite lookup_insert_eq. f_equal. f_equal.
              ** destruct (pred (length xs)) as [|j] eqn:Ej; [done|].
                 rewrite lookup_app_l by lia. done.
              ** rewrite lookup_app_r by lia.
                 replace (S (pred (length xs)) - length xs)%nat with O by lia.
                 done.
           ++ assert (x ≠ n) as Hxn.
              { intros ->. apply Hn. eapply list_elem_of_lookup_2, E. }
              rewrite !lookup_insert_ne by done.
              rewrite (L _ _ E). f_equal. f_equal.
              ** destruct i as [|j]; [done|]. rewrite lookup_app_l by lia. done.
              ** assert (S i < length xs)%nat.
                 { destruct (decide (S i < length xs)%nat); [done|].
                   exfalso. apply Hxt.
                   replace (pred (length xs)) with i in Et by lia. congruence. }
                 by rewrite lookup_app_l.
        -- assert (i = length xs) as ->.
           { apply lookup_lt_Some in E. rewrite length_app in E. simpl in E. lia. }
           rewrite lookup_app_r in E by lia. rewrite Nat.sub_diag in E.
           injection E as <-.
           rewrite lookup_insert_ne, lookup_insert_eq by done. f_equal. f_equal.
           ++ rewrite <- El, last_lookup.
              destruct (length xs) as [|j] eqn:Ej.
              ** by destruct xs.
              ** simpl. rewrite lookup_app_l by lia. done.
           ++ symmetry. apply lookup_ge_None. rewrite length_app. simpl. lia.
    + intros a. destruct (decide (a = t)) as [->|].
      { rewrite lookup_insert_eq, Lt. split; intros _; eauto. }
      rewrite lookup_insert_ne by done.
      destruct (decide (a = n)) as [->|].
      { rewrite lookup_insert_eq, En. split; intros _; eauto. }
      by rewrite lookup_insert_ne.
  - apply last_None in El. subst xs. simpl.
    eexists _, _. split; [reflexivity|]. split.
    + split; [|split; [|split]]; simpl; try done.
      * apply NoDup_singleton.
      * intros [|i] x E; [|done].
        injection E as <-. by rewrite lookup_insert_eq.
    + intros a. destruct (decide (a = n)) as [->|].
      { rewrite lookup_insert_eq, En. split; intros _; eauto. }
      by rewrite lookup_insert_ne.
Qed.

Ltac lk :=
  repeat first [ rewrite lookup_insert_eq
               | rewrite lookup_insert_ne by done ];
  first [ eassumption | reflexivity ].

Ltac mstep :=
  cbn [mbind outcome_bind prev next];
  first [ erewrite get_Some by lk
        | erewrite store_prev_Some by lk
        | erewrite store_next_Some by lk ];
  cbn [mbind outcome_bind prev next].

(** What [list_remove] stores, node by node. *)
Lemma remove_spec (m : gmap nat list_node) x p q :
  m !! x = Some {| prev := p; next := q |} →
  (∀ a, p = Some a → a ≠ x ∧ is_Some (m !! a)) →
  (∀ a, q = Some a → a ≠ x ∧ is_Some (m !! a)) →
  (∀ a, p = Some a → q ≠ Some a) →
  ∃ m', list_remove x m = Done m'
    ∧ m' !! x = Some {| prev := None; next := None |}
    ∧ (∀ a nd, p = Some a → m !! a = Some nd →
         m' !! a = Some {| prev := prev nd; next := q |})
    ∧ (∀ a nd, q = Some a → m !! a = Some nd →
         m' !! a = Some {| prev := p; next := next nd |})
    ∧ (∀ a, a ≠ x → p ≠ Some a → q ≠ Some a → m' !! a = m !! a).
Proof.
  intros E Hp Hq Hpq. unfold list_remove. mstep.
  destruct p as [pv|]; destruct q as [nx|].
  - destruct (Hp pv eq_refl) as [Hpx [ndp Ep]].
    destruct (Hq nx eq_refl) as [Hqx [ndn En]].
    assert (pv ≠ nx) as Hne by (intros ->; by apply (Hpq nx)).
    repeat mstep.
    eexists. split; [reflexivity|]. split; [lk|]. split; [|split].
    + intros a nd [= <-] Ea. rewrite Ea in Ep. injection Ep as ->. lk.
    + intros a nd [= <-] Ea. rewrite Ea in En. injection En as ->. lk.
    + intros a Hax Hap Haq.
      assert (pv ≠ a) by congruence. assert (nx ≠ a) by congruence. lk.
  - destruct (Hp pv eq_refl) as [Hpx [ndp Ep]].
    repeat mstep.
    eexists. split; [reflexivity|]. split; [lk|]. split; [|split].
    + intros a nd [= <-] Ea. rewrite Ea in Ep. injection Ep as ->. lk.
    + intros a nd [=].
    + intros a Hax Hap _. assert (pv ≠ a) by congruence. lk.
  - destruct (Hq nx eq_refl) as [Hqx [ndn En]].
    repeat mstep.
    eexists. split; [reflexivity|]. split; [lk|]. split; [|split].
    + intros a nd [=].
    + intros a nd [= <-] Ea. rewrite Ea in En. injection En as ->. lk.
    + intros a Hax _ Haq. assert (nx ≠ a) by congruence. lk.
  - repeat mstep.
    eexists. split; [reflexivity|]. split; [lk|]. split; [|split].
    + intros a nd [=].
    + intros a nd [=].
    + intros a Hax _ _. lk.
Qed.

Lemma linked_prev_next_differ (xs : list nat) i a :
  NoDup xs →
  match i with O => None | S j => xs !! j end = Some a →
  xs !! S i ≠ Some a.
Proof.
  intros Hnd Hp Hq. destruct i as [|j]; [done|].
  pose proof (NoDup_lookup _ _ _ _ Hnd Hp Hq). lia.
Qed.

Lemma remove_linked (m : gmap nat list_node) xs i x :
  NoDup xs → linked m xs → xs !! i = Some x →
  ∃ m', list_remove x m = Done m'
    ∧ linked m' (delete i xs)
    ∧ m' !! x = Some {| prev := None; next := None |}
    ∧ (∀ a, a ∉ xs → m' !! a = m !! a).
Proof.
  intros Hnd L E.
  destruct (remove_spec m x _ _ (L _ _ E)) as (m' & R & Hx & Hp & Hq & Ho).
  - intros a Ea. destruct i as [|j]; [done|]. split.
    + intros ->. pose proof (NoDup_lookup _ _ _ _ Hnd Ea E). lia.
    + rewrite (L _ _ Ea). eauto.
  - intros a Ea. split.
    + intros ->. pose proof (NoDup_lookup _ _ _ _ Hnd Ea E). lia.
    + rewrite (L _ _ Ea). eauto.
  - intros a. by apply linked_prev_next_differ.
  - exists m'. split; [done|]. split; [|split; [done|]].
    + intros k y Ey.
      destruct (decide (k < i)%nat) as [Hk|Hk].
      * rewrite list_lookup_delete_lt in Ey by done.
        assert (y ≠ x) as Hyx.
        { intros ->. pose proof (NoDup_lookup _ _ _ _ Hnd Ey E). lia. }
        destruct (decide (S k = i)) as [<-|Hki].
        -- rewrite (Hp y _ Ey (L _ _ Ey)). cbn [prev]. f_equal. f_equal.
           ++ destruct k as [|k']; [done|].
              by rewrite list_lookup_delete_lt by lia.
           ++ by rewrite list_lookup_delete_ge by lia.
        -- rewrite Ho, (L _ _ Ey); [| done | |].
           ++ f_equal. f_equal.
              ** destruct k as [|k']; [done|].
                 by rewrite list_lookup_delete_lt by lia.
              ** by rewrite list_lookup_delete_lt by lia.
           ++ destruct i as [|j]; [done|]. intros Ej.
              pose proof (NoDup_lookup _ _ _ _ Hnd Ey Ej). lia.
           ++ intros Ej.
              pose proof (NoDup_lookup _ _ _ _ Hnd Ey Ej). lia.
      * rewrite list_lookup_delete_ge in Ey by lia.
        assert (y ≠ x) as Hyx.
        { intros ->. pose proof (NoDup_lookup _ _ _ _ Hnd Ey E). lia. }
        destruct (decide (k = i)) as [->|Hki].
        -- rewrite (Hq y _ Ey (L _ _ Ey)). cbn [next]. f_equal. f_equal.
           ++ destruct i as [|j]; [done|].
              by rewrite list_lookup_delete_lt by lia.
           ++ by rewrite list_lookup_delete_ge by lia.
        -- rewrite Ho, (L _ _ Ey); [| done | |].
           ++ f_equal. f_equal.
              ** destruct k as [|k']; [lia|].
                 by rewrite list_lookup_delete_ge by lia.
              ** by rewrite list_lookup_delete_ge by lia.
           ++ destruct i as [|j]; [done|]. intros Ej.
              pose proof (NoDup_lookup _ _ _ _ Hnd Ey Ej). lia.
           ++ intros Ej.
              pose proof (NoDup_lookup _ _ _ _ Hnd Ey Ej). lia.
    + intros a Ha. apply Ho.
      * intros ->. apply Ha. eapply list_elem_of_lookup_2, E.
      * destruct i as [|j]; [done|]. intros Ej.
        apply Ha. eapply list_elem_of_lookup_2, Ej.
      * intros Ej. apply Ha. eapply list_elem_of_lookup_2, Ej.
Qed.

(** The loop started at any position of a chain walks the rest of it. *)
Lemma traversal_from (lst : list_head) (m : gmap nat list_node) xs i fuel :
  head lst = xs !! i → linked m xs → (length xs < fuel)%nat →
  list_for_each_safe fuel visit lst [] m = Done (drop i xs, m).
Proof.
  intros Hh L Hf. unfold list_for_each_safe.
  rewrite Hh, (next_or_null_linked _ _ i L). simpl.
  by rewrite (loop_visit _ _ L) by lia.
Qed.

(** The loop with the unlinking body: every node is visited although the
    body clears its links, because the successor was read beforehand. *)
Lemma loop_remove (xs : list nat) :
  ∀ (m : gmap nat list_node) seen fuel,
    NoDup xs → linked m xs → (length xs < fuel)%nat →
    ∃ m', for_each_safe_loop fuel visit_and_remove
            (xs !! 0%nat) (xs !! 1%nat) seen m = Done (seen ++ xs, m')
      ∧ (∀ x, x ∈ xs → m' !! x = Some {| prev := None; next := None |})
      ∧ (∀ a, a ∉ xs → m' !! a = m !! a).
Proof.
  induction xs as [|x rest IH]; intros m seen fuel Hnd L Hf.
  - destruct fuel; [simpl in Hf; lia|]. exists m. simpl.
    rewrite app_nil_r. split; [done|]. split; [|done].
    intros x Hx. by apply elem_of_nil in Hx.
  - destruct fuel; [simpl in Hf; lia|]. simpl in Hf.
    destruct (remove_linked m (x :: rest) 0 x Hnd L eq_refl)
      as (m1 & R & L1 & Hx & Ho).
    simpl in L1. apply NoDup_cons in Hnd as [Hx' Hnd'].
    destruct (IH m1 (seen ++ [x]) fuel Hnd' L1 ltac:(lia))
      as (m' & R' & Hin & Hout).
    exists m'. split; [|split].
    + change ((x :: rest) !! 0%nat) with (Some x).
      change ((x :: rest) !! 1%nat) with (rest !! 0%nat).
      cbn [for_each_safe_loop].
      replace (visit_and_remove x seen m) with (Done (seen ++ [x], m1))
        by (unfold visit_and_remove; by rewrite R).
      cbn [mbind outcome_bind].
      rewrite (next_or_null_linked _ _ 0 L1). cbn [mbind outcome_bind].
      rewrite R'. by rewrite <- app_assoc.
    + intros y [->|Hy]%elem_of_cons.
      * by rewrite Hout.
      * by apply Hin.
    + intros a Ha. rewrite Hout.
      * apply Ho. done.
      * intros Hr. apply Ha. by right.
Qed.

Lemma append_all_holds (ns : list nat) :
  ∀ (lst : list_head) (m : gmap nat list_node) xs,
    holds lst m xs → NoDup (xs ++ ns) →
    (∀ n, n ∈ ns → is_Some (m !! n)) →
    ∃ lst' m', list_append_all lst ns m = Done (lst', m')
      ∧ holds lst' m' (xs ++ ns).
Proof.
  induction ns as [|n ns IH]; intros lst m xs H Hnd Ha.
  - exists lst, m. by rewrite app_nil_r.
  - destruct (Ha n) as [nd En]; [by left|].
    apply NoDup_app in Hnd as Hnd'. destruct Hnd' as (_ & Hd & _).
    destruct (append_holds lst m xs n nd H) as (l1 & m1 & R & H1 & Hdom);
      [|done|].
    { intros Hin. apply (Hd n Hin). by left. }
    destruct (IH l1 m1 (xs ++ [n]) H1) as (l2 & m2 & R2 & H2).
    { by rewrite <- app_assoc. }
    { intros k Hk. apply Hdom, Ha. by right. }
    exists l2, m2. cbn [list_append_all]. rewrite R. cbn [mbind outcome_bind].
    rewrite R2. by rewrite <- app_assoc in H2.
Qed.

Lemma prepend_holds (lst : list_head) (m : gmap nat list_node) xs n nd :
  holds lst m xs → n ∉ xs → m !! n = Some nd →
  ∃ lst' m', list_prepend lst n m = Done (lst', m')
    ∧ holds lst' m' (n :: xs).
Proof.
  intros (Hh & Ht & Hnd & L) Hn En. unfold list_prepend. do 2 mstep.
  rewrite insert_insert_eq. rewrite Hh.
  destruct xs as [|h rest].
  - simpl. eexists _, _. split; [reflexivity|].
    split; [|split; [|split]]; simpl; try done.
    + apply NoDup_singleton.
    + intros [|i] x E; [|done]. injection E as <-. lk.
  - change ((h :: rest) !! 0%nat) with (Some h).
    assert (h ≠ n) as Hhn by (intros ->; apply Hn; by left).
    pose proof (L 0%nat h eq_refl) as Lh.
    mstep. eexists _, _. split; [reflexivity|].
    split; [|split; [|split]]; cbn [head tail].
    + done.
    + rewrite Ht. done.
    + by apply NoDup_cons.
    + intros [|[|k]] x E.
      * injection E as <-. lk.
      * injection E as <-. lk.
      * change (rest !! k = Some x) in E.
        assert (x ≠ h) as Hxh.
        { intros ->. apply NoDup_cons in Hnd as [Hnd _]. apply Hnd.
          eapply list_elem_of_lookup_2, E. }
        assert (x ≠ n) as Hxn.
        { intros ->. apply Hn. right. eapply list_elem_of_lookup_2, E. }
        rewrite !lookup_insert_ne by done.
        by rewrite (L (S k) x E).
Qed.

Lemma lookup_insert_at_lt (xs : list nat) i new k :
  (k < i ≤ length xs)%nat → insert_at i new xs !! k = xs !! k.
Proof.
  intros Hk. unfold insert_at.
  rewrite lookup_app_l by (rewrite length_take; lia).
  by rewrite lookup_take_lt by lia.
Qed.

Lemma lookup_insert_at_eq (xs : list nat) i new :
  (i ≤ length xs)%nat → insert_at i new xs !! i = Some new.
Proof.
  intros Hk. unfold insert_at.
  rewrite lookup_app_r by (rewrite length_take; lia).
  rewrite length_take. by replace (i - i `min` length xs)%nat with O by lia.
Qed.

Lemma lookup_insert_at_gt (xs : list nat) i new k :
  (i ≤ k)%nat → (i ≤ length xs)%nat → insert_at i new xs !! S k = xs !! k.
Proof.
  intros Hk Hi. unfold insert_at.
  rewrite lookup_app_r by (rewrite length_take; lia).
  rewrite length_take.
  replace (S k - i `min` length xs)%nat with (S (k - i)) by lia.
  cbn [lookup list_lookup]. change (drop i xs !! (k - i)%nat = xs !! k).
  rewrite lookup_drop. f_equal. lia.
Qed.

(** A memory that differs from a chained one as the two insert routines
    leave it is chained with the new node at position [i]. *)
Lemma insert_linked (m m' : gmap nat list_node) xs i new :
  NoDup xs → linked m xs → new ∉ xs → (i ≤ length xs)%nat →
  m' !! new = Some {| prev := match i with O => None | S j => xs !! j end;
                      next := xs !! i |} →
  (∀ j a nd, i = S j → xs !! j = Some a → m !! a = Some nd →
     m' !! a = Some {| prev := prev nd; next := Some new |}) →
  (∀ a nd, xs !! i = Some a → m !! a = Some nd →
     m' !! a = Some {| prev := Some new; next := next nd |}) →
  (∀ j a, xs !! j = Some a → S j ≠ i → j ≠ i → m' !! a = m !! a) →
  linked m' (insert_at i new xs).
Proof.
  intros Hnd L Hn Hi Hnew Hpv Hnx Ho k y E.
  destruct (decide (k < i)%nat) as [Hk|Hk].
  - rewrite lookup_insert_at_lt in E by lia.
    destruct (decide (S k = i)) as [Hki|Hki].
    + rewrite (Hpv k y _ (eq_sym Hki) E (L _ _ E)). cbn [prev]. subst i.
      rewrite lookup_insert_at_eq by lia. f_equal. f_equal.
      destruct k as [|k']; [done|]. by rewrite lookup_insert_at_lt by lia.
    + rewrite (Ho k y E) by lia. rewrite (L _ _ E). f_equal. f_equal.
      * destruct k as [|k']; [done|]. by rewrite lookup_insert_at_lt by lia.
      * by rewrite lookup_insert_at_lt by lia.
  - destruct (decide (k = i)) as [->|Hki].
    + rewrite lookup_insert_at_eq in E by lia. injection E as <-.
      rewrite Hnew. f_equal. f_equal.
      * destruct i as [|j]; [done|]. by rewrite lookup_insert_at_lt by lia.
      * by rewrite lookup_insert_at_gt by lia.
    + destruct k as [|k']; [lia|].
      rewrite lookup_insert_at_gt in E by lia.
      destruct (decide (k' = i)) as [->|Hk'].
      * rewrite (Hnx y _ E (L _ _ E)). cbn [next]. f_equal. f_equal.
        -- by rewrite lookup_insert_at_eq by lia.
        -- by rewrite lookup_insert_at_gt by lia.
      * rewrite (Ho k' y E) by lia. rewrite (L _ _ E). f_equal. f_equal.
        -- destruct k' as [|k'']; [lia|].
           by rewrite lookup_insert_at_gt by lia.
        -- by rewrite lookup_insert_at_gt by lia.
Qed.

Lemma insert_after_linked (m : gmap nat list_node) xs i node new nd :
  NoDup xs → linked m xs → xs !! i = Some node → new ∉ xs →
  m !! new = Some nd →
  ∃ m', list_insert_after node new m = Done m'
    ∧ linked m' (insert_at (S i) new xs).
Proof.
  intros Hnd L E Hn En.
  pose proof (L _ _ E) as Enode.
  pose proof (lookup_lt_Some _ _ _ E) as Hlt.
  assert (node ≠ new) as Hne.
  { intros ->. apply Hn. eapply list_elem_of_lookup_2, E. }
  unfold list_insert_after. do 4 mstep. rewrite insert_insert_eq.
  destruct (xs !! S i) as [nx|] eqn:Ex.
  - assert (nx ≠ new) as Hnx.
    { intros ->. apply Hn. eapply list_elem_of_lookup_2, Ex. }
    assert (nx ≠ node) as Hnn.
    { intros ->. pose proof (NoDup_lookup _ _ _ _ Hnd E Ex). lia. }
    pose proof (L _ _ Ex) as Enx.
    do 2 mstep. eexists. split; [reflexivity|].
    apply (insert_linked m); try done; try lia.
    + rewrite E, Ex. lk.
    + intros j a nda [= <-] Ea Em.
      rewrite Ea in E. injection E as ->.
      rewrite Em in Enode. injection Enode as ->. lk.
    + intros a nda Ea Em. rewrite Ea in Ex. injection Ex as ->.
      rewrite Em in Enx. injection Enx as ->. lk.
    + intros j a Ea Hj1 Hj2.
      assert (a ≠ node).
      { intros ->. pose proof (NoDup_lookup _ _ _ _ Hnd E Ea). lia. }
      assert (a ≠ nx).
      { intros ->. pose proof (NoDup_lookup _ _ _ _ Hnd Ex Ea). lia. }
      assert (a ≠ new).
      { intros ->. apply Hn. eapply list_elem_of_lookup_2, Ea. }
      lk.
  - mstep. eexists. split; [reflexivity|].
    apply (insert_linked m); try done; try lia.
    + rewrite E, Ex. lk.
    + intros j a nda [= <-] Ea Em.
      rewrite Ea in E. injection E as ->.
      rewrite Em in Enode. injection Enode as ->. lk.
    + intros a nda Ea Em. congruence.
    + intros j a Ea Hj1 Hj2.
      assert (a ≠ node).
      { intros ->. pose proof (NoDup_lookup _ _ _ _ Hnd E Ea). lia. }
      assert (a ≠ new).
      { intros ->. apply Hn. eapply list_elem_of_lookup_2, Ea. }
      lk.
Qed.

Lemma insert_before_linked (m : gmap nat list_node) xs i node new nd :
  NoDup xs → linked m xs → xs !! i = Some node → new ∉ xs →
  m !! new = Some nd →
  ∃ m', list_insert_before node new m = Done m'
    ∧ linked m' (insert_at i new xs).
Proof.
  intros Hnd L E Hn En.
  pose proof (L _ _ E) as Enode.
  pose proof (lookup_lt_Some _ _ _ E) as Hlt.
  assert (node ≠ new) as Hne.
  { intros ->. apply Hn. eapply list_elem_of_lookup_2, E. }
  unfold list_insert_before. do 4 mstep. rewrite insert_insert_eq.
  destruct i as [|j].
  - mstep. eexists. split; [reflexivity|].
    apply (insert_linked m); try done; try lia.
    + rewrite E. lk.
    + intros a nda Ea Em. rewrite Ea in E. injection E as ->.
      rewrite Em in Enode. injection Enode as ->. lk.
    + intros j a Ea Hj1 Hj2.
      assert (a ≠ node).
      { intros ->. pose proof (NoDup_lookup _ _ _ _ Hnd E Ea). lia. }
      assert (a ≠ new).
      { intros ->. apply Hn. eapply list_elem_of_lookup_2, Ea. }
      lk.
  - destruct (xs !! j) as [pv|] eqn:Ep;
      [|apply lookup_ge_None in Ep; lia].
    assert (pv ≠ new) as Hpn.
    { intros ->. apply Hn. eapply list_elem_of_lookup_2, Ep. }
    assert (pv ≠ node) as Hpp.
    { intros ->. pose proof (NoDup_lookup _ _ _ _ Hnd E Ep). lia. }
    pose proof (L _ _ Ep) as Epv.
    do 2 mstep. eexists. split; [reflexivity|].
    apply (insert_linked m); try done; try lia.
    + rewrite E, Ep. lk.
    + intros j' a nda [= <-] Ea Em.
      rewrite Ea in Ep. injection Ep as ->.
      rewrite Em in Epv. injection Epv as ->. lk.
    + intros a nda Ea Em. rewrite Ea in E. injection E as ->.
      rewrite Em in Enode. injection Enode as ->. lk.
    + intros k a Ea Hj1 Hj2.
      assert (a ≠ node).
      { intros ->. pose proof (NoDup_lookup _ _ _ _ Hnd E Ea). lia. }
      assert (a ≠ pv).
      { intros ->. pose proof (NoDup_lookup _ _ _ _ Hnd Ep Ea). lia. }
      assert (a ≠ new).
      { intros ->. apply Hn. eapply list_elem_of_lookup_2, Ea. }
      lk.
Qed.

Lemma holds_chain3 : holds list3 chain3 [1; 2; 3]%nat.
Proof.
  split; [done|]. split; [done|]. split.
  - apply (bool_decide_unpack _). by vm_compute.
  - intros [|[|[|k]]] x E; try done; injection E as <-; by vm_compute.
Qed.

Lemma chain3_allocated (n : nat) :
  n ∈ [2; 4; 1; 3]%nat → is_Some (chain3 !! n).
Proof.
  intros Hn.
  repeat (apply elem_of_cons in Hn as [-> | Hn]; [vm_compute; by eauto|]).
  by apply elem_of_nil in Hn.
Qed.

(** Nodes appended to an initialised list with [list_append] come
    back in the order of the calls.  For distinct nodes [ns] of caller
    memory, whatever their link fields held before, the calls succeed,
    [list_peek_head] gives the first node of [ns], [list_is_empty] tells
    whether [ns] is empty, and a [list_for_each_safe] loop visits exactly
    [ns], first appended first. *)
Theorem list_append_order (m : gmap nat list_node) (ns : list nat)
  (fuel : nat) :
  NoDup ns → (∀ n, n ∈ ns → is_Some (m !! n)) → (length ns < fuel)%nat →
  ∃ lst' m',
    list_append_all list_init ns m = Done (lst', m')
    ∧ list_peek_head lst' = ns !! 0%nat
    ∧ list_is_empty lst' = bool_decide (ns = [])
    ∧ list_for_each_safe fuel visit lst' [] m' = Done (ns, m').
Proof.
  intros Hnd Ha Hf.
  destruct (append_all_holds ns list_init m [] (holds_init m) Hnd Ha)
    as (lst' & m' & R & H).
  simpl in H. exists lst', m'. split; [done|].
  pose proof H as (Hh & _). split; [done|]. split.
  - unfold list_is_empty. rewrite Hh. by destruct ns.
  - by apply traversal_of_held.
Qed.

Lemma list_append_order_witness :
  ∃ lst' m',
    list_append_all list_init [2; 4; 1; 3]%nat chain3 = Done (lst', m')
    ∧ list_peek_head lst' = Some 2%nat
    ∧ list_is_empty lst' = false
    ∧ list_for_each_safe 5 visit lst' [] m' = Done ([2; 4; 1; 3]%nat, m').
Proof.
  apply (list_append_order chain3 [2; 4; 1; 3]%nat 5).
  - apply (bool_decide_unpack _). by vm_compute.
  - apply chain3_allocated.
  - simpl. lia.
Defined.

(** On a list that holds the nodes [xs], [list_append] of a node
    that is not in it puts the node last and [list_prepend] puts it first;
    both leave a list whose head, tail and links agree with the new order,
    so the two can be mixed freely. *)
Theorem list_append_and_prepend_keep_list (lst : list_head)
  (m : gmap nat list_node) (xs : list nat) (n : nat) :
  holds lst m xs → n ∉ xs → is_Some (m !! n) →
  (∃ lst' m', list_append lst n m = Done (lst', m')
     ∧ holds lst' m' (xs ++ [n]))
  ∧ (∃ lst' m', list_prepend lst n m = Done (lst', m')
       ∧ holds lst' m' (n :: xs) ∧ list_peek_head lst' = Some n).
Proof.
  intros H Hn [nd En]. split.
  - destruct (append_holds lst m xs n nd H Hn En) as (l' & m' & R & H' & _).
    by exists l', m'.
  - destruct (prepend_holds lst m xs n nd H Hn En) as (l' & m' & R & H').
    exists l', m'. split; [done|]. split; [done|].
    unfold list_peek_head. by destruct H' as [-> _].
Qed.

Lemma list_append_and_prepend_keep_list_witness :
  (∃ lst' m', list_append list3 4 chain3 = Done (lst', m')
     ∧ holds lst' m' [1; 2; 3; 4]%nat)
  ∧ (∃ lst' m', list_prepend list3 4 chain3 = Done (lst', m')
       ∧ holds lst' m' [4; 1; 2; 3]%nat ∧ list_peek_head lst' = Some 4%nat).
Proof.
  apply (list_append_and_prepend_keep_list list3 chain3 [1; 2; 3]%nat 4).
  - apply holds_chain3.
  - apply (bool_decide_unpack _). by vm_compute.
  - vm_compute. by eauto.
Defined.

Lemma length_insert_at (xs : list nat) i new :
  (i ≤ length xs)%nat → length (insert_at i new xs) = S (length xs).
Proof.
  intros Hi. unfold insert_at.
  rewrite length_app, length_take. simpl. rewrite length_drop. lia.
Qed.

Lemma NoDup_insert_at (xs : list nat) i new :
  NoDup xs → new ∉ xs → NoDup (insert_at i new xs).
Proof.
  intros Hnd Hn. unfold insert_at. rewrite <- Permutation_middle.
  rewrite take_drop. by apply NoDup_cons.
Qed.

(** Neither insert routine is given the list, so its head and tail keep
    naming the old end nodes: the list agrees with the new order exactly
    when the node went strictly inside. *)
Lemma holds_insert_at (lst : list_head) (m m' : gmap nat list_node)
  xs i new :
  holds lst m xs → linked m' (insert_at i new xs) → new ∉ xs →
  (i ≤ length xs)%nat →
  holds lst m' (insert_at i new xs) ↔ (0 < i < length xs)%nat.
Proof.
  intros (Hh & Ht & Hnd & L) L' Hn Hi. split.
  - intros (Hh' & Ht' & _ & _). split.
    + destruct i as [|j]; [|lia]. exfalso. apply Hn.
      rewrite lookup_insert_at_eq in Hh' by lia. rewrite Hh in Hh'.
      eapply list_elem_of_lookup_2, Hh'.
    + destruct (decide (i = length xs)) as [->|]; [|lia]. exfalso. apply Hn.
      rewrite last_lookup, length_insert_at in Ht' by lia. simpl in Ht'.
      rewrite lookup_insert_at_eq in Ht' by lia. rewrite Ht in Ht'.
      by apply last_Some_elem_of.
  - intros [H0 H1]. split; [|split; [|split]].
    + by rewrite lookup_insert_at_lt by lia.
    + rewrite Ht, !last_lookup, length_insert_at by lia.
      destruct (length xs) as [|k] eqn:Ek; [lia|]. simpl.
      by rewrite lookup_insert_at_gt by lia.
    + by apply NoDup_insert_at.
    + done.
Qed.

(** [list_remove] unlinks a node of a list: the node's two links
    are cleared, its neighbours are joined, and memory outside the list is
    untouched.  The routine is not given the list, so [list->head] is not
    moved: after the first node was removed a [list_for_each_safe] loop
    still starts at it and visits nothing else; after any other node was
    removed the loop visits the remaining nodes in order.  For a node
    strictly inside, head and tail still agree with the remaining nodes. *)
Theorem list_remove_unlinks_node (lst : list_head) (m : gmap nat list_node)
  (xs : list nat) (i x fuel : nat) :
  holds lst m xs → xs !! i = Some x → (length xs < fuel)%nat →
  ∃ m', list_remove x m = Done m'
    ∧ m' !! x = Some {| prev := None; next := None |}
    ∧ (∀ a, a ∉ xs → m' !! a = m !! a)
    ∧ list_for_each_safe fuel visit lst [] m'
      = Done (match i with O => [x] | S _ => delete i xs end, m')
    ∧ ((0 < i)%nat → (S i < length xs)%nat → holds lst m' (delete i xs)).
Proof.
  intros (Hh & Ht & Hnd & L) E Hf.
  destruct (remove_linked m xs i x Hnd L E) as (m' & R & L' & Hx & Ho).
  pose proof (lookup_lt_Some _ _ _ E) as Hlt.
  exists m'. split; [done|]. split; [done|]. split; [done|]. split.
  - destruct i as [|j].
    + apply (traversal_from lst m' [x] 0).
      * rewrite Hh, E. done.
      * intros [|k] y Ey; [|done]. injection Ey as <-. done.
      * simpl. lia.
    + rewrite <- (drop_0 (delete (S j) xs)) at 1.
      apply (traversal_from lst m' (delete (S j) xs) 0).
      * rewrite Hh. by rewrite list_lookup_delete_lt by lia.
      * done.
      * rewrite length_delete by eauto. lia.
  - intros H0 H1. split; [|split; [|split]].
    + rewrite Hh. by rewrite list_lookup_delete_lt by lia.
    + rewrite Ht, !last_lookup, length_delete by eauto.
      rewrite list_lookup_delete_ge by lia. f_equal. lia.
    + eapply sublist_NoDup; [done|]. apply sublist_delete.
    + done.
Qed.

Lemma list_remove_unlinks_node_witness :
  ∃ m', list_remove 2 chain3 = Done m'
    ∧ m' !! 2%nat = Some {| prev := None; next := None |}
    ∧ (∀ a, a ∉ [1; 2; 3]%nat → m' !! a = chain3 !! a)
    ∧ list_for_each_safe 4 visit list3 [] m' = Done ([1; 3]%nat, m')
    ∧ ((0 < 1)%nat → (2 < 3)%nat → holds list3 m' [1; 3]%nat).
Proof.
  apply (list_remove_unlinks_node list3 chain3 [1; 2; 3]%nat 1 2 4).
  - apply holds_chain3.
  - reflexivity.
  - simpl. lia.
Defined.

(** A [list_for_each_safe] loop whose body unlinks the node it is
    given with [list_remove] still visits every node of the list once, in
    order, because the successor is read before the body runs; afterwards
    every node of the list has both links cleared and memory outside the
    list is untouched. *)
Theorem list_for_each_safe_allows_removal (lst : list_head)
  (m : gmap nat list_node) (xs : list nat) (fuel : nat) :
  holds lst m xs → (length xs < fuel)%nat →
  ∃ m', list_for_each_safe fuel visit_and_remove lst [] m = Done (xs, m')
    ∧ (∀ x, x ∈ xs → m' !! x = Some {| prev := None; next := None |})
    ∧ (∀ a, a ∉ xs → m' !! a = m !! a).
Proof.
  intros (Hh & Ht & Hnd & L) Hf.
  destruct (loop_remove xs m [] fuel Hnd L Hf) as (m' & R & Hin & Hout).
  exists m'. split; [|done].
  unfold list_for_each_safe.
  rewrite Hh, (next_or_null_linked _ _ 0 L). cbn [mbind outcome_bind].
  done.
Qed.

Lemma list_for_each_safe_allows_removal_witness :
  ∃ m', list_for_each_safe 4 visit_and_remove list3 [] chain3
        = Done ([1; 2; 3]%nat, m')
    ∧ (∀ x, x ∈ [1; 2; 3]%nat →
         m' !! x = Some {| prev := None; next := None |})
    ∧ (∀ a, a ∉ [1; 2; 3]%nat → m' !! a = chain3 !! a).
Proof.
  apply (list_for_each_safe_allows_removal list3 chain3 [1; 2; 3]%nat 4).
  - apply holds_chain3.
  - simpl. lia.
Defined.

(** [list_insert_after] puts the new node right after the given
    node of a list, so a [list_for_each_safe] loop visits it at that place.
    The routine is not given the list and never moves [list->tail]: head
    and tail agree with the new order exactly when the given node was not
    the last one. *)
Theorem list_insert_after_places_node (lst : list_head)
  (m : gmap nat list_node) (xs : list nat) (i node new fuel : nat) :
  holds lst m xs → xs !! i = Some node → new ∉ xs → is_Some (m !! new) →
  (S (length xs) < fuel)%nat →
  ∃ m', list_insert_after node new m = Done m'
    ∧ list_for_each_safe fuel visit lst [] m'
      = Done (insert_at (S i) new xs, m')
    ∧ (holds lst m' (insert_at (S i) new xs) ↔ (S i < length xs)%nat).
Proof.
  intros H E Hn [nd En] Hf. pose proof H as (Hh & Ht & Hnd & L).
  pose proof (lookup_lt_Some _ _ _ E) as Hlt.
  destruct (insert_after_linked m xs i node new nd Hnd L E Hn En)
    as (m' & R & L').
  exists m'. split; [done|]. split.
  - rewrite <- (drop_0 (insert_at (S i) new xs)) at 1.
    apply (traversal_from lst m' _ 0); [|done|].
    + rewrite Hh. by rewrite lookup_insert_at_lt by lia.
    + rewrite length_insert_at by lia. lia.
  - rewrite (holds_insert_at lst m m' xs (S i) new H L' Hn) by lia. lia.
Qed.

Lemma list_insert_after_places_node_witness :
  ∃ m', list_insert_after 3 4 chain3 = Done m'
    ∧ list_for_each_safe 5 visit list3 [] m'
      = Done (insert_at 3 4 [1; 2; 3]%nat, m')
    ∧ (holds list3 m' (insert_at 3 4 [1; 2; 3]%nat) ↔ (3 < 3)%nat).
Proof.
  apply (list_insert_after_places_node list3 chain3 [1; 2; 3]%nat 2 3 4 5).
  - apply holds_chain3.
  - reflexivity.
  - apply (bool_decide_unpack _). by vm_compute.
  - vm_compute. by eauto.
  - simpl. lia.
Defined.

(** [list_insert_before] puts the new node right before the given
    node of a list.  The routine is not given the list and never moves
    [list->head]: a node put before the first node is linked in front of
    it but a [list_for_each_safe] loop, which starts at [list->head], does
    not visit it; put before any other node it is visited at its place,
    and head and tail agree with the new order. *)
Theorem list_insert_before_places_node (lst : list_head)
  (m : gmap nat list_node) (xs : list nat) (i node new fuel : nat) :
  holds lst m xs → xs !! i = Some node → new ∉ xs → is_Some (m !! new) →
  (S (length xs) < fuel)%nat →
  ∃ m', list_insert_before node new m = Done m'
    ∧ linked m' (insert_at i new xs)
    ∧ list_for_each_safe fuel visit lst [] m'
      = Done (match i with O => xs | S _ => insert_at i new xs end, m')
    ∧ (holds lst m' (insert_at i new xs) ↔ (0 < i)%nat).
Proof.
  intros H E Hn [nd En] Hf. pose proof H as (Hh & Ht & Hnd & L).
  pose proof (lookup_lt_Some _ _ _ E) as Hlt.
  destruct (insert_before_linked m xs i node new nd Hnd L E Hn En)
    as (m' & R & L').
  exists m'. split; [done|]. split; [done|]. split.
  - destruct i as [|j].
    + replace xs with (drop 1 (insert_at 0 new xs)) at 1
        by (unfold insert_at; by rewrite take_0, drop_0).
      apply (traversal_from lst m' _ 1); [|done|].
      * rewrite Hh. by rewrite lookup_insert_at_gt by lia.
      * rewrite length_insert_at by lia. lia.
    + rewrite <- (drop_0 (insert_at (S j) new xs)) at 1.
      apply (traversal_from lst m' _ 0); [|done|].
      * rewrite Hh. by rewrite lookup_insert_at_lt by lia.
      * rewrite length_insert_at by lia. lia.
  - rewrite (holds_insert_at lst m m' xs i new H L' Hn) by lia. lia.
Qed.

Lemma list_insert_before_places_node_witness :
  ∃ m', list_insert_before 1 4 chain3 = Done m'
    ∧ linked m' (insert_at 0 4 [1; 2; 3]%nat)
    ∧ list_for_each_safe 5 visit list3 [] m' = Done ([1; 2; 3]%nat, m')
    ∧ (holds list3 m' (insert_at 0 4 [1; 2; 3]%nat) ↔ (0 < 0)%nat).
Proof.
  apply (list_insert_before_places_node list3 chain3 [1; 2; 3]%nat 0 1 4 5).
  - apply holds_chain3.
  - reflexivity.
  - apply (bool_decide_unpack _). by vm_compute.
  - vm_compute. by eauto.
  - simpl. lia.
Defined.

End IntrusiveListFacts.

(** ** ring_buffer.h *)
Module RingBufferFacts.
Import RingBuffer.

Lemma wrap32_small (z : Z) : 0 ≤ z < 2 ^ 32 → wrap32 z = z.
Proof. intros H. unfold wrap32, UINT32_MOD. by apply Z.mod_small. Qed.

Lemma land_pred_even (a : Z) :
  Z.land (2 * a) (2 * a - 1) = 2 * Z.land a (a - 1).
Proof.
  apply Z.bits_inj'. intros n Hn.
  replace (2 * a - 1) with (2 * (a - 1) + 1) by lia.
  rewrite Z.land_spec.
  destruct (decide (n = 0)) as [->|Hn0].
  - by rewrite !Z.testbit_even_0.
  - replace n with (Z.succ (n - 1)) by lia.
    rewrite Z.testbit_even_succ, Z.testbit_odd_succ, Z.testbit_even_succ
      by lia.
    by rewrite Z.land_spec.
Qed.

Lemma land_pred_odd (a : Z) : Z.land (2 * a + 1) (2 * a + 1 - 1) = 2 * a.
Proof.
  apply Z.bits_inj'. intros n Hn.
  replace (2 * a + 1 - 1) with (2 * a) by lia.
  rewrite Z.land_spec.
  destruct (decide (n = 0)) as [->|Hn0].
  - by rewrite Z.testbit_even_0, andb_false_r.
  - replace n with (Z.succ (n - 1)) by lia.
    rewrite Z.testbit_odd_succ, Z.testbit_even_succ by lia.
    by rewrite andb_diag.
Qed.

Lemma land_le (a c : Z) : 0 ≤ a → Z.land a c ≤ a.
Proof.
  intros Ha.
  assert (Z.ldiff (Z.land a c) a = 0) as E.
  { apply Z.bits_inj'. intros n Hn.
    rewrite Z.ldiff_spec, Z.land_spec, Z.bits_0.
    by destruct (Z.testbit a n), (Z.testbit c n). }
  pose proof (Z.sub_nocarry_ldiff a (Z.land a c) E) as Hs.
  assert (0 ≤ Z.ldiff a (Z.land a c)); [|lia].
  apply Z.ldiff_nonneg. lia.
Qed.

Lemma land_pred_range (v : Z) : 0 < v → 0 ≤ Z.land v (v - 1) < v.
Proof.
  intros Hv. split.
  - apply Z.land_nonneg. lia.
  - rewrite Z.land_comm. pose proof (land_le (v - 1) v). lia.
Qed.

(** The loop on an even number runs as on its half. *)
Lemma round_down_loop_double (fuel : nat) :
  ∀ a, 0 < a → 2 * a < 2 ^ 32 →
    round_down_loop fuel (2 * a)
    = match round_down_loop fuel a with
      | Done r => Done (2 * r)
      | Fault => Fault
      | OutOfFuel => OutOfFuel
      end.
Proof.
  induction fuel as [|fuel IH]; intros a Ha Hb; [done|].
  cbn [round_down_loop].
  rewrite !wrap32_small by lia. rewrite land_pred_even.
  pose proof (land_pred_range a Ha) as Hr.
  destruct (decide (Z.land a (a - 1) = 0)) as [E|E].
  - rewrite decide_True by lia. done.
  - rewrite decide_False by lia. apply IH; lia.
Qed.

Lemma round_down_loop_log2 (n : nat) :
  ∀ v fuel, 0 < v < 2 ^ Z.of_nat n → (n ≤ 32)%nat → (n ≤ fuel)%nat →
    round_down_loop fuel v = Done (2 ^ Z.log2 v).
Proof.
  induction n as [|n IH]; intros v fuel Hv Hn Hf.
  { simpl in Hv. lia. }
  assert (2 ^ Z.of_nat (S n) = 2 * 2 ^ Z.of_nat n) as E2.
  { rewrite Nat2Z.inj_succ, Z.pow_succ_r by lia. done. }
  assert (2 ^ Z.of_nat (S n) ≤ 2 ^ 32) as Hle.
  { apply Z.pow_le_mono_r; lia. }
  destruct (Z.even v) eqn:Ev.
  - apply Z.even_spec in Ev as [a ->].
    rewrite round_down_loop_double by lia.
    rewrite (IH a fuel) by lia.
    rewrite Z.log2_double by lia. rewrite Z.pow_succ_r; [done|].
    apply Z.log2_nonneg.
  - assert (Z.odd v = true) as Ho by (by rewrite <- Z.negb_even, Ev).
    apply Z.odd_spec in Ho as [a ->].
    destruct fuel as [|fuel]; [lia|]. cbn [round_down_loop].
    rewrite wrap32_small by lia. rewrite land_pred_odd.
    destruct (decide (a = 0)) as [->|Ha].
    + by rewrite decide_True by done.
    + rewrite decide_False by lia.
      rewrite round_down_loop_double by lia.
      rewrite (IH a fuel) by lia.
      rewrite Z.log2_succ_double by lia. rewrite Z.pow_succ_r; [done|].
      apply Z.log2_nonneg.
Qed.

Lemma round_down_to_power_of_two_bound (value : Z) (fuel : nat) :
  0 < value < 2 ^ 32 → (32 ≤ fuel)%nat →
  ∃ r, round_down_to_power_of_two fuel value = Done r
    ∧ r = 2 ^ Z.log2 value.
Proof.
  intros Hv Hf. unfold round_down_to_power_of_two.
  rewrite decide_False by lia. eexists. split; [|reflexivity].
  apply (round_down_loop_log2 32); [|done|done].
  change (Z.of_nat 32) with 32. lia.
Qed.

(** [round_down_to_power_of_two] does what its comment says on every
    [uint32_t]: 0 for 0, and for a positive value the largest power of two
    not above it; the loop ends within 32 rounds. *)
Theorem round_down_to_power_of_two_largest (value : Z) (fuel : nat) :
  0 ≤ value < 2 ^ 32 → (32 ≤ fuel)%nat →
  ∃ r, round_down_to_power_of_two fuel value = Done r
    ∧ (value = 0 → r = 0)
    ∧ (0 < value → r = 2 ^ Z.log2 value ∧ r ≤ value < 2 * r).
Proof.
  intros Hv Hf. unfold round_down_to_power_of_two.
  destruct (decide (value = 0)) as [->|Hv0].
  - exists 0. split; [done|]. split; [done|lia].
  - exists (2 ^ Z.log2 value). split.
    + apply (round_down_loop_log2 32); [|done|done].
      change (Z.of_nat 32) with 32. lia.
    + split; [lia|]. intros Hpos. split; [done|].
      pose proof (Z.log2_spec value Hpos) as Hs.
      rewrite Z.pow_succ_r in Hs by apply Z.log2_nonneg. lia.
Qed.

Lemma round_down_to_power_of_two_largest_witness :
  ∃ r, round_down_to_power_of_two 32 100 = Done r
    ∧ (100 = 0 → r = 0)
    ∧ (0 < 100 → r = 2 ^ Z.log2 100 ∧ r ≤ 100 < 2 * r).
Proof.
  apply (round_down_to_power_of_two_largest 100 32); [lia|lia].
Defined.

Lemma sub_mod_cases (s h t : Z) :
  0 ≤ h < s → 0 ≤ t < s →
  (h - t) mod s = if decide (t ≤ h) then h - t else h - t + s.
Proof.
  intros Hh Ht. case_decide.
  - apply Z.mod_small. lia.
  - rewrite <- (Z.mod_small (h - t + s) s) by lia.
    replace (h - t + s) with (h - t + 1 * s) by lia.
    by rewrite Z_mod_plus_full.
Qed.

Lemma add_mod_cases (s t i : Z) :
  0 ≤ t < s → 0 ≤ i < s →
  (t + i) mod s = if decide (t + i < s) then t + i else t + i - s.
Proof.
  intros Ht Hi. case_decide.
  - apply Z.mod_small. lia.
  - rewrite <- (Z.mod_small (t + i - s) s) by lia.
    replace (t + i) with (t + i - s + 1 * s) at 1 by lia.
    by rewrite Z_mod_plus_full.
Qed.

Lemma pow2_le_31 (k : Z) : 0 ≤ k < 32 → 0 < 2 ^ k ≤ 2 ^ 31.
Proof.
  intros Hk. split; [apply Z.pow_pos_nonneg; lia|].
  apply Z.pow_le_mono_r; lia.
Qed.

Lemma mask_ones (rb : ring_buffer) (k : Z) :
  0 ≤ k < 32 → size rb = 2 ^ k → wrap32 (size rb - 1) = Z.ones k.
Proof.
  intros Hk Hs. pose proof (pow2_le_31 k Hk).
  rewrite wrap32_small by lia. rewrite Z.ones_equiv. lia.
Qed.

(** Masking with [s - 1] for a power of two [s] is the step of an index
    that wraps at [s]. *)
Lemma land_mask_cases (s k i : Z) :
  0 ≤ k < 32 → s = 2 ^ k → 0 ≤ i < s →
  Z.land (wrap32 (i + 1)) (wrap32 (s - 1))
  = if decide (i + 1 = s) then 0 else i + 1.
Proof.
  intros Hk Hs Hi. pose proof (pow2_le_31 k Hk).
  rewrite !wrap32_small by lia.
  replace (s - 1) with (Z.ones k) by (rewrite Z.ones_equiv; lia).
  rewrite Z.land_ones by lia. rewrite <- Hs. case_decide as E.
  - rewrite E. apply Z.mod_same. lia.
  - apply Z.mod_small. lia.
Qed.

Lemma advance_cases (rb : ring_buffer) (k i : Z) :
  0 ≤ k < 32 → size rb = 2 ^ k → 0 ≤ i < size rb →
  advance rb i = if decide (i + 1 = size rb) then 0 else i + 1.
Proof. intros Hk Hs Hi. by apply (land_mask_cases _ k). Qed.

Lemma represents_length (rb : ring_buffer) (xs : list Z) :
  represents rb xs → Z.of_nat (length xs) < size rb.
Proof.
  intros (_ & Hh & Ht & _ & Hc & _). rewrite Hc.
  apply Z.mod_pos_bound. lia.
Qed.

Lemma is_full_represents (rb : ring_buffer) (xs : list Z) :
  represents rb xs →
  ring_buffer_is_full rb
  = bool_decide (Z.of_nat (length xs) + 1 = size rb).
Proof.
  intros ((k & Hk & Hs) & Hh & Ht & _ & Hc & _).
  unfold ring_buffer_is_full.
  rewrite (advance_cases rb k _ Hk Hs Hh).
  rewrite sub_mod_cases in Hc by done.
  apply bool_decide_ext. repeat case_decide; lia.
Qed.

Lemma is_empty_represents (rb : ring_buffer) (xs : list Z) :
  represents rb xs → ring_buffer_is_empty rb = bool_decide (xs = []).
Proof.
  intros ((k & Hk & Hs) & Hh & Ht & _ & Hc & _).
  unfold ring_buffer_is_empty.
  rewrite sub_mod_cases in Hc by done.
  apply bool_decide_ext. split.
  - intros E. apply length_zero_iff_nil. case_decide; lia.
  - intros ->. simpl in Hc. case_decide; lia.
Qed.

(** The store and the move of [head] that push and copy share. *)
Lemma store_at_head_represents (rb : ring_buffer) (xs : list Z) (b : Z) :
  represents rb xs → Z.of_nat (length xs) + 1 < size rb →
  ∃ rb', store_at_head rb b = Done rb'
    ∧ represents rb' (xs ++ [b])
    ∧ size rb' = size rb.
Proof.
  intros ((k & Hk & Hs) & Hh & Ht & Hl & Hc & Hb) Hroom.
  unfold store_at_head. rewrite decide_True by lia.
  eexists. split; [reflexivity|]. split; [|done].
  rewrite sub_mod_cases in Hc by done.
  pose proof (advance_cases rb k _ Hk Hs Hh) as Ha.
  split; [by exists k|]. cbn [size head tail buffer].
  split; [rewrite Ha; case_decide; lia|]. split; [done|].
  split; [by rewrite length_insert|]. split.
  - rewrite length_app. cbn [length].
    assert (0 ≤ advance rb (head rb) < size rb) as Hr
      by (rewrite Ha; case_decide; lia).
    rewrite sub_mod_cases by done. rewrite Ha.
    repeat case_decide; lia.
  - intros i Hi. rewrite length_app in Hi. cbn [length] in Hi.
    destruct (decide (i < length xs)%nat) as [Hlt|Hge].
    + rewrite lookup_app_l by done. rewrite <- (Hb i Hlt).
      apply list_lookup_insert_ne.
      rewrite add_mod_cases by lia. repeat case_decide; lia.
    + assert (i = length xs) as -> by lia.
      rewrite lookup_app_r by lia. rewrite Nat.sub_diag. cbn [lookup].
      replace (Z.to_nat ((tail rb + Z.of_nat (length xs)) mod size rb))
        with (Z.to_nat (head rb)).
      * apply list_lookup_insert_eq. lia.
      * f_equal. rewrite add_mod_cases by lia. repeat case_decide; lia.
Qed.

Lemma push_room (rb : ring_buffer) (xs : list Z) (b : Z) :
  represents rb xs → Z.of_nat (length xs) + 1 < size rb →
  ∃ rb', ring_buffer_push rb b = Done (0, rb')
    ∧ represents rb' (xs ++ [b])
    ∧ size rb' = size rb.
Proof.
  intros H Hroom. unfold ring_buffer_push.
  rewrite (is_full_represents rb xs H), bool_decide_eq_false_2 by lia.
  destruct (store_at_head_represents rb xs b H Hroom) as (rb' & R & H' & Hs).
  exists rb'. by rewrite R.
Qed.

Lemma pop_first (rb : ring_buffer) (x : Z) (rest : list Z) (b0 : Z) :
  represents rb (x :: rest) →
  ∃ rb', ring_buffer_pop rb b0 = Done (0, rb', x)
    ∧ represents rb' rest
    ∧ size rb' = size rb.
Proof.
  intros H. unfold ring_buffer_pop.
  rewrite (is_empty_represents rb _ H), bool_decide_eq_false_2 by done.
  destruct H as ((k & Hk & Hs) & Hh & Ht & Hl & Hc & Hb).
  pose proof (Hb 0%nat ltac:(simpl; lia)) as H0.
  rewrite Z.add_0_r, Z.mod_small in H0 by lia. cbn [lookup] in H0.
  change ((x :: rest) !! 0%nat) with (Some x) in H0. rewrite H0.
  eexists. split; [reflexivity|]. split; [|done].
  rewrite sub_mod_cases in Hc by done. cbn [length] in Hc.
  pose proof (advance_cases rb k _ Hk Hs Ht) as Ha.
  split; [by exists k|]. cbn [size head tail buffer].
  split; [done|]. split; [rewrite Ha; case_decide; lia|].
  split; [done|]. split.
  - assert (0 ≤ advance rb (tail rb) < size rb) as Hr
      by (rewrite Ha; case_decide; lia).
    rewrite sub_mod_cases by done. rewrite Ha.
    repeat case_decide; lia.
  - intros i Hi.
    change (rest !! i) with ((x :: rest) !! S i).
    rewrite <- (Hb (S i)) by (simpl; lia).
    f_equal. f_equal. rewrite Ha.
    assert (0 ≤ Z.of_nat i < size rb) by (repeat case_decide; lia).
    assert (0 ≤ Z.of_nat (S i) < size rb) by (repeat case_decide; lia).
    case_decide.
    + rewrite Z.add_0_l, Z.mod_small by lia.
      rewrite add_mod_cases by lia. repeat case_decide; lia.
    + rewrite !add_mod_cases by lia. repeat case_decide; lia.
Qed.

Lemma copy_loop_represents (n : nat) :
  ∀ (i : nat) (stream : list Z) (rb : ring_buffer) (xs : list Z),
    represents rb xs → (i + n ≤ length stream)%nat →
    Z.of_nat (length xs) + Z.of_nat n < size rb →
    ∃ rb', copy_loop n i stream rb = Done rb'
      ∧ represents rb' (xs ++ take n (drop i stream))
      ∧ size rb' = size rb.
Proof.
  induction n as [|n IH]; intros i stream rb xs H Hlen Hroom.
  - exists rb. by rewrite take_0, app_nil_r.
  - destruct (stream !! i) as [b|] eqn:Eb;
      [|apply lookup_ge_None in Eb; lia].
    destruct (store_at_head_represents rb xs b H) as (rb1 & R1 & H1 & Hs1);
      [lia|].
    destruct (IH (S i) stream rb1 (xs ++ [b]) H1) as (rb' & R & H' & Hs');
      [lia| |].
    { rewrite length_app, Hs1. simpl. lia. }
    exists rb'. cbn [copy_loop]. rewrite Eb, R1. cbn [mbind outcome_bind].
    split; [done|]. split; [|congruence].
    rewrite (drop_S _ _ _ Eb). cbn [take]. by rewrite <- app_assoc in H'.
Qed.

Lemma free_space_represents (rb : ring_buffer) (xs : list Z) :
  represents rb xs →
  wrap32 (wrap32 (size rb - Z.land (wrap32 (head rb - tail rb))
                                   (wrap32 (size rb - 1))) - 1)
  = size rb - Z.of_nat (length xs) - 1.
Proof.
  intros H. pose proof (represents_length rb xs H) as Hlt.
  destruct H as ((k & Hk & Hs) & Hh & Ht & _ & Hc & _).
  pose proof (pow2_le_31 k Hk).
  rewrite (mask_ones rb k Hk Hs), Z.land_ones by lia.
  unfold wrap32 at 3, UINT32_MOD.
  rewrite Z.mod_mod_divide.
  - rewrite <- Hs, <- Hc.
    rewrite (wrap32_small (size rb - Z.of_nat (length xs))) by lia.
    by rewrite wrap32_small by lia.
  - exists (2 ^ (32 - k)). rewrite <- Z.pow_add_r by lia. f_equal. lia.
Qed.

Lemma push_all_represents (bs : list Z) :
  ∀ (rb : ring_buffer) (xs : list Z),
    represents rb xs →
    Z.of_nat (length xs) + Z.of_nat (length bs) < size rb →
    ∃ rb', push_all rb bs = Done (0, rb')
      ∧ represents rb' (xs ++ bs)
      ∧ size rb' = size rb.
Proof.
  induction bs as [|b bs IH]; intros rb xs H Hroom.
  - exists rb. by rewrite app_nil_r.
  - cbn [length] in Hroom.
    destruct (push_room rb xs b H) as (rb1 & R1 & H1 & Hs1); [lia|].
    destruct (IH rb1 (xs ++ [b]) H1) as (rb' & R & H' & Hs').
    { rewrite length_app, Hs1. simpl. lia. }
    exists rb'. cbn [push_all]. rewrite R1. cbn [mbind outcome_bind].
    rewrite decide_True by done.
    split; [done|]. split; [|congruence]. by rewrite <- app_assoc in H'.
Qed.

Lemma pop_n_represents (xs : list Z) :
  ∀ (rb : ring_buffer) (ys : list Z),
    represents rb (xs ++ ys) →
    ∃ rb', pop_n (length xs) rb = Done (xs, rb')
      ∧ represents rb' ys
      ∧ size rb' = size rb.
Proof.
  induction xs as [|x xs IH]; intros rb ys H.
  - by exists rb.
  - destruct (pop_first rb x (xs ++ ys) 0 H) as (rb1 & R1 & H1 & Hs1).
    destruct (IH rb1 ys H1) as (rb' & R & H' & Hs').
    exists rb'. cbn [pop_n length]. rewrite R1. cbn [mbind outcome_bind].
    rewrite decide_True by done. rewrite R. cbn [mbind outcome_bind].
    split; [done|]. split; [done|congruence].
Qed.

Lemma represents_ring4 : represents ring4 [7; 8].
Proof.
  split; [exists 2; split; [lia|done]|].
  split; [simpl; lia|]. split; [simpl; lia|]. split; [simpl; lia|].
  split; [done|].
  intros [|[|i]] Hi; [done|done|simpl in Hi; lia].
Qed.

(** [ring_buffer_push] on a ring that holds the bytes [xs]: while
    fewer than [size - 1] bytes are held it returns 0 and the ring holds
    [xs] followed by the byte; with [size - 1] bytes held it returns
    [-ENOBUFS] and changes nothing.  A ring never holds more than
    [size - 1] bytes. *)
Theorem ring_buffer_push_appends (rb : ring_buffer) (xs : list Z) (b : Z) :
  represents rb xs →
  Z.of_nat (length xs) + 1 ≤ size rb
  ∧ (Z.of_nat (length xs) + 1 < size rb →
       ∃ rb', ring_buffer_push rb b = Done (0, rb')
         ∧ represents rb' (xs ++ [b]))
  ∧ (Z.of_nat (length xs) + 1 = size rb →
       ring_buffer_push rb b = Done (- ENOBUFS, rb)).
Proof.
  intros H. pose proof (represents_length rb xs H) as Hlt.
  split; [lia|]. split.
  - intros Hroom.
    destruct (push_room rb xs b H Hroom) as (rb' & R & H' & _).
    by exists rb'.
  - intros Hfull. unfold ring_buffer_push.
    by rewrite (is_full_represents rb xs H), bool_decide_eq_true_2.
Qed.

Lemma ring_buffer_push_appends_witness :
  Z.of_nat (length [7; 8]) + 1 ≤ size ring4
  ∧ (Z.of_nat (length [7; 8]) + 1 < size ring4 →
       ∃ rb', ring_buffer_push ring4 9 = Done (0, rb')
         ∧ represents rb' ([7; 8] ++ [9]))
  ∧ (Z.of_nat (length [7; 8]) + 1 = size ring4 →
       ring_buffer_push ring4 9 = Done (- ENOBUFS, ring4)).
Proof.
  apply (ring_buffer_push_appends ring4 [7; 8] 9). apply represents_ring4.
Defined.

(** [ring_buffer_pop] on a ring that holds the bytes [xs]: on an
    empty ring it returns [-EAGAIN] and leaves the ring and the caller's
    byte alone; otherwise it returns 0, delivers the oldest byte, and the
    ring holds the rest. *)
Theorem ring_buffer_pop_takes_oldest (rb : ring_buffer) (xs : list Z)
  (b0 : Z) :
  represents rb xs →
  match xs with
  | [] => ring_buffer_pop rb b0 = Done (- EAGAIN, rb, b0)
  | x :: rest =>
      ∃ rb', ring_buffer_pop rb b0 = Done (0, rb', x) ∧ represents rb' rest
  end.
Proof.
  intros H. destruct xs as [|x rest].
  - unfold ring_buffer_pop.
    by rewrite (is_empty_represents rb [] H), bool_decide_eq_true_2.
  - destruct (pop_first rb x rest b0 H) as (rb' & R & H' & _).
    by exists rb'.
Qed.

Lemma ring_buffer_pop_takes_oldest_witness :
  ∃ rb', ring_buffer_pop ring4 0 = Done (0, rb', 7) ∧ represents rb' [8].
Proof.
  apply (ring_buffer_pop_takes_oldest ring4 [7; 8] 0). apply represents_ring4.
Defined.

(** [ring_buffer_copy_from_stream] of [len] bytes into a ring that
    holds [xs]: if they fit beside the bytes held (fewer than [size] in
    all) it returns [len] and the ring holds [xs] followed by the first
    [len] bytes of the stream; otherwise it returns [-ENOBUFS] and stores
    nothing. *)
Theorem ring_buffer_copy_from_stream_appends (rb : ring_buffer)
  (xs stream : list Z) (len : Z) :
  represents rb xs → 0 ≤ len ≤ Z.of_nat (length stream) → len < 2 ^ 32 →
  (Z.of_nat (length xs) + len < size rb →
     ∃ rb', ring_buffer_copy_from_stream rb stream len = Done (len, rb')
       ∧ represents rb' (xs ++ take (Z.to_nat len) stream))
  ∧ (size rb ≤ Z.of_nat (length xs) + len →
       ring_buffer_copy_from_stream rb stream len = Done (- ENOBUFS, rb)).
Proof.
  intros H Hlen Hmax. unfold ring_buffer_copy_from_stream.
  rewrite (free_space_represents rb xs H). split.
  - intros Hroom. rewrite decide_False by lia.
    destruct (copy_loop_represents (Z.to_nat len) 0 stream rb xs H)
      as (rb' & R & H' & _); [lia|lia|].
    exists rb'. rewrite R. cbn [mbind outcome_bind]. split; [|done].
    destruct H as ((k & Hk & Hs) & _). pose proof (pow2_le_31 k Hk).
    unfold as_int. by rewrite decide_True by lia.
  - intros Hfull. by rewrite decide_True by lia.
Qed.

Lemma ring_buffer_copy_from_stream_appends_witness :
  (Z.of_nat (length [7; 8]) + 1 < size ring4 →
     ∃ rb', ring_buffer_copy_from_stream ring4 [9; 10] 1 = Done (1, rb')
       ∧ represents rb' ([7; 8] ++ take (Z.to_nat 1) [9; 10]))
  ∧ (size ring4 ≤ Z.of_nat (length [7; 8]) + 1 →
       ring_buffer_copy_from_stream ring4 [9; 10] 1
       = Done (- ENOBUFS, ring4)).
Proof.
  apply (ring_buffer_copy_from_stream_appends ring4 [7; 8] [9; 10] 1).
  - apply represents_ring4.
  - simpl. lia.
  - lia.
Defined.

Lemma init_represents (fuel : nat) (buf : list Z) (sz : Z) :
  0 < sz < 2 ^ 32 → sz ≤ Z.of_nat (length buf) → (32 ≤ fuel)%nat →
  ∃ rb, ring_buffer_init fuel buf sz = Done rb
    ∧ size rb = 2 ^ Z.log2 sz
    ∧ represents rb [].
Proof.
  intros Hsz Hbuf Hf. unfold ring_buffer_init, round_down_to_power_of_two.
  rewrite decide_False by lia.
  rewrite (round_down_loop_log2 32) by (change (Z.of_nat 32) with 32; lia).
  cbn [mbind outcome_bind]. eexists. split; [reflexivity|]. split; [done|].
  pose proof (Z.log2_spec sz ltac:(lia)) as Hs.
  pose proof (Z.log2_nonneg sz) as Hn.
  assert (Z.log2 sz < 32) as Hk by (apply Z.log2_lt_pow2; lia).
  pose proof (pow2_le_31 (Z.log2 sz) ltac:(lia)).
  split; [exists (Z.log2 sz); split; [lia|done]|]. cbn [size head tail buffer].
  split; [lia|]. split; [lia|]. split; [lia|]. split.
  - by rewrite Z.sub_diag, Z.mod_0_l by lia.
  - intros i Hi. simpl in Hi. lia.
Qed.

(** A ring set up by [ring_buffer_init] over a buffer of at least
    [size] bytes uses the largest power of two [s] not above [size]: it
    starts empty, accepts any [n < s] bytes by [ring_buffer_push], is full
    exactly when [n = s - 1], and [n] calls of [ring_buffer_pop] then give
    the bytes back in the order they were pushed and leave it empty. *)
Theorem ring_buffer_first_in_first_out (fuel : nat) (buf bs : list Z)
  (sz : Z) :
  0 < sz < 2 ^ 32 → sz ≤ Z.of_nat (length buf) → (32 ≤ fuel)%nat →
  Z.of_nat (length bs) < 2 ^ Z.log2 sz →
  ∃ rb0 rb1 rb2,
    ring_buffer_init fuel buf sz = Done rb0
    ∧ size rb0 = 2 ^ Z.log2 sz
    ∧ ring_buffer_is_empty rb0 = true
    ∧ push_all rb0 bs = Done (0, rb1)
    ∧ ring_buffer_is_full rb1
      = bool_decide (Z.of_nat (length bs) + 1 = 2 ^ Z.log2 sz)
    ∧ pop_n (length bs) rb1 = Done (bs, rb2)
    ∧ ring_buffer_is_empty rb2 = true.
Proof.
  intros Hsz Hbuf Hf Hn.
  destruct (init_represents fuel buf sz Hsz Hbuf Hf) as (rb0 & R0 & Hs0 & H0).
  destruct (push_all_represents bs rb0 [] H0) as (rb1 & R1 & H1 & Hs1).
  { simpl. lia. }
  simpl in H1.
  destruct (pop_n_represents bs rb1 []) as (rb2 & R2 & H2 & Hs2).
  { by rewrite app_nil_r. }
  exists rb0, rb1, rb2. split; [done|]. split; [done|]. split.
  { by rewrite (is_empty_represents rb0 [] H0). }
  split; [done|]. split.
  { rewrite (is_full_represents rb1 bs H1). by rewrite Hs1, Hs0. }
  split; [done|]. by rewrite (is_empty_represents rb2 [] H2).
Qed.

Lemma ring_buffer_first_in_first_out_witness :
  ∃ rb0 rb1 rb2,
    ring_buffer_init 32 [0; 0; 0; 0; 0] 5 = Done rb0
    ∧ size rb0 = 2 ^ Z.log2 5
    ∧ ring_buffer_is_empty rb0 = true
    ∧ push_all rb0 [1; 2; 3] = Done (0, rb1)
    ∧ ring_buffer_is_full rb1
      = bool_decide (Z.of_nat (length [1; 2; 3]) + 1 = 2 ^ Z.log2 5)
    ∧ pop_n (length [1; 2; 3]) rb1 = Done ([1; 2; 3], rb2)
    ∧ ring_buffer_is_empty rb2 = true.
Proof.
  apply (ring_buffer_first_in_first_out 32 [0; 0; 0; 0; 0] [1; 2; 3] 5).
  - lia.
  - simpl. lia.
  - lia.
  - by vm_compute.
Defined.

Lemma advance_size_zero (rb : ring_buffer) (i : Z) :
  size rb = 0 → 0 ≤ i → i + 1 < 2 ^ 32 → advance rb i = i + 1.
Proof.
  intros Hs Hi Hlt. unfold advance. rewrite Hs.
  change (wrap32 (0 - 1)) with (Z.ones 32).
  rewrite Z.land_ones by lia. rewrite wrap32_small by lia.
  apply Z.mod_small. lia.
Qed.

Lemma push_all_size_zero (bs : list Z) :
  ∀ (buf : list Z) (h : Z),
    0 ≤ h → h + Z.of_nat (length bs) ≤ Z.of_nat (length buf) →
    Z.of_nat (length buf) + 1 < 2 ^ 32 →
    ∃ buf', length buf' = length buf
      ∧ push_all {| buffer := buf; size := 0; head := h; tail := 0 |} bs
        = Done (0, {| buffer := buf'; size := 0;
                      head := h + Z.of_nat (length bs); tail := 0 |}).
Proof.
  induction bs as [|b bs IH]; intros buf h Hh Hlen Hmax.
  - exists buf. split; [done|]. simpl. by rewrite Z.add_0_r.
  - cbn [length] in Hlen.
    destruct (IH (<[Z.to_nat h := b]> buf) (h + 1)) as (buf' & Hl & R).
    { lia. } { rewrite length_insert. lia. } { by rewrite length_insert. }
    exists buf'. split; [by rewrite Hl, length_insert|].
    cbn [push_all]. unfold ring_buffer_push, ring_buffer_is_full.
    cbn [head tail]. rewrite advance_size_zero by (simpl; lia).
    rewrite bool_decide_eq_false_2 by lia.
    unfold store_at_head. cbn [head tail buffer size].
    rewrite decide_True by lia. cbn [mbind outcome_bind].
    rewrite decide_True by done.
    rewrite advance_size_zero by (simpl; lia).
    rewrite R. do 3 f_equal. cbn [length]. lia.
Qed.

(** [ring_buffer_init] with size 0 leaves [size] at 0, and the mask
    [size - 1] wraps to [2^32 - 1]: the ring is never found full within the
    buffer, pushes fill the whole buffer, and the next push stores past its
    end. *)
Theorem ring_buffer_of_size_zero_overruns (fuel : nat) (buf bs : list Z)
  (b : Z) :
  length bs = length buf → Z.of_nat (length buf) + 1 < 2 ^ 32 →
  ∃ rb0 rb1,
    ring_buffer_init fuel buf 0 = Done rb0
    ∧ size rb0 = 0
    ∧ push_all rb0 bs = Done (0, rb1)
    ∧ ring_buffer_is_full rb1 = false
    ∧ ring_buffer_push rb1 b = Fault.
Proof.
  intros Hlen Hmax.
  destruct (push_all_size_zero bs buf 0) as (buf' & Hl & R); [lia|lia|done|].
  eexists _, _. split; [reflexivity|]. split; [done|].
  split; [exact R|].
  assert (ring_buffer_is_full
            {| buffer := buf'; size := 0;
               head := 0 + Z.of_nat (length bs); tail := 0 |} = false) as Hnf.
  { unfold ring_buffer_is_full. cbn [head tail].
    rewrite advance_size_zero by (simpl; lia).
    apply bool_decide_eq_false_2. lia. }
  split; [done|].
  unfold ring_buffer_push. rewrite Hnf.
  unfold store_at_head. cbn [head buffer].
  by rewrite decide_False by lia.
Qed.

Lemma ring_buffer_of_size_zero_overruns_witness :
  ∃ rb0 rb1,
    ring_buffer_init 0 [0; 0] 0 = Done rb0
    ∧ size rb0 = 0
    ∧ push_all rb0 [1; 2] = Done (0, rb1)
    ∧ ring_buffer_is_full rb1 = false
    ∧ ring_buffer_push rb1 3 = Fault.
Proof.
  apply (ring_buffer_of_size_zero_overruns 0 [0; 0] [1; 2] 3).
  - reflexivity.
  - simpl. lia.
Defined.

End RingBufferFacts.

(** ** fixed_message_queue.h *)
Module MessageQueueFacts.
Import MessageQueue.

Lemma macro_neg (x : Z) : ROUND_DOWN_POWER_OF_TWO x = Z.land x (- x).
Proof. unfold ROUND_DOWN_POWER_OF_TWO, Z.lnot. f_equal. lia. Qed.

Lemma macro_even (a : Z) :
  ROUND_DOWN_POWER_OF_TWO (2 * a) = 2 * ROUND_DOWN_POWER_OF_TWO a.
Proof.
  rewrite !macro_neg. apply Z.bits_inj'. intros n Hn.
  replace (- (2 * a)) with (2 * - a) by lia.
  rewrite Z.land_spec.
  destruct (decide (n = 0)) as [->|Hn0].
  - by rewrite !Z.testbit_even_0.
  - replace n with (Z.succ (n - 1)) by lia.
    rewrite !Z.testbit_even_succ by lia.
    by rewrite Z.land_spec.
Qed.

Lemma macro_odd (a : Z) : ROUND_DOWN_POWER_OF_TWO (2 * a + 1) = 1.
Proof.
  unfold ROUND_DOWN_POWER_OF_TWO. apply Z.bits_inj'. intros n Hn.
  replace (2 * a + 1 - 1) with (2 * a) by lia.
  replace (Z.lnot (2 * a)) with (2 * Z.lnot a + 1) by (unfold Z.lnot; lia).
  rewrite Z.land_spec.
  destruct (decide (n = 0)) as [->|Hn0].
  - by rewrite !Z.testbit_odd_0.
  - replace n with (Z.succ (n - 1)) by lia.
    rewrite !Z.testbit_odd_succ by lia.
    rewrite Z.lnot_spec by lia.
    replace 1 with (2 * 0 + 1) by lia.
    rewrite Z.testbit_odd_succ, Z.bits_0 by lia.
    apply andb_negb_r.
Qed.

(** The macro keeps the lowest set bit, the routine the highest. *)
Lemma macro_vs_log2 (n : nat) :
  ∀ x, 0 < x < 2 ^ Z.of_nat n →
    0 < ROUND_DOWN_POWER_OF_TWO x ≤ 2 ^ Z.log2 x
    ∧ (ROUND_DOWN_POWER_OF_TWO x | 2 ^ Z.log2 x)
    ∧ (ROUND_DOWN_POWER_OF_TWO x = 2 ^ Z.log2 x ↔ x = 2 ^ Z.log2 x).
Proof.
  induction n as [|n IH]; intros x Hx.
  { simpl in Hx. lia. }
  assert (2 ^ Z.of_nat (S n) = 2 * 2 ^ Z.of_nat n) as E2.
  { rewrite Nat2Z.inj_succ, Z.pow_succ_r by lia. done. }
  destruct (Z.even x) eqn:Ev.
  - apply Z.even_spec in Ev as [a ->].
    destruct (IH a ltac:(lia)) as (Hr & Hd & Hi).
    rewrite macro_even, Z.log2_double by lia.
    rewrite Z.pow_succ_r by apply Z.log2_nonneg.
    split; [lia|]. split; [by apply Z.mul_divide_mono_l|]. lia.
  - assert (Z.odd x = true) as Ho by (by rewrite <- Z.negb_even, Ev).
    apply Z.odd_spec in Ho as [a ->].
    rewrite macro_odd.
    destruct (decide (a = 0)) as [->|Ha].
    + simpl. split; [lia|]. split; [apply Z.divide_1_l|done].
    + rewrite Z.log2_succ_double by lia.
      rewrite Z.pow_succ_r by apply Z.log2_nonneg.
      assert (0 < 2 ^ Z.log2 a)
        by (apply Z.pow_pos_nonneg; [lia|apply Z.log2_nonneg]).
      split; [lia|]. split; [apply Z.divide_1_l|]. lia.
Qed.

(** The macro [ROUND_DOWN_POWER_OF_TWO], which sizes the buffer that
    [DECLARE_MESSAGE_QUEUE_BUFFER] declares, and the routine
    [round_down_to_power_of_two], which [message_queue_init] uses for the
    slot count, agree only on powers of two: on every positive [int] the
    macro gives a power of two that divides the routine's result and is not
    above it, and the two are equal exactly when the argument is itself a
    power of two. *)
Theorem round_down_macro_and_routine (x : Z) (fuel : nat) :
  0 < x < 2 ^ 31 → (32 ≤ fuel)%nat →
  ∃ r, round_down_to_power_of_two fuel x = Done r
    ∧ 0 < ROUND_DOWN_POWER_OF_TWO x ≤ r
    ∧ (ROUND_DOWN_POWER_OF_TWO x | r)
    ∧ (ROUND_DOWN_POWER_OF_TWO x = r ↔ x = r).
Proof.
  intros Hx Hf.
  destruct (RingBufferFacts.round_down_to_power_of_two_bound x fuel)
    as (r & R & Hr); [lia|done|].
  exists r. split; [done|]. subst r.
  apply (macro_vs_log2 31). change (Z.of_nat 31) with 31. lia.
Qed.

Lemma round_down_macro_and_routine_witness :
  ∃ r, round_down_to_power_of_two 32 6 = Done r
    ∧ 0 < ROUND_DOWN_POWER_OF_TWO 6 ≤ r
    ∧ (ROUND_DOWN_POWER_OF_TWO 6 | r)
    ∧ (ROUND_DOWN_POWER_OF_TWO 6 = r ↔ 6 = r).
Proof.
  apply (round_down_macro_and_routine 6 32); [lia|lia].
Defined.

Lemma copy_range_from (n : nat) :
  ∀ (from s d : nat) (src dst : list Z),
    (s + from + n ≤ length src)%nat → (d + from + n ≤ length dst)%nat →
    copy_range n from s d src dst
    = Done (take (d + from) dst ++ take n (drop (s + from) src)
            ++ drop (d + from + n) dst).
Proof.
  induction n as [|n IH]; intros from s d src dst Hs Hd.
  - simpl. by rewrite Nat.add_0_r, take_drop.
  - simpl. destruct (src !! (s + from)%nat) as [b|] eqn:Eb.
    2:{ apply lookup_ge_None in Eb. lia. }
    rewrite decide_True by lia.
    rewrite IH by (rewrite ?length_insert; lia). f_equal.
    replace (d + S from)%nat with (S (d + from)) by lia.
    replace (s + S from)%nat with (S (s + from)) by lia.
    rewrite (take_S_r _ (d + from) b) by (apply list_lookup_insert_eq; lia).
    rewrite take_insert_ge by lia.
    rewrite drop_insert_lt by lia.
    rewrite (drop_S src b (s + from) Eb). simpl.
    rewrite <- app_assoc. simpl.
    by replace (d + from + S n)%nat with (S (d + from) + n)%nat by lia.
Qed.

(** A buffer with the [length d] bytes at offset [a] replaced by [d]. *)
Lemma lookup_splice (buf d : list Z) (a i : nat) :
  (a + length d ≤ length buf)%nat →
  (take a buf ++ d ++ drop (a + length d) buf) !! i
  = if decide (a ≤ i < a + length d)%nat then d !! (i - a)%nat
    else buf !! i.
Proof.
  intros Hlen. destruct (decide (i < a)%nat) as [Hlt|Hge].
  - rewrite lookup_app_l by (rewrite length_take; lia).
    rewrite lookup_take_lt by lia. by rewrite decide_False by lia.
  - rewrite lookup_app_r by (rewrite length_take; lia).
    rewrite length_take. replace (a `min` length buf)%nat with a by lia.
    destruct (decide (i < a + length d)%nat) as [Hin|Hout].
    + rewrite lookup_app_l by lia. by rewrite decide_True by lia.
    + rewrite lookup_app_r by lia. rewrite lookup_drop.
      rewrite decide_False by lia. f_equal. lia.
Qed.

Lemma slot_ext (l1 l2 : list Z) (o n : nat) :
  (∀ i, (o ≤ i < o + n)%nat → l1 !! i = l2 !! i) →
  take n (drop o l1) = take n (drop o l2).
Proof.
  intros H. apply list_eq. intros i.
  destruct (decide (i < n)%nat) as [Hi|Hi].
  - rewrite !lookup_take_lt, !lookup_drop by done. apply H. lia.
  - by rewrite !lookup_take_ge by lia.
Qed.

Lemma slot_exact (l : list Z) (o n : nat) (d : list Z) :
  length d = n → (∀ i, (i < n)%nat → l !! (o + i)%nat = d !! i) →
  take n (drop o l) = d.
Proof.
  intros Hd H. apply list_eq. intros i.
  destruct (decide (i < n)%nat) as [Hi|Hi].
  - rewrite lookup_take_lt, lookup_drop by done. by apply H.
  - rewrite lookup_take_ge by lia. symmetry. apply lookup_ge_None. lia.
Qed.

Lemma mq_advance_cases (mq : message_queue) (k i : Z) :
  0 ≤ k < 32 → slot_count mq = 2 ^ k → 0 ≤ i < slot_count mq →
  advance mq i = if decide (i + 1 = slot_count mq) then 0 else i + 1.
Proof.
  intros Hk Hs Hi. by apply (RingBufferFacts.land_mask_cases _ k).
Qed.

Lemma slot_offset_small (mq : message_queue) (i : Z) :
  0 ≤ i → 0 ≤ slot_size mq → i * slot_size mq < 2 ^ 32 →
  slot_offset mq i = Z.to_nat (i * slot_size mq).
Proof.
  intros Hi Hs Hlt. unfold slot_offset.
  rewrite RingBufferFacts.wrap32_small; [done|]. nia.
Qed.

(** The copy of push, whenever the slot at [head] lies within the buffer. *)
Lemma mq_push_stores (mq : message_queue) (k : Z) (data : list Z) :
  0 ≤ k < 32 → slot_count mq = 2 ^ k → 0 ≤ slot_size mq →
  0 ≤ head mq < slot_count mq → 0 ≤ tail mq < slot_count mq →
  (head mq - tail mq) mod slot_count mq + 1 < slot_count mq →
  (head mq + 1) * slot_size mq ≤ Z.of_nat (length (buffer mq)) →
  Z.of_nat (length (buffer mq)) < 2 ^ 32 →
  slot_size mq ≤ Z.of_nat (length data) →
  message_queue_push mq data
  = Done (0, {| buffer :=
                  take (Z.to_nat (head mq * slot_size mq)) (buffer mq)
                  ++ take (Z.to_nat (slot_size mq)) data
                  ++ drop (Z.to_nat (head mq * slot_size mq)
                           + Z.to_nat (slot_size mq)) (buffer mq);
                slot_size := slot_size mq; slot_count := slot_count mq;
                head := advance mq (head mq); tail := tail mq |}).
Proof.
  intros Hk Hs Hss Hh Ht Hroom Hbuf Hmax Hdata.
  unfold message_queue_push.
  rewrite (mq_advance_cases mq k _ Hk Hs Hh).
  rewrite RingBufferFacts.sub_mod_cases in Hroom by done.
  rewrite decide_False by (repeat case_decide; lia).
  rewrite slot_offset_small by nia.
  rewrite copy_range_from by (simpl; nia).
  cbn [mbind outcome_bind]. rewrite Nat.add_0_r, drop_0. done.
Qed.

Lemma splice_slot_other (buf d : list Z) (a o n m : nat) :
  length d = m → (a + m ≤ length buf)%nat →
  (o + n ≤ a ∨ a + m ≤ o)%nat →
  take n (drop o (take a buf ++ d ++ drop (a + m) buf))
  = take n (drop o buf).
Proof.
  intros <- Hlen Hout. apply slot_ext. intros i Hi.
  rewrite lookup_splice by done. by rewrite decide_False by lia.
Qed.

Lemma splice_slot_same (buf d : list Z) (a m : nat) :
  length d = m → (a + m ≤ length buf)%nat →
  take m (drop a (take a buf ++ d ++ drop (a + m) buf)) = d.
Proof.
  intros <- Hlen. apply slot_exact; [done|]. intros i Hi.
  rewrite lookup_splice by done. rewrite decide_True by lia.
  f_equal. lia.
Qed.

Lemma length_splice (buf d : list Z) (a m : nat) :
  length d = m → (a + m ≤ length buf)%nat →
  length (take a buf ++ d ++ drop (a + m) buf) = length buf.
Proof.
  intros <- Hlen. rewrite !length_app, length_take, length_drop. lia.
Qed.

Lemma mq_represents_length (mq : message_queue) (ms : list (list Z)) :
  represents mq ms → Z.of_nat (length ms) < slot_count mq.
Proof.
  intros (_ & _ & _ & _ & Hh & Ht & Hc & _). rewrite Hc.
  apply Z.mod_pos_bound. lia.
Qed.

Lemma mq_push_room (mq : message_queue) (ms : list (list Z))
  (data : list Z) :
  represents mq ms → slot_size mq ≤ Z.of_nat (length data) →
  Z.of_nat (length ms) + 1 < slot_count mq →
  ∃ mq', message_queue_push mq data = Done (0, mq')
    ∧ represents mq' (ms ++ [take (Z.to_nat (slot_size mq)) data]).
Proof.
  intros ((k & Hk & Hs) & Hss & Hbuf & Hmax & Hh & Ht & Hc & Hb) Hdata Hroom.
  assert ((head mq + 1) * slot_size mq ≤ slot_count mq * slot_size mq)
    as Hfit by nia.
  rewrite (mq_push_stores mq k data) by (done || lia).
  eexists. split; [reflexivity|].
  set (n := Z.to_nat (slot_size mq)).
  set (d := take n data).
  assert (length d = n) as Hd by (unfold d, n; rewrite length_take; lia).
  set (a := Z.to_nat (head mq * slot_size mq)).
  assert (a + n ≤ length (buffer mq))%nat as Hin by (unfold a, n; nia).
  pose proof (mq_advance_cases mq k _ Hk Hs Hh) as Ha.
  rewrite RingBufferFacts.sub_mod_cases in Hc by done.
  split; [by exists k|]. cbn [slot_size slot_count head tail buffer].
  split; [done|]. rewrite (length_splice _ _ _ _ Hd Hin).
  split; [done|]. split; [done|].
  split; [rewrite Ha; case_decide; lia|]. split; [done|]. split.
  - rewrite length_app. cbn [length].
    assert (0 ≤ advance mq (head mq) < slot_count mq) as Hr
      by (rewrite Ha; case_decide; lia).
    rewrite RingBufferFacts.sub_mod_cases by done. rewrite Ha.
    repeat case_decide; lia.
  - intros i Hi. rewrite length_app in Hi. cbn [length] in Hi.
    unfold slot. cbn [slot_size buffer]. fold n.
    destruct (decide (i < length ms)%nat) as [Hlt|Hge].
    + rewrite lookup_app_l by done. rewrite (Hb i Hlt). f_equal.
      unfold slot. fold n. symmetry.
      apply (splice_slot_other _ _ _ _ _ _ Hd Hin).
      rewrite RingBufferFacts.add_mod_cases by lia.
      unfold a, n. repeat case_decide; nia.
    + assert (i = length ms) as -> by lia.
      rewrite lookup_app_r by lia. rewrite Nat.sub_diag.
      change ([d] !! 0%nat) with (Some d). f_equal.
      replace ((tail mq + Z.of_nat (length ms)) mod slot_count mq)
        with (head mq)
        by (rewrite RingBufferFacts.add_mod_cases by lia;
            repeat case_decide; lia).
      fold a. symmetry. by apply splice_slot_same.
Qed.

Lemma mq_peek_first (mq : message_queue) (m : list Z)
  (rest : list (list Z)) (data : list Z) :
  represents mq (m :: rest) → slot_size mq ≤ Z.of_nat (length data) →
  message_queue_peek mq data
  = Done (0, m ++ drop (Z.to_nat (slot_size mq)) data).
Proof.
  intros ((k & Hk & Hs) & Hss & Hbuf & Hmax & Hh & Ht & Hc & Hb) Hdata.
  unfold message_queue_peek.
  rewrite RingBufferFacts.sub_mod_cases in Hc by done. cbn [length] in Hc.
  rewrite decide_False by (case_decide; lia).
  assert ((tail mq + 1) * slot_size mq ≤ slot_count mq * slot_size mq)
    as Hfit by nia.
  rewrite slot_offset_small by nia.
  rewrite copy_range_from by (simpl; nia).
  cbn [mbind outcome_bind]. rewrite !Nat.add_0_r, take_0, Nat.add_0_l.
  pose proof (Hb 0%nat ltac:(simpl; lia)) as H0.
  rewrite Z.add_0_r, Z.mod_small in H0 by lia.
  change ((m :: rest) !! 0%nat) with (Some m) in H0.
  injection H0 as ->. done.
Qed.

Lemma mq_pop_first (mq : message_queue) (m : list Z)
  (rest : list (list Z)) (data : list Z) :
  represents mq (m :: rest) → slot_size mq ≤ Z.of_nat (length data) →
  ∃ mq', message_queue_pop mq data
         = Done (0, mq', m ++ drop (Z.to_nat (slot_size mq)) data)
    ∧ represents mq' rest.
Proof.
  intros H Hdata. unfold message_queue_pop.
  rewrite (mq_peek_first mq m rest data H Hdata).
  cbn [mbind outcome_bind]. rewrite decide_True by done.
  eexists. split; [reflexivity|].
  destruct H as ((k & Hk & Hs) & Hss & Hbuf & Hmax & Hh & Ht & Hc & Hb).
  rewrite RingBufferFacts.sub_mod_cases in Hc by done. cbn [length] in Hc.
  pose proof (mq_advance_cases mq k _ Hk Hs Ht) as Ha.
  split; [by exists k|]. cbn [slot_size slot_count head tail buffer].
  split; [done|]. split; [done|]. split; [done|]. split; [done|].
  split; [rewrite Ha; case_decide; lia|]. split.
  - assert (0 ≤ advance mq (tail mq) < slot_count mq) as Hr
      by (rewrite Ha; case_decide; lia).
    rewrite RingBufferFacts.sub_mod_cases by done. rewrite Ha.
    repeat case_decide; lia.
  - intros i Hi.
    change (rest !! i) with ((m :: rest) !! S i).
    rewrite (Hb (S i)) by (simpl; lia).
    assert ((advance mq (tail mq) + Z.of_nat i) mod slot_count mq
            = (tail mq + Z.of_nat (S i)) mod slot_count mq) as E.
    { rewrite Ha.
      assert (0 ≤ Z.of_nat i < slot_count mq) by (repeat case_decide; lia).
      assert (0 ≤ Z.of_nat (S i) < slot_count mq)
        by (repeat case_decide; lia).
      case_decide.
      - rewrite Z.add_0_l, Z.mod_small by lia.
        rewrite RingBufferFacts.add_mod_cases by lia.
        repeat case_decide; lia.
      - rewrite !RingBufferFacts.add_mod_cases by lia.
        repeat case_decide; lia. }
    unfold slot. cbn [slot_size buffer]. by rewrite E.
Qed.

Lemma mq_flush_represents (mq : message_queue) (ms : list (list Z)) :
  represents mq ms → represents (message_queue_flush mq) [].
Proof.
  intros ((k & Hk & Hs) & Hss & Hbuf & Hmax & Hh & Ht & Hc & Hb).
  split; [by exists k|]. cbn [slot_size slot_count head tail buffer
                             message_queue_flush].
  split; [done|]. split; [done|]. split; [done|].
  split; [lia|]. split; [lia|]. split.
  - by rewrite Z.sub_diag, Z.mod_0_l by lia.
  - intros i Hi. simpl in Hi. lia.
Qed.

Lemma represents_queue4 : represents queue4 [[1; 2]; [3; 4]].
Proof.
  split; [exists 2; split; [lia|done]|].
  split; [simpl; lia|]. split; [simpl; lia|]. split; [simpl; lia|].
  split; [simpl; lia|]. split; [simpl; lia|]. split; [done|].
  intros [|[|i]] Hi; [done|done|simpl in Hi; lia].
Qed.

(** [message_queue_push] on a queue that holds the messages [ms],
    given at least [slot_size] bytes of data: while fewer than
    [slot_count - 1] messages are held it returns 0 and the queue holds
    [ms] followed by the first [slot_size] bytes of the data; with
    [slot_count - 1] messages held it returns [-ENOBUFS] and changes
    nothing.  A queue never holds more than [slot_count - 1] messages. *)
Theorem message_queue_push_appends (mq : message_queue)
  (ms : list (list Z)) (data : list Z) :
  represents mq ms → slot_size mq ≤ Z.of_nat (length data) →
  Z.of_nat (length ms) + 1 ≤ slot_count mq
  ∧ (Z.of_nat (length ms) + 1 < slot_count mq →
       ∃ mq', message_queue_push mq data = Done (0, mq')
         ∧ represents mq' (ms ++ [take (Z.to_nat (slot_size mq)) data]))
  ∧ (Z.of_nat (length ms) + 1 = slot_count mq →
       message_queue_push mq data = Done (- ENOBUFS, mq)).
Proof.
  intros H Hdata. pose proof (mq_represents_length mq ms H) as Hlt.
  split; [lia|]. split.
  - intros Hroom. by apply mq_push_room.
  - intros Hfull. unfold message_queue_push.
    destruct H as ((k & Hk & Hs) & Hss & Hbuf & Hmax & Hh & Ht & Hc & Hb).
    rewrite (mq_advance_cases mq k _ Hk Hs Hh).
    rewrite RingBufferFacts.sub_mod_cases in Hc by done.
    by rewrite decide_True by (repeat case_decide; lia).
Qed.

Lemma message_queue_push_appends_witness :
  Z.of_nat (length [[1; 2]; [3; 4]]) + 1 ≤ slot_count queue4
  ∧ (Z.of_nat (length [[1; 2]; [3; 4]]) + 1 < slot_count queue4 →
       ∃ mq', message_queue_push queue4 [5; 6; 7] = Done (0, mq')
         ∧ represents mq'
             ([[1; 2]; [3; 4]]
              ++ [take (Z.to_nat (slot_size queue4)) [5; 6; 7]]))
  ∧ (Z.of_nat (length [[1; 2]; [3; 4]]) + 1 = slot_count queue4 →
       message_queue_push queue4 [5; 6; 7] = Done (- ENOBUFS, queue4)).
Proof.
  apply (message_queue_push_appends queue4 [[1; 2]; [3; 4]] [5; 6; 7]).
  - apply represents_queue4.
  - simpl. lia.
Defined.

(** The reading side of the message queue, on a queue that holds
    the messages [ms] and given room for [slot_size] bytes.  On an empty
    queue [message_queue_peek] and [message_queue_pop] return [-EAGAIN] and
    leave queue and data alone.  Otherwise both return 0 and deliver the
    oldest message into the first [slot_size] bytes of the data; peek
    leaves the queue as it is, pop leaves it holding the other messages.
    [message_queue_flush] leaves the queue empty. *)
Theorem message_queue_peek_pop_flush (mq : message_queue)
  (ms : list (list Z)) (data : list Z) :
  represents mq ms → slot_size mq ≤ Z.of_nat (length data) →
  match ms with
  | [] =>
      message_queue_peek mq data = Done (- EAGAIN, data)
      ∧ message_queue_pop mq data = Done (- EAGAIN, mq, data)
  | m :: rest =>
      message_queue_peek mq data
      = Done (0, m ++ drop (Z.to_nat (slot_size mq)) data)
      ∧ ∃ mq', message_queue_pop mq data
               = Done (0, mq', m ++ drop (Z.to_nat (slot_size mq)) data)
          ∧ represents mq' rest
  end
  ∧ represents (message_queue_flush mq) [].
Proof.
  intros H Hdata. split; [|by apply (mq_flush_represents mq ms)].
  destruct ms as [|m rest].
  - assert (message_queue_peek mq data = Done (- EAGAIN, data)) as Hp.
    { destruct H as ((k & Hk & Hs) & Hss & Hbuf & Hmax & Hh & Ht & Hc & Hb).
      rewrite RingBufferFacts.sub_mod_cases in Hc by done. simpl in Hc.
      unfold message_queue_peek.
      by rewrite decide_True by (case_decide; lia). }
    split; [done|]. unfold message_queue_pop. rewrite Hp.
    cbn [mbind outcome_bind]. by rewrite decide_False by done.
  - split; [by apply (mq_peek_first mq m rest)|].
    by apply mq_pop_first.
Qed.

Lemma message_queue_peek_pop_flush_witness :
  (message_queue_peek queue4 [9; 9; 9]
   = Done (0, [1; 2] ++ drop (Z.to_nat (slot_size queue4)) [9; 9; 9])
   ∧ ∃ mq', message_queue_pop queue4 [9; 9; 9]
            = Done (0, mq',
                    [1; 2] ++ drop (Z.to_nat (slot_size queue4)) [9; 9; 9])
       ∧ represents mq' [[3; 4]])
  ∧ represents (message_queue_flush queue4) [].
Proof.
  apply (message_queue_peek_pop_flush queue4 [[1; 2]; [3; 4]] [9; 9; 9]).
  - apply represents_queue4.
  - simpl. lia.
Defined.

Lemma mq_push_all_within (ms : list (list Z)) :
  ∀ (buf : list Z) (ssize scount k h : Z),
    0 ≤ k < 32 → scount = 2 ^ k → 0 ≤ ssize → 0 ≤ h →
    h + Z.of_nat (length ms) + 1 < scount →
    (h + Z.of_nat (length ms)) * ssize ≤ Z.of_nat (length buf) →
    Z.of_nat (length buf) < 2 ^ 32 →
    (∀ m, m ∈ ms → ssize ≤ Z.of_nat (length m)) →
    ∃ buf', length buf' = length buf
      ∧ push_all {| buffer := buf; slot_size := ssize;
                    slot_count := scount; head := h; tail := 0 |} ms
        = Done (0, {| buffer := buf'; slot_size := ssize;
                      slot_count := scount;
                      head := h + Z.of_nat (length ms); tail := 0 |}).
Proof.
  induction ms as [|m ms IH];
    intros buf ssize scount k h Hk Hs Hss Hh Hroom Hbuf Hmax Hms.
  - exists buf. split; [done|]. simpl. by rewrite Z.add_0_r.
  - cbn [length] in Hroom, Hbuf.
    set (mq := {| buffer := buf; slot_size := ssize; slot_count := scount;
                  head := h; tail := 0 |}).
    assert (ssize ≤ Z.of_nat (length m)) as Hm by (apply Hms; by left).
    assert ((h + 1) * ssize ≤ Z.of_nat (length buf)) as Hfit by nia.
    assert (advance mq h = h + 1) as Ha.
    { rewrite (mq_advance_cases mq k h Hk Hs) by (simpl; lia).
      by rewrite decide_False by (simpl; lia). }
    pose proof (mq_push_stores mq k m Hk Hs Hss) as Hp.
    cbn [head tail slot_size slot_count buffer mq] in Hp.
    rewrite Z.sub_0_r, Z.mod_small in Hp by lia.
    specialize (Hp ltac:(lia) ltac:(lia) ltac:(lia) Hfit Hmax Hm).
    fold mq in Hp. rewrite Ha in Hp.
    set (buf1 := take (Z.to_nat (h * ssize)) buf
                 ++ take (Z.to_nat ssize) m
                 ++ drop (Z.to_nat (h * ssize) + Z.to_nat ssize) buf) in Hp.
    assert (length buf1 = length buf) as Hl1.
    { apply length_splice; [rewrite length_take; lia|nia]. }
    destruct (IH buf1 ssize scount k (h + 1) Hk Hs Hss) as (buf' & Hl & R).
    { lia. } { lia. } { rewrite Hl1. nia. } { by rewrite Hl1. }
    { intros m' Hm'. apply Hms. by right. }
    exists buf'. split; [congruence|].
    cbn [push_all]. fold mq. rewrite Hp. cbn [mbind outcome_bind].
    rewrite decide_True by done. rewrite R. do 3 f_equal.
    cbn [length]. lia.
Qed.

(** A buffer declared with [DECLARE_MESSAGE_QUEUE_BUFFER] has
    [ROUND_DOWN_POWER_OF_TWO(slots)] slots, but [message_queue_init] gives
    the queue the larger slot count of [round_down_to_power_of_two] when
    [slots] is not a power of two.  Whenever the queue's capacity exceeds
    the declared slots, as many pushes as the buffer has slots succeed and
    the next push, which the queue does not refuse, stores past the end of
    the buffer. *)
Theorem declared_buffer_is_overrun (fuel : nat) (buf : list Z)
  (slots message_size : Z) (ms : list (list Z)) (data : list Z) :
  0 < slots < 2 ^ 31 → 0 < message_size → (32 ≤ fuel)%nat →
  Z.of_nat (length buf) = DECLARE_MESSAGE_QUEUE_BUFFER slots message_size →
  Z.of_nat (length buf) < 2 ^ 32 →
  ROUND_DOWN_POWER_OF_TWO slots + 1 < 2 ^ Z.log2 slots →
  Z.of_nat (length ms) = ROUND_DOWN_POWER_OF_TWO slots →
  (∀ m, m ∈ ms → message_size ≤ Z.of_nat (length m)) →
  message_size ≤ Z.of_nat (length data) →
  ∃ mq0 mq1,
    message_queue_init fuel buf message_size slots = Done mq0
    ∧ slot_count mq0 = 2 ^ Z.log2 slots
    ∧ push_all mq0 ms = Done (0, mq1)
    ∧ message_queue_push mq1 data = Fault.
Proof.
  intros Hslots Hsz Hf Hbuf Hmax Hcap Hms Hlen Hdata.
  unfold DECLARE_MESSAGE_QUEUE_BUFFER in Hbuf.
  destruct (RingBufferFacts.round_down_to_power_of_two_bound slots fuel)
    as (r & R & Hr); [lia|done|].
  assert (Z.log2 slots < 32) as Hk by (apply Z.log2_lt_pow2; lia).
  pose proof (Z.log2_nonneg slots) as Hk0.
  destruct (mq_push_all_within ms buf message_size (2 ^ Z.log2 slots)
              (Z.log2 slots) 0) as (buf' & Hl & P);
    [lia|done|lia|lia|lia|lia|done|done|].
  unfold message_queue_init, round_down_to_power_of_two.
  rewrite R, Hr. cbn [mbind outcome_bind].
  eexists _, _. split; [reflexivity|]. split; [done|]. split; [exact P|].
  set (mq1 := {| buffer := buf'; slot_size := message_size;
                 slot_count := 2 ^ Z.log2 slots;
                 head := 0 + Z.of_nat (length ms); tail := 0 |}).
  unfold message_queue_push.
  rewrite (mq_advance_cases mq1 (Z.log2 slots)) by (simpl; lia).
  rewrite decide_False by (simpl; case_decide; lia).
  rewrite slot_offset_small by (simpl; lia).
  cbn [head slot_size buffer mq1].
  destruct (Z.to_nat message_size) as [|n] eqn:En; [lia|].
  cbn [copy_range]. destruct data as [|b data]; [simpl in Hdata; lia|].
  cbn [lookup list_lookup Nat.add].
  destruct (decide (_ < length buf')%nat) as [Hlt|_]; [|done].
  rewrite Hl in Hlt. lia.
Qed.

Lemma declared_buffer_is_overrun_witness :
  ∃ mq0 mq1,
    message_queue_init 32 [0; 0; 0; 0] 2 6 = Done mq0
    ∧ slot_count mq0 = 2 ^ Z.log2 6
    ∧ push_all mq0 [[1; 2]; [3; 4]] = Done (0, mq1)
    ∧ message_queue_push mq1 [5; 6] = Fault.
Proof.
  apply (declared_buffer_is_overrun 32 [0; 0; 0; 0] 6 2
           [[1; 2]; [3; 4]] [5; 6]).
  - lia.
  - lia.
  - lia.
  - reflexivity.
  - simpl. lia.
  - by vm_compute.
  - reflexivity.
  - intros m Hm.
    repeat (apply elem_of_cons in Hm as [-> | Hm]; [simpl; lia|]).
    by apply elem_of_nil in Hm.
  - simpl. lia.
Defined.

End MessageQueueFacts.
